(** * A chess rules engine and its negamax search: shallow embedding

    The development follows the Python sources file by file:
    [move.py] (moves and castling rights), [check_detection.py] (the
    ray-casting detector), [piece_moves.py] (per-piece generators),
    [ChessEngine.py] (the game state, make/undo and the legal move
    filter), [evaluation.py] and [ChessAI.py] (the search).

    Python values are modelled as follows.
    - Integers are [Z]; list indices may be negative, in which case Python
      counts from the end of the list, and an index outside
      [-len, len) raises [IndexError].  Every computation that may raise
      returns an [option]; [None] stands for the raised exception.
    - A board square holds a two-character string such as "wp" or "--";
      it is modelled as the pair of its two characters.
    - The empty tuple [()] used for "no en-passant square" and "no pin
      direction" is [None] of an option type.
    - Methods that mutate the game state are functions from a state to an
      optional pair of a result and a new state. *)

From Stdlib Require Import ZArith List Bool Ascii Lia.
Import ListNotations.
Local Open Scope char_scope.
Local Open Scope Z_scope.

Set Implicit Arguments.

(** ** Python lists *)

Module Py.

(** [l[i]] *)
Definition get {A : Type} (l : list A) (i : Z) : option A :=
  let n := Z.of_nat (length l) in
  if (0 <=? i) && (i <? n) then nth_error l (Z.to_nat i)
  else if (- n <=? i) && (i <? 0) then nth_error l (Z.to_nat (i + n))
  else None.

Fixpoint set_nth {A : Type} (l : list A) (k : nat) (v : A) : list A :=
  match l, k with
  | [], _ => []
  | _ :: t, O => v :: t
  | h :: t, S k' => h :: set_nth t k' v
  end.

(** [l[i] = v] *)
Definition set {A : Type} (l : list A) (i : Z) (v : A) : option (list A) :=
  let n := Z.of_nat (length l) in
  if (0 <=? i) && (i <? n) then Some (set_nth l (Z.to_nat i) v)
  else if (- n <=? i) && (i <? 0) then Some (set_nth l (Z.to_nat (i + n)) v)
  else None.

(** [range(a, b)] *)
Definition range (a b : Z) : list Z :=
  map (fun k => a + Z.of_nat k) (seq 0 (Z.to_nat (b - a))).

(** [range(a, b, -1)] *)
Definition range_down (a b : Z) : list Z :=
  map (fun k => a - Z.of_nat k) (seq 0 (Z.to_nat (a - b))).

(** [l.remove(x)] for an [x] known to be equal to some element: the
    first element equal to [x] is dropped.  (When no element is equal
    Python raises [ValueError].) *)
Fixpoint remove {A : Type} (eqb : A -> A -> bool) (x : A) (l : list A)
  : option (list A) :=
  match l with
  | [] => None
  | h :: t => if eqb h x then Some t
              else match remove eqb x t with
                   | Some t' => Some (h :: t')
                   | None => None
                   end
  end.

(** [l[-1]] and [l.pop()] *)
Definition last {A : Type} (l : list A) : option A :=
  get l (-1).

Definition pop {A : Type} (l : list A) : option (A * list A) :=
  match rev l with
  | [] => None
  | x :: r => Some (x, rev r)
  end.

End Py.

(** ** Pieces, squares and boards *)

Definition Piece : Type := (ascii * ascii)%type.

(** Modelled from the spec: [constants.py] is not among the sources.  The
    piece tags are the literals that [move.py], [check_detection.py] and
    [piece_moves.py] compare board entries with ("--", "w", "b", "p",
    "R", "N", "B", "Q", "K"), and [BOARD_SIZE] is the side of the
    specification's 8 x 8 board. *)
Definition EMPTY_SQUARE : Piece := ("-", "-").
Definition WHITE_COLOR : ascii := "w".
Definition BLACK_COLOR : ascii := "b".
Definition PAWN : ascii := "p".
Definition ROOK : ascii := "R".
Definition KNIGHT : ascii := "N".
Definition BISHOP : ascii := "B".
Definition QUEEN : ascii := "Q".
Definition KING : ascii := "K".
Definition BOARD_SIZE : Z := 8.

Definition piece_eqb (p q : Piece) : bool :=
  Ascii.eqb (fst p) (fst q) && Ascii.eqb (snd p) (snd q).

Definition Square : Type := (Z * Z)%type.

Definition square_eqb (a b : Square) : bool :=
  (fst a =? fst b) && (snd a =? snd b).

Definition Board : Type := list (list Piece).

(** [board[r][c]] *)
Definition board_get (b : Board) (r c : Z) : option Piece :=
  match Py.get b r with
  | Some row => Py.get row c
  | None => None
  end.

(** [board[r][c] = v] *)
Definition board_set (b : Board) (r c : Z) (v : Piece) : option Board :=
  match Py.get b r with
  | Some row =>
      match Py.set row c v with
      | Some row' => Py.set b r row'
      | None => None
      end
  | None => None
  end.

(** ** [move.py] *)

Record Move : Type := mkMove {
  start_row : Z;
  start_col : Z;
  end_row : Z;
  end_col : Z;
  piece_moved : Piece;
  piece_captured : Piece;
  is_pawn_promotion : bool;
  is_enpassant_move : bool;
  is_castle_move : bool;
  is_capture : bool;
  moveID : Z
}.

(** [Move.__init__] *)
Definition Move_init (start_square end_square : Square) (board : Board)
  (is_enpassant is_castle : bool) : option Move :=
  let sr := fst start_square in
  let sc := snd start_square in
  let er := fst end_square in
  let ec := snd end_square in
  match board_get board sr sc with
  | None => None
  | Some pm =>
    match board_get board er ec with
    | None => None
    | Some pc0 =>
      let promo := (piece_eqb pm ("w", "p") && (er =? 0))
                   || (piece_eqb pm ("b", "p") && (er =? 7)) in
      let pc := if is_enpassant
                then (if piece_eqb pm ("b", "p") then ("w", "p") else ("b", "p"))
                else pc0 in
      Some (mkMove sr sc er ec pm pc promo is_enpassant is_castle
              (negb (piece_eqb pc ("-", "-")))
              (sr * 1000 + sc * 100 + er * 10 + ec))
    end
  end.

(** [Move.__eq__] *)
Definition Move_eqb (a b : Move) : bool := moveID a =? moveID b.

Record CastleRights : Type := mkCastleRights {
  wks : bool;
  bks : bool;
  wqs : bool;
  bqs : bool
}.

(** ** [check_detection.py] *)

(** A pin or a check: [(row, col, direction_row, direction_col)]. *)
Definition Quad : Type := (Z * Z * Z * Z)%type.

Definition quad_eqb (a b : Quad) : bool :=
  match a, b with
  | (a1, a2, a3, a4), (b1, b2, b3, b4) =>
      (a1 =? b1) && (a2 =? b2) && (a3 =? b3) && (a4 =? b4)
  end.

Definition on_board (r c : Z) : bool :=
  (0 <=? r) && (r <=? 7) && (0 <=? c) && (c <=? 7).

Definition _isValidAttackDirection (direction_index : Z) (piece_type : ascii)
  (distance : Z) : bool :=
  let is_orthogonal := (0 <=? direction_index) && (direction_index <=? 3) in
  let is_diagonal := (4 <=? direction_index) && (direction_index <=? 7) in
  if is_orthogonal && Ascii.eqb piece_type "R" then true
  else if is_diagonal && Ascii.eqb piece_type "B" then true
  else if Ascii.eqb piece_type "Q" then true
  else if (distance =? 1) && Ascii.eqb piece_type "p" then
    (direction_index =? 4) || (direction_index =? 5)
    || (direction_index =? 6) || (direction_index =? 7)
  else if (distance =? 1) && Ascii.eqb piece_type "K" then true
  else false.

(** The three accumulators of [checkForPinsAndChecks]. *)
Record Detect : Type := mkDetect {
  d_in_check : bool;
  d_pins : list Quad;
  d_checks : list Quad
}.

(** The inner loop [for i in range(1, 8)] of one ray; [dists] holds the
    distances still to visit and [possible_pin] the candidate pin. *)
Fixpoint scan_ray (board : Board) (ally_color enemy_color : ascii)
  (start_row start_col : Z) (j : Z) (direction : Z * Z)
  (possible_pin : option Quad) (acc : Detect) (dists : list Z)
  : option Detect :=
  match dists with
  | [] => Some acc
  | i :: rest =>
    let end_row := start_row + fst direction * i in
    let end_col := start_col + snd direction * i in
    if negb (on_board end_row end_col) then Some acc
    else
      match board_get board end_row end_col with
      | None => None
      | Some end_piece =>
        if Ascii.eqb (fst end_piece) ally_color
           && negb (Ascii.eqb (snd end_piece) "K") then
          match possible_pin with
          | None =>
              scan_ray board ally_color enemy_color start_row start_col j
                direction
                (Some (end_row, end_col, fst direction, snd direction))
                acc rest
          | Some _ => Some acc
          end
        else if Ascii.eqb (fst end_piece) enemy_color then
          let enemy_type := snd end_piece in
          if _isValidAttackDirection j enemy_type i then
            match possible_pin with
            | None =>
                Some (mkDetect true (d_pins acc)
                        (d_checks acc
                         ++ [(end_row, end_col, fst direction, snd direction)]))
            | Some pin =>
                Some (mkDetect (d_in_check acc) (d_pins acc ++ [pin])
                        (d_checks acc))
            end
          else Some acc
        else
          scan_ray board ally_color enemy_color start_row start_col j
            direction possible_pin acc rest
      end
  end.

Definition directions : list (Z * Z) :=
  [(-1, 0); (0, -1); (1, 0); (0, 1); (-1, -1); (-1, 1); (1, -1); (1, 1)].

(** The outer loop [for j in range(len(directions))]. *)
Fixpoint scan_rays (board : Board) (ally_color enemy_color : ascii)
  (start_row start_col : Z) (j : Z) (dirs : list (Z * Z)) (acc : Detect)
  : option Detect :=
  match dirs with
  | [] => Some acc
  | direction :: rest =>
    match scan_ray board ally_color enemy_color start_row start_col j
            direction None acc (Py.range 1 8) with
    | None => None
    | Some acc' =>
        scan_rays board ally_color enemy_color start_row start_col (j + 1)
          rest acc'
    end
  end.

Definition knight_moves : list (Z * Z) :=
  [(-2, -1); (-2, 1); (-1, 2); (1, 2); (2, -1); (2, 1); (-1, -2); (1, -2)].

(** [_checkForKnightChecks].  The list [checks] is the caller's list
    object and is extended in place; [in_check] is a boolean parameter,
    so the assignment [in_check = True] rebinds the helper's own local
    variable.  The function returns nothing: the pair computed by the
    loop is (value of the local [in_check], contents of [checks]), and
    only the second component is visible to the caller. *)
Fixpoint knight_loop (board : Board) (start_row start_col : Z)
  (enemy_color : ascii) (moves : list (Z * Z)) (checks : list Quad)
  (in_check : bool) : option (bool * list Quad) :=
  match moves with
  | [] => Some (in_check, checks)
  | move :: rest =>
    let end_row := start_row + fst move in
    let end_col := start_col + snd move in
    if on_board end_row end_col then
      match board_get board end_row end_col with
      | None => None
      | Some end_piece =>
        if Ascii.eqb (fst end_piece) enemy_color
           && Ascii.eqb (snd end_piece) "N" then
          knight_loop board start_row start_col enemy_color rest
            (checks ++ [(end_row, end_col, fst move, snd move)]) true
        else
          knight_loop board start_row start_col enemy_color rest checks
            in_check
      end
    else
      knight_loop board start_row start_col enemy_color rest checks in_check
  end.

Definition _checkForKnightChecks (board : Board) (start_row start_col : Z)
  (enemy_color : ascii) (checks : list Quad) (in_check : bool)
  : option (list Quad) :=
  match knight_loop board start_row start_col enemy_color knight_moves
          checks in_check with
  | Some (_, checks') => Some checks'
  | None => None
  end.

(** [check_detection.checkForPinsAndChecks], as a function of the three
    fields of the game state it reads. *)
Definition detect (board : Board) (white_to_move : bool)
  (white_king_location black_king_location : Square) : option Detect :=
  let enemy_color := if white_to_move then "b" else "w" in
  let ally_color := if white_to_move then "w" else "b" in
  let start_row := if white_to_move then fst white_king_location
                   else fst black_king_location in
  let start_col := if white_to_move then snd white_king_location
                   else snd black_king_location in
  match scan_rays board ally_color enemy_color start_row start_col 0
          directions (mkDetect false [] []) with
  | None => None
  | Some acc =>
    match _checkForKnightChecks board start_row start_col enemy_color
            (d_checks acc) (d_in_check acc) with
    | None => None
    | Some checks' => Some (mkDetect (d_in_check acc) (d_pins acc) checks')
    end
  end.

(** ** The game state ([ChessEngine.GameState])

    Castling rights are the one place where the program shares mutable
    objects.  Every [CastleRights] object is created by a call of the
    constructor that is either appended to [castle_rights_log] on the
    spot, or bound to [current_castling_rights].  The log therefore holds
    pairwise distinct objects, one per cell, and the object that
    [current_castling_rights] refers to is either private to that field
    ([Own]) or is the object stored in a cell of the log ([LogCell],
    counted from the bottom of the stack): this is what
    [self.current_castling_rights = self.castle_rights_log[-1]] in
    [undoMove] produces.  Assigning to an attribute of the current object
    writes through to the log cell in the second case. *)

Inductive CRRef : Type :=
  | Own (cr : CastleRights)
  | LogCell (i : nat).

Record GameState : Type := mkGameState {
  board : Board;
  white_to_move : bool;
  move_log : list Move;
  white_king_location : Square;
  black_king_location : Square;
  checkmate : bool;
  stalemate : bool;
  in_check : bool;
  pins : list Quad;
  checks : list Quad;
  enpassant_possible : option Square;
  enpassant_possible_log : list (option Square);
  current_castling_rights : CRRef;
  castle_rights_log : list CastleRights
}.

Definition set_board (s : GameState) (v : Board) : GameState :=
  mkGameState v (white_to_move s) (move_log s) (white_king_location s)
    (black_king_location s) (checkmate s) (stalemate s) (in_check s) (pins s)
    (checks s) (enpassant_possible s) (enpassant_possible_log s)
    (current_castling_rights s) (castle_rights_log s).

Definition set_white_to_move (s : GameState) (v : bool) : GameState :=
  mkGameState (board s) v (move_log s) (white_king_location s)
    (black_king_location s) (checkmate s) (stalemate s) (in_check s) (pins s)
    (checks s) (enpassant_possible s) (enpassant_possible_log s)
    (current_castling_rights s) (castle_rights_log s).

Definition set_move_log (s : GameState) (v : list Move) : GameState :=
  mkGameState (board s) (white_to_move s) v (white_king_location s)
    (black_king_location s) (checkmate s) (stalemate s) (in_check s) (pins s)
    (checks s) (enpassant_possible s) (enpassant_possible_log s)
    (current_castling_rights s) (castle_rights_log s).

Definition set_white_king_location (s : GameState) (v : Square) : GameState :=
  mkGameState (board s) (white_to_move s) (move_log s) v
    (black_king_location s) (checkmate s) (stalemate s) (in_check s) (pins s)
    (checks s) (enpassant_possible s) (enpassant_possible_log s)
    (current_castling_rights s) (castle_rights_log s).

Definition set_black_king_location (s : GameState) (v : Square) : GameState :=
  mkGameState (board s) (white_to_move s) (move_log s) (white_king_location s)
    v (checkmate s) (stalemate s) (in_check s) (pins s)
    (checks s) (enpassant_possible s) (enpassant_possible_log s)
    (current_castling_rights s) (castle_rights_log s).

Definition set_flags (s : GameState) (cm sm : bool) : GameState :=
  mkGameState (board s) (white_to_move s) (move_log s) (white_king_location s)
    (black_king_location s) cm sm (in_check s) (pins s)
    (checks s) (enpassant_possible s) (enpassant_possible_log s)
    (current_castling_rights s) (castle_rights_log s).

Definition set_detect (s : GameState) (d : Detect) : GameState :=
  mkGameState (board s) (white_to_move s) (move_log s) (white_king_location s)
    (black_king_location s) (checkmate s) (stalemate s) (d_in_check d)
    (d_pins d) (d_checks d) (enpassant_possible s) (enpassant_possible_log s)
    (current_castling_rights s) (castle_rights_log s).

Definition set_pins (s : GameState) (v : list Quad) : GameState :=
  mkGameState (board s) (white_to_move s) (move_log s) (white_king_location s)
    (black_king_location s) (checkmate s) (stalemate s) (in_check s) v
    (checks s) (enpassant_possible s) (enpassant_possible_log s)
    (current_castling_rights s) (castle_rights_log s).

Definition set_enpassant (s : GameState) (v : option Square)
  (l : list (option Square)) : GameState :=
  mkGameState (board s) (white_to_move s) (move_log s) (white_king_location s)
    (black_king_location s) (checkmate s) (stalemate s) (in_check s) (pins s)
    (checks s) v l (current_castling_rights s) (castle_rights_log s).

Definition set_castling (s : GameState) (v : CRRef) (l : list CastleRights)
  : GameState :=
  mkGameState (board s) (white_to_move s) (move_log s) (white_king_location s)
    (black_king_location s) (checkmate s) (stalemate s) (in_check s) (pins s)
    (checks s) (enpassant_possible s) (enpassant_possible_log s) v l.

(** The object [self.current_castling_rights] refers to. *)
Definition rights (s : GameState) : option CastleRights :=
  match current_castling_rights s with
  | Own cr => Some cr
  | LogCell i => nth_error (castle_rights_log s) i
  end.

(** Assignment to attributes of the current object, in place. *)
Definition write_rights (s : GameState) (cr : CastleRights) : GameState :=
  match current_castling_rights s with
  | Own _ => set_castling s (Own cr) (castle_rights_log s)
  | LogCell i =>
      set_castling s (LogCell i) (Py.set_nth (castle_rights_log s) i cr)
  end.

(** ** State and exception monad *)

Definition M (A : Type) : Type := GameState -> option (A * GameState).

Definition ret {A : Type} (a : A) : M A := fun s => Some (a, s).

Definition bind {A B : Type} (c : M A) (k : A -> M B) : M B :=
  fun s => match c s with
           | Some (a, s') => k a s'
           | None => None
           end.

(** A computation that may raise and does not touch the state. *)
Definition lift {A : Type} (o : option A) : M A :=
  fun s => match o with
           | Some a => Some (a, s)
           | None => None
           end.

(** A computation that reads the state. *)
Definition reads {A : Type} (f : GameState -> option A) : M A :=
  fun s => lift (f s) s.

Definition modify (f : GameState -> GameState) : M unit :=
  fun s => Some (tt, f s).

Declare Scope m_scope.
Delimit Scope m_scope with M.
Notation "x <- c ;; k" := (bind c (fun x => k))
  (at level 61, c at next level, right associativity) : m_scope.
Notation "c ;;; k" := (bind c (fun _ => k))
  (at level 61, right associativity) : m_scope.

Definition obind {A B : Type} (o : option A) (k : A -> option B) : option B :=
  match o with
  | Some a => k a
  | None => None
  end.

Declare Scope o_scope.
Delimit Scope o_scope with O.
Notation "x <-- c ;; k" := (obind c (fun x => k))
  (at level 61, c at next level, right associativity) : o_scope.

(** ** [piece_moves.py] *)

(** The search of the pin list that opens every generator:
    [for i in range(len(pins) - 1, -1, -1)] stops at the last entry of
    the list that names the square. *)
Definition find_pin (pins : list Quad) (row col : Z) : option Quad :=
  find (fun p => match p with
                 | (r, c, _, _) => (r =? row) && (c =? col)
                 end) (rev pins).

Definition pin_dir (p : Quad) : Z * Z :=
  match p with (_, _, d0, d1) => (d0, d1) end.

(** [pin_direction == (a, b)] where [pin_direction] may be [()]. *)
Definition dir_is (pin_direction : option (Z * Z)) (d : Z * Z) : bool :=
  match pin_direction with
  | Some p => (fst p =? fst d) && (snd p =? snd d)
  | None => false
  end.

(** Looks the square up in [game_state.pins]; [keep_for_queen] is the
    guard [board[row][col][1] != "Q"] of [getRookMoves], under which
    alone the entry is removed there. *)
Definition take_pin (keep_for_queen : bool) (row col : Z)
  : M (bool * option (Z * Z)) :=
  fun s =>
    match find_pin (pins s) row col with
    | None => Some ((false, None), s)
    | Some p =>
      if keep_for_queen then
        match board_get (board s) row col with
        | None => None
        | Some pc =>
          if negb (Ascii.eqb (snd pc) "Q") then
            match Py.remove quad_eqb p (pins s) with
            | Some pins' => Some ((true, Some (pin_dir p)), set_pins s pins')
            | None => None
            end
          else Some ((true, Some (pin_dir p)), s)
        end
      else
        match Py.remove quad_eqb p (pins s) with
        | Some pins' => Some ((true, Some (pin_dir p)), set_pins s pins')
        | None => None
        end
    end.

Local Open Scope o_scope.

(** [moves.append(Move(start, end, board, ...))] *)
Definition append_move (board : Board) (start_sq end_sq : Square)
  (ep castle : bool) (moves : list Move) : option (list Move) :=
  m <-- Move_init start_sq end_sq board ep castle ;; Some (moves ++ [m]).

(** First loop of [_addEnPassantIfValid]. *)
Fixpoint ep_inside (board : Board) (row : Z) (rng : list Z)
  (blocking_piece : bool) : option bool :=
  match rng with
  | [] => Some blocking_piece
  | i :: rest =>
    sq <-- board_get board row i ;;
    ep_inside board row rest
      (if negb (piece_eqb sq EMPTY_SQUARE) then true else blocking_piece)
  end.

(** Second loop of [_addEnPassantIfValid]. *)
Fixpoint ep_outside (board : Board) (row : Z) (enemy_color : ascii)
  (rng : list Z) (attacking_piece blocking_piece : bool)
  : option (bool * bool) :=
  match rng with
  | [] => Some (attacking_piece, blocking_piece)
  | i :: rest =>
    square <-- board_get board row i ;;
    if Ascii.eqb (fst square) enemy_color
       && (Ascii.eqb (snd square) "R" || Ascii.eqb (snd square) "Q")
    then ep_outside board row enemy_color rest true blocking_piece
    else if negb (piece_eqb square EMPTY_SQUARE)
    then ep_outside board row enemy_color rest attacking_piece true
    else ep_outside board row enemy_color rest attacking_piece blocking_piece
  end.

Definition _addEnPassantIfValid (board : Board) (row col move_amount
  col_offset king_row king_col : Z) (moves : list Move) (enemy_color : ascii)
  : option (list Move) :=
  ab <-- (if king_row =? row then
            let inside_range :=
              if king_col <? col then Py.range (king_col + 1) (col - 1)
              else Py.range_down (king_col - 1) col in
            let outside_range :=
              if king_col <? col then Py.range (col + 1) 8
              else Py.range_down (col - 2) (-1) in
            blocking <-- ep_inside board row inside_range false ;;
            ep_outside board row enemy_color outside_range false blocking
          else Some (false, false)) ;;
  if negb (fst ab) || snd ab then
    append_move board (row, col) (row + move_amount, col + col_offset)
      true false moves
  else Some moves.

Definition ep_is (ep : option Square) (sq : Square) : bool :=
  match ep with
  | Some e => square_eqb sq e
  | None => false
  end.

(** One of the two capture blocks of [getPawnMoves] ([side] is -1 for
    "capture to the left" and +1 for "capture to the right"). *)
Definition pawn_capture (s : GameState) (piece_pinned : bool)
  (pin_direction : option (Z * Z)) (row col move_amount side king_row
  king_col : Z) (enemy_color : ascii) (moves : list Move)
  : option (list Move) :=
  if negb piece_pinned || dir_is pin_direction (move_amount, side) then
    target <-- board_get (board s) (row + move_amount) (col + side) ;;
    moves1 <-- (if Ascii.eqb (fst target) enemy_color
                then append_move (board s) (row, col)
                       (row + move_amount, col + side) false false moves
                else Some moves) ;;
    if ep_is (enpassant_possible s) (row + move_amount, col + side) then
      _addEnPassantIfValid (board s) row col move_amount side king_row
        king_col moves1 enemy_color
    else Some moves1
  else Some moves.

(** The body of [getPawnMoves] after the pin lookup. *)
Definition pawn_body (s : GameState) (piece_pinned : bool)
  (pin_direction : option (Z * Z)) (row col : Z) (moves : list Move)
  : option (list Move) :=
  let move_amount := if white_to_move s then -1 else 1 in
  let start_row := if white_to_move s then 6 else 1 in
  let enemy_color := if white_to_move s then "b" else "w" in
  let king := if white_to_move s then white_king_location s
              else black_king_location s in
  let king_row := fst king in
  let king_col := snd king in
  ahead <-- board_get (board s) (row + move_amount) col ;;
  moves1 <-- (if piece_eqb ahead EMPTY_SQUARE then
                if negb piece_pinned || dir_is pin_direction (move_amount, 0)
                then
                  m1 <-- append_move (board s) (row, col)
                           (row + move_amount, col) false false moves ;;
                  if row =? start_row then
                    ahead2 <-- board_get (board s) (row + 2 * move_amount) col ;;
                    if piece_eqb ahead2 EMPTY_SQUARE then
                      append_move (board s) (row, col)
                        (row + 2 * move_amount, col) false false m1
                    else Some m1
                  else Some m1
                else Some moves
              else Some moves) ;;
  moves2 <-- (if col - 1 >=? 0 then
                pawn_capture s piece_pinned pin_direction row col move_amount
                  (-1) king_row king_col enemy_color moves1
              else Some moves1) ;;
  if col + 1 <=? 7 then
    pawn_capture s piece_pinned pin_direction row col move_amount 1
      king_row king_col enemy_color moves2
  else Some moves2.

Definition getPawnMoves (row col : Z) (moves : list Move) : M (list Move) :=
  bind (take_pin false row col)
    (fun pp => reads (fun s => pawn_body s (fst pp) (snd pp) row col moves)).

(** The loop [for i in range(1, 8)] shared, with identical bodies, by
    [getRookMoves] and [getBishopMoves]. *)
Fixpoint slide_ray (board : Board) (enemy_color : ascii) (row col : Z)
  (piece_pinned : bool) (pin_direction : option (Z * Z)) (direction : Z * Z)
  (dists : list Z) (moves : list Move) : option (list Move) :=
  match dists with
  | [] => Some moves
  | i :: rest =>
    let end_row := row + fst direction * i in
    let end_col := col + snd direction * i in
    if negb (on_board end_row end_col) then Some moves
    else if negb piece_pinned || dir_is pin_direction direction
            || dir_is pin_direction (- fst direction, - snd direction) then
      end_piece <-- board_get board end_row end_col ;;
      if piece_eqb end_piece EMPTY_SQUARE then
        moves' <-- append_move board (row, col) (end_row, end_col) false false
                     moves ;;
        slide_ray board enemy_color row col piece_pinned pin_direction
          direction rest moves'
      else if Ascii.eqb (fst end_piece) enemy_color then
        append_move board (row, col) (end_row, end_col) false false moves
      else Some moves
    else
      slide_ray board enemy_color row col piece_pinned pin_direction
        direction rest moves
  end.

(** The loop [for direction in directions]. *)
Fixpoint slide_dirs (board : Board) (enemy_color : ascii) (row col : Z)
  (piece_pinned : bool) (pin_direction : option (Z * Z))
  (dirs : list (Z * Z)) (moves : list Move) : option (list Move) :=
  match dirs with
  | [] => Some moves
  | direction :: rest =>
    moves' <-- slide_ray board enemy_color row col piece_pinned
                 pin_direction direction (Py.range 1 8) moves ;;
    slide_dirs board enemy_color row col piece_pinned pin_direction rest
      moves'
  end.

Definition slide_body (dirs : list (Z * Z)) (s : GameState)
  (piece_pinned : bool) (pin_direction : option (Z * Z)) (row col : Z)
  (moves : list Move) : option (list Move) :=
  slide_dirs (board s) (if white_to_move s then "b" else "w") row col
    piece_pinned pin_direction dirs moves.

Definition rook_directions : list (Z * Z) :=
  [(-1, 0); (0, -1); (1, 0); (0, 1)].

Definition bishop_directions : list (Z * Z) :=
  [(-1, -1); (-1, 1); (1, 1); (1, -1)].

Definition getRookMoves (row col : Z) (moves : list Move) : M (list Move) :=
  bind (take_pin true row col)
    (fun pp => reads (fun s =>
       slide_body rook_directions s (fst pp) (snd pp) row col moves)).

Definition getBishopMoves (row col : Z) (moves : list Move) : M (list Move) :=
  bind (take_pin false row col)
    (fun pp => reads (fun s =>
       slide_body bishop_directions s (fst pp) (snd pp) row col moves)).

Definition getQueenMoves (row col : Z) (moves : list Move) : M (list Move) :=
  bind (getRookMoves row col moves) (fun moves' => getBishopMoves row col moves').

Fixpoint knight_body (board : Board) (ally_color : ascii) (row col : Z)
  (piece_pinned : bool) (offs : list (Z * Z)) (moves : list Move)
  : option (list Move) :=
  match offs with
  | [] => Some moves
  | move :: rest =>
    let end_row := row + fst move in
    let end_col := col + snd move in
    if on_board end_row end_col then
      if negb piece_pinned then
        end_piece <-- board_get board end_row end_col ;;
        if negb (Ascii.eqb (fst end_piece) ally_color) then
          moves' <-- append_move board (row, col) (end_row, end_col) false
                       false moves ;;
          knight_body board ally_color row col piece_pinned rest moves'
        else knight_body board ally_color row col piece_pinned rest moves
      else knight_body board ally_color row col piece_pinned rest moves
    else knight_body board ally_color row col piece_pinned rest moves
  end.

Definition getKnightMoves (row col : Z) (moves : list Move) : M (list Move) :=
  bind (take_pin false row col)
    (fun pp => reads (fun s =>
       knight_body (board s) (if white_to_move s then "w" else "b") row col
         (fst pp) knight_moves moves)).

Local Close Scope o_scope.

(** ** [ChessEngine.py]: detector wrapper and king moves *)

Local Open Scope m_scope.

(** [GameState.checkForPinsAndChecks]: runs the detector and stores its
    three results in the state. *)
Definition checkForPinsAndChecks : M Detect :=
  fun s =>
    match detect (board s) (white_to_move s) (white_king_location s)
            (black_king_location s) with
    | Some d => Some (d, set_detect s d)
    | None => None
    end.

Definition set_king_location (ally_color : ascii) (sq : Square) : M unit :=
  modify (fun s => if Ascii.eqb ally_color "w"
                   then set_white_king_location s sq
                   else set_black_king_location s sq).

Definition king_offsets : list (Z * Z) :=
  combine [-1; -1; -1; 0; 0; 1; 1; 1] [-1; 0; 1; -1; 1; -1; 0; 1].

(** The loop [for i in range(8)] of [piece_moves.getKingMoves]. *)
Fixpoint king_loop (ally_color : ascii) (row col : Z) (offs : list (Z * Z))
  (moves : list Move) : M (list Move) :=
  match offs with
  | [] => ret moves
  | off :: rest =>
    let end_row := row + fst off in
    let end_col := col + snd off in
    if on_board end_row end_col then
      end_piece <- reads (fun s => board_get (board s) end_row end_col) ;;
      if negb (Ascii.eqb (fst end_piece) ally_color) then
        set_king_location ally_color (end_row, end_col) ;;;
        d <- checkForPinsAndChecks ;;
        moves' <- (if negb (d_in_check d)
                   then reads (fun s => append_move (board s) (row, col)
                                          (end_row, end_col) false false moves)
                   else ret moves) ;;
        set_king_location ally_color (row, col) ;;;
        king_loop ally_color row col rest moves'
      else king_loop ally_color row col rest moves
    else king_loop ally_color row col rest moves
  end.

Definition getKingMoves (row col : Z) (moves : list Move) : M (list Move) :=
  fun s =>
    king_loop (if white_to_move s then "w" else "b") row col king_offsets
      moves s.

(** [self.moveFunctions[piece](self, row, col, moves)]; a key that is not
    in the dictionary raises [KeyError]. *)
Definition moveFunctions (piece : ascii) (row col : Z) (moves : list Move)
  : M (list Move) :=
  if Ascii.eqb piece PAWN then getPawnMoves row col moves
  else if Ascii.eqb piece ROOK then getRookMoves row col moves
  else if Ascii.eqb piece KNIGHT then getKnightMoves row col moves
  else if Ascii.eqb piece BISHOP then getBishopMoves row col moves
  else if Ascii.eqb piece QUEEN then getQueenMoves row col moves
  else if Ascii.eqb piece KING then getKingMoves row col moves
  else fun _ => None.

(** The squares in the order of the two nested [range(BOARD_SIZE)] loops. *)
Definition all_squares : list Square :=
  flat_map (fun r => map (fun c => (r, c)) (Py.range 0 BOARD_SIZE))
    (Py.range 0 BOARD_SIZE).

Fixpoint all_moves_loop (squares : list Square) (moves : list Move)
  : M (list Move) :=
  match squares with
  | [] => ret moves
  | (row, col) :: rest =>
    sq <- reads (fun s => board_get (board s) row col) ;;
    wtm <- reads (fun s => Some (white_to_move s)) ;;
    let turn := fst sq in
    if (Ascii.eqb turn WHITE_COLOR && wtm)
       || (Ascii.eqb turn BLACK_COLOR && negb wtm) then
      moves' <- moveFunctions (snd sq) row col moves ;;
      all_moves_loop rest moves'
    else all_moves_loop rest moves
  end.

Definition getAllPossibleMoves : M (list Move) :=
  all_moves_loop all_squares [].

Definition flip_turn : M unit :=
  modify (fun s => set_white_to_move s (negb (white_to_move s))).

Definition squareUnderAttack (row col : Z) : M bool :=
  flip_turn ;;;
  opponents_moves <- getAllPossibleMoves ;;
  flip_turn ;;;
  ret (existsb (fun move => (end_row move =? row) && (end_col move =? col))
         opponents_moves).

Definition inCheck : M bool :=
  fun s =>
    if white_to_move s
    then squareUnderAttack (fst (white_king_location s))
           (snd (white_king_location s)) s
    else squareUnderAttack (fst (black_king_location s))
           (snd (black_king_location s)) s.

Definition board_is_empty (row col : Z) : M bool :=
  sq <- reads (fun s => board_get (board s) row col) ;;
  ret (piece_eqb sq EMPTY_SQUARE).

Definition _getKingsideCastleMoves (row col : Z) (moves : list Move)
  : M (list Move) :=
  e1 <- board_is_empty row (col + 1) ;;
  if e1 then
    e2 <- board_is_empty row (col + 2) ;;
    if e2 then
      a1 <- squareUnderAttack row (col + 1) ;;
      if negb a1 then
        a2 <- squareUnderAttack row (col + 2) ;;
        if negb a2 then
          reads (fun s => append_move (board s) (row, col) (row, col + 2)
                            false true moves)
        else ret moves
      else ret moves
    else ret moves
  else ret moves.

Definition _getQueensideCastleMoves (row col : Z) (moves : list Move)
  : M (list Move) :=
  e1 <- board_is_empty row (col - 1) ;;
  if e1 then
    e2 <- board_is_empty row (col - 2) ;;
    if e2 then
      e3 <- board_is_empty row (col - 3) ;;
      if e3 then
        a1 <- squareUnderAttack row (col - 1) ;;
        if negb a1 then
          a2 <- squareUnderAttack row (col - 2) ;;
          if negb a2 then
            reads (fun s => append_move (board s) (row, col) (row, col - 2)
                              false true moves)
          else ret moves
        else ret moves
      else ret moves
    else ret moves
  else ret moves.

Definition getCastleMoves (row col : Z) (moves : list Move) : M (list Move) :=
  attacked <- squareUnderAttack row col ;;
  if attacked then ret moves
  else
    ks <- reads (fun s => match rights s with
                          | Some cr => Some (if white_to_move s then wks cr
                                             else bks cr)
                          | None => None
                          end) ;;
    moves1 <- (if ks then _getKingsideCastleMoves row col moves
               else ret moves) ;;
    qs <- reads (fun s => match rights s with
                          | Some cr => Some (if white_to_move s then wqs cr
                                             else bqs cr)
                          | None => None
                          end) ;;
    if qs then _getQueensideCastleMoves row col moves1 else ret moves1.

(** ** [ChessEngine.py]: the legal move filter *)

(** The loop that builds [valid_squares] for a check along a ray. *)
Fixpoint valid_squares_loop (king_row king_col : Z) (check : Quad)
  (dists : list Z) (valid_squares : list Square) : list Square :=
  match dists with
  | [] => valid_squares
  | i :: rest =>
    match check with
    | (check_row, check_col, d0, d1) =>
      let valid_square := (king_row + d0 * i, king_col + d1 * i) in
      let valid_squares' := valid_squares ++ [valid_square] in
      if square_eqb valid_square (check_row, check_col) then valid_squares'
      else valid_squares_loop king_row king_col check rest valid_squares'
    end
  end.

(** The loop [for i in range(len(moves) - 1, -1, -1)] that removes the
    moves which neither block nor capture; [idxs] is that range, fixed
    when the loop starts, and [moves] the list being shortened. *)
Fixpoint remove_loop (valid_squares : list Square) (idxs : list Z)
  (moves : list Move) : option (list Move) :=
  match idxs with
  | [] => Some moves
  | i :: rest =>
    match Py.get moves i with
    | None => None
    | Some m =>
      if negb (Ascii.eqb (snd (piece_moved m)) KING) then
        if negb (existsb (square_eqb (end_row m, end_col m)) valid_squares)
        then
          match Py.remove Move_eqb m moves with
          | Some moves' => remove_loop valid_squares rest moves'
          | None => None
          end
        else remove_loop valid_squares rest moves
      else remove_loop valid_squares rest moves
    end
  end.

(** The branch [if len(self.checks) == 1] once [getAllPossibleMoves] has
    returned: everything it reads comes from the state as it is then. *)
Definition single_check_filter (king_row king_col : Z) (moves : list Move)
  (s : GameState) : option (list Move) :=
  match Py.get (checks s) 0 with
  | None => None
  | Some check =>
    match check with
    | (check_row, check_col, _, _) =>
      match board_get (board s) check_row check_col with
      | None => None
      | Some piece_checking =>
        let valid_squares :=
          if Ascii.eqb (snd piece_checking) KNIGHT
          then [(check_row, check_col)]
          else valid_squares_loop king_row king_col check (Py.range 1 8) []
        in
        remove_loop valid_squares
          (Py.range_down (Z.of_nat (length moves) - 1) (-1)) moves
      end
    end
  end.

(** The part of [getValidMoves] that produces the list [moves]. *)
Definition generate_moves : M (list Move) :=
  checkForPinsAndChecks ;;;
  king <- reads (fun s => Some (if white_to_move s then white_king_location s
                                else black_king_location s)) ;;
  let king_row := fst king in
  let king_col := snd king in
  chk <- reads (fun s => Some (in_check s)) ;;
  if chk then
    n <- reads (fun s => Some (length (checks s))) ;;
    if Nat.eqb n 1 then
      moves <- getAllPossibleMoves ;;
      reads (single_check_filter king_row king_col moves)
    else getKingMoves king_row king_col []
  else
    moves <- getAllPossibleMoves ;;
    k <- reads (fun s => Some (if white_to_move s then white_king_location s
                               else black_king_location s)) ;;
    getCastleMoves (fst k) (snd k) moves.

(** The part of [getValidMoves] under "Determine game status". *)
Definition game_status (moves : list Move) : M unit :=
  match moves with
  | [] =>
    attacked <- inCheck ;;
    if attacked
    then modify (fun s => set_flags s true (stalemate s))
    else modify (fun s => set_flags s (checkmate s) true)
  | _ :: _ => modify (fun s => set_flags s false false)
  end.

Definition getValidMoves : M (list Move) :=
  temp_castle_rights <- reads rights ;;
  moves <- generate_moves ;;
  game_status moves ;;;
  modify (fun s => set_castling s (Own temp_castle_rights)
                     (castle_rights_log s)) ;;;
  ret moves.

(** ** [ChessEngine.py]: make and undo *)

Definition updateCastleRights_on (move : Move) (cr : CastleRights)
  : CastleRights :=
  let cr1 :=
    if piece_eqb (piece_captured move) (WHITE_COLOR, ROOK) then
      if end_col move =? 0 then mkCastleRights (wks cr) (bks cr) false (bqs cr)
      else if end_col move =? 7
           then mkCastleRights false (bks cr) (wqs cr) (bqs cr)
           else cr
    else if piece_eqb (piece_captured move) (BLACK_COLOR, ROOK) then
      if end_col move =? 0 then mkCastleRights (wks cr) (bks cr) (wqs cr) false
      else if end_col move =? 7
           then mkCastleRights (wks cr) false (wqs cr) (bqs cr)
           else cr
    else cr in
  if piece_eqb (piece_moved move) (WHITE_COLOR, KING) then
    mkCastleRights false (bks cr1) false (bqs cr1)
  else if piece_eqb (piece_moved move) (BLACK_COLOR, KING) then
    mkCastleRights (wks cr1) false (wqs cr1) false
  else if piece_eqb (piece_moved move) (WHITE_COLOR, ROOK) then
    if start_row move =? 7 then
      if start_col move =? 0
      then mkCastleRights (wks cr1) (bks cr1) false (bqs cr1)
      else if start_col move =? 7
           then mkCastleRights false (bks cr1) (wqs cr1) (bqs cr1)
           else cr1
    else cr1
  else if piece_eqb (piece_moved move) (BLACK_COLOR, ROOK) then
    if start_row move =? 0 then
      if start_col move =? 0
      then mkCastleRights (wks cr1) (bks cr1) (wqs cr1) false
      else if start_col move =? 7
           then mkCastleRights (wks cr1) false (wqs cr1) (bqs cr1)
           else cr1
    else cr1
  else cr1.

(** [GameState.updateCastleRights]: the assignments go to the attributes
    of the object [self.current_castling_rights] refers to. *)
Definition updateCastleRights (move : Move) : M unit :=
  cr <- reads rights ;;
  modify (fun s => write_rights s (updateCastleRights_on move cr)).

Definition write_board (row col : Z) (v : Piece) : M unit :=
  fun s => match board_set (board s) row col v with
           | Some b' => Some (tt, set_board s b')
           | None => None
           end.

Definition read_board (row col : Z) : M Piece :=
  reads (fun s => board_get (board s) row col).

Definition rook_hop (row from_col to_col : Z) : M unit :=
  v <- read_board row from_col ;;
  write_board row to_col v ;;;
  write_board row from_col EMPTY_SQUARE.

Definition makeMove (move : Move) : M unit :=
  write_board (start_row move) (start_col move) EMPTY_SQUARE ;;;
  write_board (end_row move) (end_col move) (piece_moved move) ;;;
  modify (fun s => set_move_log s (move_log s ++ [move])) ;;;
  flip_turn ;;;
  (if piece_eqb (piece_moved move) (WHITE_COLOR, KING)
   then modify (fun s => set_white_king_location s
                           (end_row move, end_col move))
   else if piece_eqb (piece_moved move) (BLACK_COLOR, KING)
   then modify (fun s => set_black_king_location s
                           (end_row move, end_col move))
   else ret tt) ;;;
  (if is_pawn_promotion move
   then write_board (end_row move) (end_col move)
          (fst (piece_moved move), QUEEN)
   else ret tt) ;;;
  (if is_enpassant_move move
   then write_board (start_row move) (end_col move) EMPTY_SQUARE
   else ret tt) ;;;
  let ep :=
    if Ascii.eqb (snd (piece_moved move)) PAWN
       && (Z.abs (start_row move - end_row move) =? 2)
    then Some ((start_row move + end_row move) / 2, start_col move)
    else None in
  modify (fun s => set_enpassant s ep (enpassant_possible_log s)) ;;;
  (if is_castle_move move then
     if end_col move - start_col move =? 2
     then rook_hop (end_row move) (end_col move + 1) (end_col move - 1)
     else rook_hop (end_row move) (end_col move - 2) (end_col move + 1)
   else ret tt) ;;;
  modify (fun s => set_enpassant s (enpassant_possible s)
                     (enpassant_possible_log s ++ [enpassant_possible s])) ;;;
  updateCastleRights move ;;;
  cr <- reads rights ;;
  modify (fun s => set_castling s (current_castling_rights s)
                     (castle_rights_log s ++ [cr])).

(** The two statements of [undoMove] that pop [castle_rights_log] and
    rebind [current_castling_rights] to its new last object. *)
Definition restore_castle_rights : M unit :=
  crlog <- reads (fun s => match Py.pop (castle_rights_log s) with
                           | Some (_, l) => Some l
                           | None => None
                           end) ;;
  match crlog with
  | [] => fun _ => None
  | _ :: _ =>
      modify (fun s => set_castling s (LogCell (length crlog - 1)) crlog)
  end.

(** [undoMove] after [move = self.move_log.pop()]; [log'] is the
    history that is left. *)
Definition undo_popped (move : Move) (log' : list Move) : M unit :=
  modify (fun s => set_move_log s log') ;;;
  write_board (start_row move) (start_col move) (piece_moved move) ;;;
  write_board (end_row move) (end_col move) (piece_captured move) ;;;
  flip_turn ;;;
  (if piece_eqb (piece_moved move) (WHITE_COLOR, KING)
   then modify (fun s => set_white_king_location s
                           (start_row move, start_col move))
   else if piece_eqb (piece_moved move) (BLACK_COLOR, KING)
   then modify (fun s => set_black_king_location s
                           (start_row move, start_col move))
   else ret tt) ;;;
  (if is_enpassant_move move then
     write_board (end_row move) (end_col move) EMPTY_SQUARE ;;;
     write_board (start_row move) (end_col move) (piece_captured move)
   else ret tt) ;;;
  eplog <- reads (fun s => match Py.pop (enpassant_possible_log s) with
                           | Some (_, l) => Some l
                           | None => None
                           end) ;;
  ep <- lift (Py.last eplog) ;;
  modify (fun s => set_enpassant s ep eplog) ;;;
  restore_castle_rights ;;;
  (if is_castle_move move then
     if end_col move - start_col move =? 2
     then rook_hop (end_row move) (end_col move - 1) (end_col move + 1)
     else rook_hop (end_row move) (end_col move + 1) (end_col move - 2)
   else ret tt) ;;;
  modify (fun s => set_flags s false false).

Definition undoMove : M unit :=
  fun s =>
    match Py.pop (move_log s) with
    | None => Some (tt, s)
    | Some (move, log') => undo_popped move log' s
    end.

(** ** The initial position ([GameState.__init__]) *)

Definition back_rank (c : ascii) : list Piece :=
  [(c, ROOK); (c, KNIGHT); (c, BISHOP); (c, QUEEN); (c, KING); (c, BISHOP);
   (c, KNIGHT); (c, ROOK)].

Definition empty_row : list Piece := repeat EMPTY_SQUARE 8.

(** Modelled from the spec: [constants.INITIAL_BOARD], [WHITE_KING_START]
    and [BLACK_KING_START] are not among the sources; the spec fixes "the
    standard layout", and the row convention (row 0 is black's back rank,
    row 7 white's) is the one [move.py] and [updateCastleRights] use. *)
Definition INITIAL_BOARD : Board :=
  [back_rank BLACK_COLOR; repeat (BLACK_COLOR, PAWN) 8; empty_row; empty_row;
   empty_row; empty_row; repeat (WHITE_COLOR, PAWN) 8; back_rank WHITE_COLOR].

Definition WHITE_KING_START : Square := (7, 4).
Definition BLACK_KING_START : Square := (0, 4).

Definition GameState_init : GameState :=
  mkGameState INITIAL_BOARD true [] WHITE_KING_START BLACK_KING_START
    false false false [] [] None [None]
    (Own (mkCastleRights true true true true))
    [mkCastleRights true true true true].

(** ** [evaluation.py] and [ChessAI.py]

    [constants.py] is not among the sources: the search depth, the two
    sentinel scores and the two evaluation tables are parameters.  Scores
    are integers; the search only negates and compares them. *)

Section Search.

Variable AI_DEPTH : nat.
Variable CHECKMATE_SCORE : Z.
Variable STALEMATE_SCORE : Z.

(** [PIECE_VALUES[kind]] and [PIECE_POSITION_SCORES[piece][row][col]];
    [None] is a missing key or an index out of range. *)
Variable PIECE_VALUES : ascii -> option Z.
Variable PIECE_POSITION_SCORES : Piece -> Z -> Z -> option Z.

Local Open Scope o_scope.

(** The inner loop [for col in range(len(game_state.board[row]))]. *)
Fixpoint score_row (row : Z) (pieces : list Piece) (col : Z) (score : Z)
  : option Z :=
  match pieces with
  | [] => Some score
  | piece :: rest =>
    if negb (piece_eqb piece EMPTY_SQUARE) then
      piece_value <-- PIECE_VALUES (snd piece) ;;
      piece_position_score <--
        (if negb (Ascii.eqb (snd piece) "K")
         then PIECE_POSITION_SCORES piece row col
         else Some 0) ;;
      let total_piece_value := piece_value + piece_position_score in
      score_row row rest (col + 1)
        (if Ascii.eqb (fst piece) "w" then score + total_piece_value
         else score - total_piece_value)
    else score_row row rest (col + 1) score
  end.

(** The outer loop [for row in range(len(game_state.board))]. *)
Fixpoint score_rows (rows : list (list Piece)) (row : Z) (score : Z)
  : option Z :=
  match rows with
  | [] => Some score
  | pieces :: rest =>
    score' <-- score_row row pieces 0 score ;;
    score_rows rest (row + 1) score'
  end.

Definition scoreBoard (s : GameState) : option Z :=
  if checkmate s then
    if white_to_move s then Some (- CHECKMATE_SCORE)
    else Some CHECKMATE_SCORE
  else if stalemate s then Some STALEMATE_SCORE
  else score_rows (board s) 0 0.

Local Close Scope o_scope.

(** The result of a search call: the returned score and the value of
    the global [next_move] when the call returns. *)
Definition Found : Type := (Z * option Move)%type.

(** The loop [for move in valid_moves] of [findMoveNegaMaxAlphaBeta];
    [rec] is the recursive call at [depth - 1] and [at_root] the test
    [depth == AI_DEPTH]. *)
Fixpoint search_loop
  (rec : list Move -> Z -> Z -> Z -> option Move -> M Found)
  (at_root : bool) (valid_moves : list Move)
  (max_score alpha beta turn_multiplier : Z) (next_move : option Move)
  : M Found :=
  match valid_moves with
  | [] => ret (max_score, next_move)
  | move :: rest =>
    makeMove move ;;;
    next_moves <- getValidMoves ;;
    r <- rec next_moves (- beta) (- alpha) (- turn_multiplier) next_move ;;
    let score := - fst r in
    let max_score' := if score >? max_score then score else max_score in
    let next_move' :=
      if score >? max_score
      then (if at_root then Some move else snd r)
      else snd r in
    undoMove ;;;
    let alpha' := if max_score' >? alpha then max_score' else alpha in
    if alpha' >=? beta then ret (max_score', next_move')
    else search_loop rec at_root rest max_score' alpha' beta turn_multiplier
           next_move'
  end.

Fixpoint findMoveNegaMaxAlphaBeta (depth : nat) (valid_moves : list Move)
  (alpha beta turn_multiplier : Z) (next_move : option Move) : M Found :=
  match depth with
  | O =>
    score <- reads scoreBoard ;;
    ret (turn_multiplier * score, next_move)
  | S d =>
    search_loop (findMoveNegaMaxAlphaBeta d) (Nat.eqb depth AI_DEPTH)
      valid_moves (- CHECKMATE_SCORE) alpha beta turn_multiplier next_move
  end.

(** [findBestMove]; [shuffled] is the order [random.shuffle] leaves
    [valid_moves] in, and the result is the value put on
    [return_queue]. *)
Definition findBestMove (shuffled : list Move) : M (option Move) :=
  wtm <- reads (fun s => Some (white_to_move s)) ;;
  r <- findMoveNegaMaxAlphaBeta AI_DEPTH shuffled (- CHECKMATE_SCORE)
         CHECKMATE_SCORE (if wtm then 1 else -1) None ;;
  ret (snd r).

End Search.

(** ** A full-width search, and positions used in the statements below *)

(** What an undo has to give back: the board, the side to move, the
    history, both king squares, the en-passant square and its log, and
    the log of castling rights below its top entry.  The rights in force
    and the top entry of their log are left out: [undoMove] does not
    restore them exactly. *)
Definition Position : Type :=
  (Board * bool * list Move * Square * Square * option Square
   * list (option Square) * list CastleRights * nat)%type.

Definition position_of (s : GameState) : Position :=
  (board s, white_to_move s, move_log s, white_king_location s,
   black_king_location s, enpassant_possible s, enpassant_possible_log s,
   removelast (castle_rights_log s), length (castle_rights_log s)).

Definition Position_eq_dec (a b : Position) : {a = b} + {a <> b}.
Proof.
  repeat decide equality.
Defined.

(** A computation that stops with an error unless the test holds. *)
Definition guard (b : bool) : M unit :=
  fun s => if b then Some (tt, s) else None.

Section FullWidth.

Variable AI_DEPTH : nat.
Variable CHECKMATE_SCORE : Z.
Variable STALEMATE_SCORE : Z.
Variable PIECE_VALUES : ascii -> option Z.
Variable PIECE_POSITION_SCORES : Piece -> Z -> Z -> option Z.

(** The exhaustive negamax of the specification: every move of every
    node is searched, in the order of the list, with no window; the best
    score starts at the same sentinel and the root records the move of
    every strict improvement.  It is defined where the specification's
    two contracts hold: after each undo the position is the one the move
    was made from (the make/undo stack discipline), and the evaluation
    of a leaf lies within the two sentinels. *)
Fixpoint full_loop
  (rec : list Move -> Z -> option Move -> M Found)
  (at_root : bool) (valid_moves : list Move)
  (max_score turn_multiplier : Z) (next_move : option Move) : M Found :=
  match valid_moves with
  | [] => ret (max_score, next_move)
  | move :: rest =>
    before <- reads (fun s => Some (position_of s)) ;;
    makeMove move ;;;
    next_moves <- getValidMoves ;;
    r <- rec next_moves (- turn_multiplier) next_move ;;
    let score := - fst r in
    let max_score' := if score >? max_score then score else max_score in
    let next_move' :=
      if score >? max_score
      then (if at_root then Some move else snd r)
      else snd r in
    undoMove ;;;
    after <- reads (fun s => Some (position_of s)) ;;
    guard (if Position_eq_dec after before then true else false) ;;;
    full_loop rec at_root rest max_score' turn_multiplier next_move'
  end.

Fixpoint findMoveNegaMax (depth : nat) (valid_moves : list Move)
  (turn_multiplier : Z) (next_move : option Move) : M Found :=
  match depth with
  | O =>
    score <- reads (scoreBoard CHECKMATE_SCORE STALEMATE_SCORE PIECE_VALUES
                      PIECE_POSITION_SCORES) ;;
    guard ((- CHECKMATE_SCORE <=? turn_multiplier * score)
           && (turn_multiplier * score <=? CHECKMATE_SCORE)) ;;;
    ret (turn_multiplier * score, next_move)
  | S d =>
    full_loop (findMoveNegaMax d) (Nat.eqb depth AI_DEPTH) valid_moves
      (- CHECKMATE_SCORE) turn_multiplier next_move
  end.

End FullWidth.

(** Running a computation for its result, or for its final state. *)
Definition result_of {A : Type} (c : M A) (s : GameState) : option A :=
  match c s with
  | Some (a, _) => Some a
  | None => None
  end.

Definition state_after {A : Type} (c : M A) (s : GameState)
  : option GameState :=
  match c s with
  | Some (_, s') => Some s'
  | None => None
  end.

Definition empty_board : Board := repeat empty_row 8.

Fixpoint place (b : Board) (l : list (Z * Z * Piece)) : Board :=
  match l with
  | [] => b
  | (r, c, p) :: t =>
    match board_set b r c p with
    | Some b' => place b' t
    | None => b
    end
  end.

Definition no_rights : CastleRights := mkCastleRights false false false false.

(** A position given by its pieces, the side to move, the two king
    squares and the en-passant square, with no castling rights, an empty
    history and all derived fields cleared. *)
Definition position (l : list (Z * Z * Piece)) (wtm : bool)
  (wk bk : Square) (ep : option Square) : GameState :=
  mkGameState (place empty_board l) wtm [] wk bk false false false [] []
    ep [ep] (Own no_rights) [no_rights].

(** White Ke1 and pawn a2, black Ka8 and a knight on f3 giving check. *)
Definition pos_knight_check : GameState :=
  position [(7, 4, ("w", "K")); (6, 0, ("w", "p")); (5, 5, ("b", "N"));
            (0, 0, ("b", "K"))] true (7, 4) (0, 0) None.

(** White Ke4, black Ka8 and a black pawn on d3, one rank below the king
    on this board (black pawns capture towards higher rows). *)
Definition pos_pawn_behind : GameState :=
  position [(4, 4, ("w", "K")); (5, 3, ("b", "p")); (0, 0, ("b", "K"))]
    true (4, 4) (0, 0) None.

(** White Ka5, pawn b5; black pawn c5 has just advanced two squares
    (en-passant square c6), black Rh5, black Kh8. *)
Definition pos_ep_right : GameState :=
  position [(3, 0, ("w", "K")); (3, 1, ("w", "p")); (3, 2, ("b", "p"));
            (3, 7, ("b", "R")); (0, 7, ("b", "K"))]
    true (3, 0) (0, 7) (Some (2, 2)).

(** The same with the two pawns exchanged: white pawn c5 captures to the
    left, en-passant square b6. *)
Definition pos_ep_left : GameState :=
  position [(3, 0, ("w", "K")); (3, 2, ("w", "p")); (3, 1, ("b", "p"));
            (3, 7, ("b", "R")); (0, 7, ("b", "K"))]
    true (3, 0) (0, 7) (Some (2, 1)).

(** White Ka1 alone against black Kb3 and Rh8: the only legal move is
    Kb1, answered by Rh1 mate. *)
Definition pos_lone_king : GameState :=
  position [(7, 0, ("w", "K")); (5, 1, ("b", "K")); (0, 7, ("b", "R"))]
    true (7, 0) (5, 1) None.

(** White Ke1 and Nh1; black Re8 gives check on the e-file, black Bh3
    eyes f1, black Ka8. *)
Definition pos_rook_check : GameState :=
  position [(7, 4, ("w", "K")); (7, 7, ("w", "N")); (0, 4, ("b", "R"));
            (5, 7, ("b", "B")); (0, 0, ("b", "K"))] true (7, 4) (0, 0) None.

(** White Ke1 against black Re8 and Ka8. *)
Definition pos_rook_file : GameState :=
  position [(7, 4, ("w", "K")); (0, 4, ("b", "R")); (0, 0, ("b", "K"))]
    true (7, 4) (0, 0) None.

(** Black Ka8 to move, stalemated by white Qb6 (white Kc1); the
    [checkmate] flag is still set from an earlier query. *)
Definition pos_stale_flag : GameState :=
  set_flags
    (position [(0, 0, ("b", "K")); (2, 1, ("w", "Q")); (7, 2, ("w", "K"))]
       false (7, 2) (0, 0) None)
    true false.

(** White Ke6 and Ra1 against black Ke8 and Rh2: Ra8 is mate; after the
    quiet Rb1 black can check with Re2. *)
Definition pos_back_rank : GameState :=
  position [(2, 4, ("w", "K")); (7, 0, ("w", "R")); (0, 4, ("b", "K"));
            (6, 7, ("b", "R"))] true (2, 4) (0, 4) None.

(** A move of the piece on [from] to [to] on the board of the state. *)
Definition move_of (s : GameState) (from to : Square) : option Move :=
  Move_init from to (board s) false false.

Definition play (from to : Square) : M unit :=
  m <- reads (fun s => move_of s from to) ;;
  makeMove m.

(** After 1. e4 e5, with the legal move filter run after each move as a
    game does, the first candidate 2. Nf3 is made and taken back. *)
Definition after_e4_e5_try_Nf3 : option GameState :=
  state_after
    (getValidMoves ;;; play (6, 4) (4, 4) ;;; getValidMoves ;;;
     play (1, 4) (3, 4) ;;; getValidMoves ;;;
     play (7, 6) (5, 5) ;;; undoMove)
    GameState_init.

(** The tables used when a search is run on an example: material values
    1, 3, 3, 5, 9 and no positional bonus. *)
Definition example_values (k : ascii) : option Z :=
  if Ascii.eqb k KING then Some 0
  else if Ascii.eqb k QUEEN then Some 9
  else if Ascii.eqb k ROOK then Some 5
  else if Ascii.eqb k BISHOP then Some 3
  else if Ascii.eqb k KNIGHT then Some 3
  else if Ascii.eqb k PAWN then Some 1
  else None.

Definition example_position_scores (p : Piece) (r c : Z) : option Z := Some 0.

(** The persisted part of a state: everything but the fields that each
    legality query recomputes. *)
Definition persisted (s : GameState)
  : Board * bool * list Move * Square * Square * option Square
    * list (option Square) * option CastleRights * list CastleRights :=
  (board s, white_to_move s, move_log s, white_king_location s,
   black_king_location s, enpassant_possible s, enpassant_possible_log s,
   rights s, castle_rights_log s).

(** Every king on the board stands on the square recorded for its
    colour. *)
Definition kings_recorded (s : GameState) : Prop :=
  forall r c,
    (board_get (board s) r c = Some (WHITE_COLOR, KING) ->
     on_board r c = true -> white_king_location s = (r, c))
    /\ (board_get (board s) r c = Some (BLACK_COLOR, KING) ->
        on_board r c = true -> black_king_location s = (r, c)).

(** The position after 1. f3 e5 2. g4 Qh4, the legal move filter having
    been run after each of the first three moves. *)
Definition fools_mate : GameState :=
  Eval vm_compute in
    match state_after
            (getValidMoves ;;; play (6, 5) (5, 5) ;;; getValidMoves ;;;
             play (1, 4) (3, 4) ;;; getValidMoves ;;;
             play (6, 6) (4, 6) ;;; getValidMoves ;;;
             play (0, 3) (4, 7))
            GameState_init with
    | Some s => s
    | None => GameState_init
    end.

(** The knight-check position once the legal move filter has run, and
    the moves it returned. *)
Definition knight_check_root : GameState :=
  Eval vm_compute in
    match state_after getValidMoves pos_knight_check with
    | Some s => s
    | None => pos_knight_check
    end.

Definition knight_check_moves : list Move :=
  Eval vm_compute in
    match result_of getValidMoves pos_knight_check with
    | Some l => l
    | None => []
    end.

(** A state with the three fields that [checkForPinsAndChecks]
    overwrites cleared: two states with the same core differ at most in
    [in_check], [pins] and [checks]. *)
Definition core (s : GameState) : GameState :=
  set_detect s (mkDetect false [] []).

(** A computation that, run from a state whose kings are recorded,
    changes at most [in_check], [pins] and [checks]. *)
Definition frames {A : Type} (c : M A) : Prop :=
  forall s a s', kings_recorded s -> c s = Some (a, s') -> core s' = core s.

(** The king square the state records for a colour. *)
Definition king_location_of (ally_color : ascii) (s : GameState) : Square :=
  if Ascii.eqb ally_color "w" then white_king_location s
  else black_king_location s.

(** A computation that never changes what [f] reads from the state. *)
Definition keeps {A X : Type} (f : GameState -> X) (c : M A) : Prop :=
  forall s a s', c s = Some (a, s') -> f s' = f s.

(** The two terminal flags. *)
Definition flags (s : GameState) : bool * bool := (checkmate s, stalemate s).

(** [kings_recorded] as a test. *)
Definition kings_recorded_b (s : GameState) : bool :=
  forallb
    (fun sq : Square =>
       match board_get (board s) (fst sq) (snd sq) with
       | Some p =>
           (if piece_eqb p (WHITE_COLOR, KING)
            then square_eqb (white_king_location s) sq else true)
           && (if piece_eqb p (BLACK_COLOR, KING)
               then square_eqb (black_king_location s) sq else true)
       | None => true
       end) all_squares.

(** Two ways a computation can be insensitive to a change [g] of the
    state it starts from: it runs as before and the change is still
    there at the end ([follows]), or it runs as before and ends in the
    very same state ([absorbs]). *)
Definition follows {A : Type} (g : GameState -> GameState) (c : M A) : Prop :=
  forall s x s', c s = Some (x, s') -> c (g s) = Some (x, g s').

Definition absorbs {A : Type} (g : GameState -> GameState) (c : M A) : Prop :=
  forall s x s', c s = Some (x, s') -> c (g s) = Some (x, s').

Definition with_detect (d : Detect) (s : GameState) : GameState :=
  set_detect s d.

Definition with_flags (cm sm : bool) (s : GameState) : GameState :=
  set_flags s cm sm.

(** Another current rights object and another value in the top cell of
    the log. *)
Definition with_rights (cur : CRRef) (top : CastleRights) (s : GameState)
  : GameState :=
  set_castling s cur
    (match castle_rights_log s with
     | [] => []
     | _ :: _ => removelast (castle_rights_log s) ++ [top]
     end).

(** What a fail-soft search with window [(alpha, beta)] may return for
    a node whose full-width value is [v]: the value itself inside the
    window, a bound on the same side outside it. *)
Definition fail_soft (alpha beta v r : Z) : Prop :=
  (v <= alpha -> v <= r <= alpha)
  /\ (alpha < v < beta -> r = v)
  /\ (beta <= v -> beta <= r <= v).

(** What the loops of the two searches need from the recursive calls
    one ply deeper: run from states with the same core, within a window
    inside the sentinels, the pruned search returns what a fail-soft
    search may return, neither touches [next_move], and both end in the
    same position. *)
Definition refines (CM : Z)
  (reca : list Move -> Z -> Z -> Z -> option Move -> M Found)
  (recf : list Move -> Z -> option Move -> M Found) : Prop :=
  forall moves alpha beta tm nm a f v nmf f',
    core a = core f ->
    - CM <= alpha -> alpha < beta -> beta <= CM ->
    recf moves tm nm f = Some ((v, nmf), f') ->
    nmf = nm /\ - CM <= v <= CM /\ position_of f' = position_of f
    /\ exists r a',
         reca moves alpha beta tm nm a = Some ((r, nm), a')
         /\ fail_soft alpha beta v r
         /\ position_of a' = position_of f'.

(** ** [move.py]: notation *)

(** A Python string, as the list of its characters. *)
Definition Str : Type := list ascii.

(** A Python dictionary, as the list of its items. *)
Module Dict.

(** [d[k]]; a missing key raises [KeyError]. *)
Fixpoint get {K V : Type} (eqb : K -> K -> bool) (d : list (K * V)) (k : K)
  : option V :=
  match d with
  | [] => None
  | (k', v) :: rest => if eqb k' k then Some v else get eqb rest k
  end.

(** [d[k] = v]: the value of an existing key is replaced, a new key is
    put last. *)
Fixpoint set {K V : Type} (eqb : K -> K -> bool) (d : list (K * V)) (k : K)
  (v : V) : list (K * V) :=
  match d with
  | [] => [(k, v)]
  | (k', v') :: rest =>
      if eqb k' k then (k', v) :: rest else (k', v') :: set eqb rest k v
  end.

(** [{v: k for k, v in d.items()}] *)
Definition inverted {K V : Type} (eqb : V -> V -> bool) (d : list (K * V))
  : list (V * K) :=
  fold_left (fun acc kv => set eqb acc (snd kv) (fst kv)) d [].

End Dict.

Definition ranks_to_rows : list (ascii * Z) :=
  [("1", 7); ("2", 6); ("3", 5); ("4", 4); ("5", 3); ("6", 2); ("7", 1);
   ("8", 0)].

Definition rows_to_ranks : list (Z * ascii) :=
  Dict.inverted Z.eqb ranks_to_rows.

Definition files_to_cols : list (ascii * Z) :=
  [("a", 0); ("b", 1); ("c", 2); ("d", 3); ("e", 4); ("f", 5); ("g", 6);
   ("h", 7)].

Definition cols_to_files : list (Z * ascii) :=
  Dict.inverted Z.eqb files_to_cols.

(** [Move.getRankFile] *)
Definition getRankFile (row col : Z) : option Str :=
  match Dict.get Z.eqb cols_to_files col with
  | None => None
  | Some file =>
    match Dict.get Z.eqb rows_to_ranks row with
    | None => None
    | Some rank => Some [file; rank]
    end
  end.

(** [s[0]] *)
Definition first_char (s : Str) : option Str :=
  match s with
  | [] => None
  | c :: _ => Some [c]
  end.

(** [Move.getChessNotation] *)
Definition getChessNotation (m : Move) : option Str :=
  if is_pawn_promotion m then
    match getRankFile (end_row m) (end_col m) with
    | Some e => Some (e ++ ["Q"])
    | None => None
    end
  else if is_castle_move m then
    if end_col m =? 1 then Some ["0"; "-"; "0"; "-"; "0"]
    else Some ["0"; "-"; "0"]
  else if is_enpassant_move m then
    match getRankFile (start_row m) (start_col m) with
    | None => None
    | Some st =>
      match first_char st with
      | None => None
      | Some f =>
        match getRankFile (end_row m) (end_col m) with
        | None => None
        | Some e => Some (f ++ ["x"] ++ e ++ [" "; "e"; "."; "p"; "."])
        end
      end
    end
  else if negb (piece_eqb (piece_captured m) ("-", "-")) then
    if Ascii.eqb (snd (piece_moved m)) "p" then
      match getRankFile (start_row m) (start_col m) with
      | None => None
      | Some st =>
        match first_char st with
        | None => None
        | Some f =>
          match getRankFile (end_row m) (end_col m) with
          | None => None
          | Some e => Some (f ++ ["x"] ++ e)
          end
        end
      end
    else
      match getRankFile (end_row m) (end_col m) with
      | None => None
      | Some e => Some ([snd (piece_moved m)] ++ ["x"] ++ e)
      end
  else
    if Ascii.eqb (snd (piece_moved m)) "p" then
      getRankFile (end_row m) (end_col m)
    else
      match getRankFile (end_row m) (end_col m) with
      | None => None
      | Some e => Some ([snd (piece_moved m)] ++ e)
      end.

(** [Move.__str__] *)
Definition Move_str (m : Move) : option Str :=
  if is_castle_move m then
    if end_col m =? 6 then Some ["0"; "-"; "0"]
    else Some ["0"; "-"; "0"; "-"; "0"]
  else
    match getRankFile (end_row m) (end_col m) with
    | None => None
    | Some end_square =>
      if Ascii.eqb (snd (piece_moved m)) "p" then
        if is_capture m then
          match Dict.get Z.eqb cols_to_files (start_col m) with
          | None => None
          | Some f => Some ([f] ++ ["x"] ++ end_square)
          end
        else if is_pawn_promotion m then Some (end_square ++ ["Q"])
        else Some end_square
      else
        let move_string := [snd (piece_moved m)] in
        let move_string := if is_capture m then move_string ++ ["x"]
                           else move_string in
        Some (move_string ++ end_square)
    end.

(** ** Invariants of the game state *)

(** The three stacks of the state move together: the two logs hold one
    entry for the position before any move and one more for each move
    of the history. *)
Definition logs_in_step (s : GameState) : Prop :=
  length (enpassant_possible_log s) = S (length (move_log s))
  /\ length (castle_rights_log s) = S (length (move_log s)).

(** No right of [b] that [a] does not have. *)
Definition no_more_rights (a b : CastleRights) : Prop :=
  (wks b = true -> wks a = true) /\ (bks b = true -> bks a = true)
  /\ (wqs b = true -> wqs a = true) /\ (bqs b = true -> bqs a = true).

(** ** Board cells by natural indices *)

(** The cell [(R, C)] of a board, and the board with that cell
    overwritten; both leave a board without such a cell alone. *)
Definition cell (b : Board) (R C : nat) : option Piece :=
  match nth_error b R with
  | Some row => nth_error row C
  | None => None
  end.

Definition put (b : Board) (R C : nat) (v : Piece) : Board :=
  match nth_error b R with
  | Some row => Py.set_nth b R (Py.set_nth row C v)
  | None => b
  end.

(** The two board assignments of a castling rook, in [makeMove] and in
    [undoMove]: the piece on [(row, from_col)] is copied to
    [(row, to_col)] and its square emptied. *)
Definition board_hop (b : Board) (row from_col to_col : Z) : option Board :=
  match board_get b row from_col with
  | Some v =>
    match board_set b row to_col v with
    | Some b' => board_set b' row from_col EMPTY_SQUARE
    | None => None
    end
  | None => None
  end.

(** ** Lists of moves that only grow *)

(** [moves'] is [moves] followed by moves built by [Move.__init__] from
    the square [(row, col)] on the board [b]. *)
Definition grows (b : Board) (row col : Z) (moves moves' : list Move) : Prop :=
  exists extra,
    moves' = moves ++ extra
    /\ forall m, In m extra ->
         exists en ep ca, Move_init (row, col) en b ep ca = Some m.

(** ** The two kinds of pawn move *)

(** A capture by the pawn on [(row, col)] towards column [col + side]:
    of a piece of the other side standing there, or en passant onto the
    en-passant square of the state, the captured piece being recorded as
    [Move.__init__] does for en-passant moves. *)
Definition pawn_captures (s : GameState) (row col side : Z) (m : Move)
  : Prop :=
  let step := if white_to_move s then -1 else 1 in
  start_row m = row /\ start_col m = col
  /\ end_row m = row + step /\ end_col m = col + side
  /\ ((is_enpassant_move m = false
       /\ board_get (board s) (end_row m) (end_col m)
          = Some (piece_captured m)
       /\ fst (piece_captured m) = (if white_to_move s then "b" else "w"))
      \/ (is_enpassant_move m = true
          /\ enpassant_possible s = Some (end_row m, end_col m)
          /\ board_get (board s) row col = Some (piece_moved m)
          /\ piece_captured m
             = (if piece_eqb (piece_moved m) ("b", "p") then ("w", "p")
                else ("b", "p")))).

(** An advance of that pawn: straight ahead onto an empty square, by one
    row, or by two from the pawn's starting row. *)
Definition pawn_advances (s : GameState) (row col : Z) (m : Move) : Prop :=
  let step := if white_to_move s then -1 else 1 in
  start_row m = row /\ start_col m = col /\ end_col m = col
  /\ is_enpassant_move m = false
  /\ piece_captured m = EMPTY_SQUARE
  /\ board_get (board s) (row + step) col = Some EMPTY_SQUARE
  /\ (end_row m = row + step
      \/ (end_row m = row + 2 * step
          /\ row = (if white_to_move s then 6 else 1))).

(** ** [evaluation.py]: the value of one piece *)

Section Evaluate.

Variable PIECE_VALUES : ascii -> option Z.
Variable PIECE_POSITION_SCORES : Piece -> Z -> Z -> option Z.

(** [evaluatePiece]; [PIECE_VALUES.get(piece[1], 0)] does not raise on a
    missing key. *)
Definition evaluatePiece (piece : Piece) (row col : Z) : option Z :=
  if piece_eqb piece EMPTY_SQUARE then Some 0
  else
    let material_value :=
      match PIECE_VALUES (snd piece) with
      | Some v => v
      | None => 0
      end in
    match (if negb (Ascii.eqb (snd piece) "K")
           then PIECE_POSITION_SCORES piece row col
           else Some 0) with
    | Some position_value => Some (material_value + position_value)
    | None => None
    end.

(** The values of the pieces of a row, and of a board, white's counted
    positively and all others negatively. *)
Fixpoint signed_row (row : Z) (pieces : list Piece) (col : Z) : option Z :=
  match pieces with
  | [] => Some 0
  | piece :: rest =>
    match evaluatePiece piece row col, signed_row row rest (col + 1) with
    | Some v, Some r =>
        Some ((if Ascii.eqb (fst piece) "w" then v else - v) + r)
    | _, _ => None
    end
  end.

Fixpoint signed_rows (rows : list (list Piece)) (row : Z) : option Z :=
  match rows with
  | [] => Some 0
  | pieces :: rest =>
    match signed_row row pieces 0, signed_rows rest (row + 1) with
    | Some v, Some r => Some (v + r)
    | _, _ => None
    end
  end.

End Evaluate.

(** * Properties *)

(** ** The detector *)

(** The flag returned by the detector is the one the eight rays leave:
    the knight probe cannot change it. *)
Lemma detect_in_check_from_rays (b : Board) (wtm : bool) (wk bk : Square)
  (d : Detect) :
  detect b wtm wk bk = Some d ->
  exists acc,
    scan_rays b (if wtm then "w" else "b") (if wtm then "b" else "w")
      (if wtm then fst wk else fst bk) (if wtm then snd wk else snd bk)
      0 directions (mkDetect false [] []) = Some acc
    /\ d_in_check d = d_in_check acc.
Proof.
  unfold detect. intros H.
  destruct (scan_rays _ _ _ _ _ _ _ _) as [acc|] eqn:E; [|discriminate].
  exists acc. split; [reflexivity|].
  destruct (_checkForKnightChecks _ _ _ _ _ _); [|discriminate].
  injection H as <-. reflexivity.
Qed.

Lemma knight_loop_keeps (b : Board) (sr sc : Z) (enemy : ascii)
  (offs : list (Z * Z)) :
  forall checks ic ic' checks' q,
    knight_loop b sr sc enemy offs checks ic = Some (ic', checks') ->
    In q checks -> In q checks'.
Proof.
  induction offs as [|off rest IH]; simpl; intros checks ic ic' checks' q H Hq.
  - injection H as _ <-. exact Hq.
  - destruct (on_board _ _); [|eauto].
    destruct (board_get _ _ _) as [p|]; [|discriminate].
    destruct (_ && _); [|eauto].
    eapply IH; [exact H|]. apply in_or_app. left. exact Hq.
Qed.

(** An enemy knight on a knight-offset square of the king is entered in
    the list of checks, tagged with the offset. *)
Lemma knight_loop_records (b : Board) (sr sc : Z) (enemy : ascii)
  (offs : list (Z * Z)) :
  forall checks ic ic' checks' off,
    knight_loop b sr sc enemy offs checks ic = Some (ic', checks') ->
    In off offs ->
    on_board (sr + fst off) (sc + snd off) = true ->
    board_get b (sr + fst off) (sc + snd off) = Some (enemy, "N") ->
    In (sr + fst off, sc + snd off, fst off, snd off) checks'.
Proof.
  induction offs as [|o rest IH]; simpl;
    intros checks ic ic' checks' off H Hin Hon Hb; [contradiction|].
  destruct Hin as [->|Hin].
  - rewrite Hon, Hb in H. simpl in H.
    rewrite Ascii.eqb_refl in H. simpl in H.
    eapply knight_loop_keeps; [exact H|].
    apply in_or_app. right. left. reflexivity.
  - destruct (on_board (sr + fst o) (sc + snd o)); [|eauto].
    destruct (board_get b (sr + fst o) (sc + snd o)) as [p|]; [|discriminate].
    destruct (_ && _); eauto.
Qed.

Lemma detect_records_knight (s : GameState) (d : Detect) (off : Z * Z) :
  let king := if white_to_move s then white_king_location s
              else black_king_location s in
  let enemy_color := if white_to_move s then "b" else "w" in
  detect (board s) (white_to_move s) (white_king_location s)
    (black_king_location s) = Some d ->
  In off knight_moves ->
  on_board (fst king + fst off) (snd king + snd off) = true ->
  board_get (board s) (fst king + fst off) (snd king + snd off)
  = Some (enemy_color, "N") ->
  In (fst king + fst off, snd king + snd off, fst off, snd off) (d_checks d).
Proof.
  intros king enemy_color H Hin Hon Hb. unfold detect in H.
  destruct (scan_rays _ _ _ _ _ _ _ _) as [acc|]; [|discriminate].
  unfold _checkForKnightChecks in H.
  destruct (knight_loop _ _ _ _ _ _ _) as [[ic checks']|] eqn:E;
    [|discriminate].
  injection H as <-. simpl.
  subst king enemy_color.
  destruct (white_to_move s); eapply knight_loop_records; eauto.
Qed.

(** C2: a black knight on f3 attacks the white king on e1; the detector
    enters the knight in its list of checks with the offset (-2, 1) but
    returns [in_check = False], and the wrapper stores that value. *)
Theorem knight_check_leaves_in_check_false :
  board_get (board pos_knight_check) 5 5 = Some ("b", "N")
  /\ white_king_location pos_knight_check = (7, 4)
  /\ In (-2, 1) knight_moves
  /\ detect (board pos_knight_check) (white_to_move pos_knight_check)
       (white_king_location pos_knight_check)
       (black_king_location pos_knight_check)
     = Some (mkDetect false [] [(5, 5, -2, 1)])
  /\ option_map in_check (state_after checkForPinsAndChecks pos_knight_check)
     = Some false.
Proof.
  repeat split; try (vm_compute; reflexivity).
  simpl. tauto.
Qed.

(** C3: a black pawn on d3 does not attack the white king on e4 (it
    captures towards higher rows), yet the attack rule accepts a pawn at
    distance 1 on every diagonal index, and the detector reports a check
    along the downward diagonal (1, -1). *)
Theorem pawn_behind_king_reported_as_check :
  _isValidAttackDirection 6 "p" 1 = true
  /\ _isValidAttackDirection 7 "p" 1 = true
  /\ detect (board pos_pawn_behind) (white_to_move pos_pawn_behind)
       (white_king_location pos_pawn_behind)
       (black_king_location pos_pawn_behind)
     = Some (mkDetect true [] [(5, 3, 1, -1)]).
Proof.
  repeat split; vm_compute; reflexivity.
Qed.

(** The part of the pawn rule that holds: a pawn never registers beyond
    distance 1, nor on an orthogonal ray. *)
Lemma pawn_attack_rule (j i : Z) :
  _isValidAttackDirection j "p" i = true ->
  i = 1 /\ 4 <= j <= 7.
Proof.
  unfold _isValidAttackDirection.
  replace (Ascii.eqb "p" "R") with false by reflexivity.
  replace (Ascii.eqb "p" "B") with false by reflexivity.
  replace (Ascii.eqb "p" "Q") with false by reflexivity.
  replace (Ascii.eqb "p" "p") with true by reflexivity.
  rewrite !andb_false_r, andb_true_r.
  destruct (i =? 1) eqn:Ei; [|simpl; discriminate].
  intros H. split; [apply Z.eqb_eq; exact Ei|].
  repeat (apply orb_true_iff in H; destruct H as [H|H]);
    apply Z.eqb_eq in H; lia.
Qed.

(** ** Make and undo *)

(** C7, as the code has it: with an empty history [undoMove] takes the
    early [return]; nothing is raised and nothing changes. *)
Theorem undoMove_empty_history_is_noop (s : GameState) :
  move_log s = [] -> undoMove s = Some (tt, s).
Proof.
  intros H. unfold undoMove. rewrite H. reflexivity.
Qed.

Lemma undoMove_empty_history_is_noop_witness :
  move_log GameState_init = []
  /\ undoMove GameState_init = Some (tt, GameState_init).
Proof.
  split; [reflexivity|].
  apply (undoMove_empty_history_is_noop GameState_init). reflexivity.
Defined.

(** C7, as stated, fails: on the initial state, whose history is empty,
    [undoMove] raises nothing. *)
Lemma undoMove_empty_history_raises_nothing :
  ~ (forall s : GameState, move_log s = [] -> undoMove s = None).
Proof.
  intros H. specialize (H GameState_init eq_refl). discriminate H.
Qed.

(** C1: in the position after 1. e4 e5, reached once a first candidate
    (2. Nf3) has been made and undone, the king move 2. Ke2 is legal;
    making and undoing it restores the board, the side to move, the
    king squares and the en-passant square, but leaves white without
    castling rights: [undoMove] had made the current rights object the
    very object on top of the log, and [updateCastleRights] wrote into
    it. *)
Theorem makeMove_undoMove_loses_castling_rights :
  exists s m l s',
    after_e4_e5_try_Nf3 = Some s
    /\ move_of s (7, 4) (6, 4) = Some m
    /\ result_of getValidMoves s = Some l
    /\ existsb (Move_eqb m) l = true
    /\ state_after (makeMove m ;;; undoMove) s = Some s'
    /\ rights s = Some (mkCastleRights true true true true)
    /\ rights s' = Some (mkCastleRights false true false true)
    /\ (board s', white_to_move s', white_king_location s',
        black_king_location s', enpassant_possible s')
       = (board s, white_to_move s, white_king_location s,
          black_king_location s, enpassant_possible s).
Proof.
  do 4 eexists.
  split; [vm_compute; reflexivity|].
  split; [vm_compute; reflexivity|].
  split; [vm_compute; reflexivity|].
  split; [vm_compute; reflexivity|].
  split; [vm_compute; reflexivity|].
  split; [vm_compute; reflexivity|].
  split; [vm_compute; reflexivity|].
  vm_compute; reflexivity.
Qed.

(** ** Pawn moves *)

(** C8: white Ka5 and pawn b5, black pawn c5 and rook h5 on the same
    rank.  Capturing en passant to the right removes both pawns from the
    rank and opens it for the rook, yet the move is generated; after it
    the detector, asked for white, reports the rook's check.  The mirror
    image with the capture to the left is suppressed. *)
Theorem en_passant_to_the_right_not_suppressed :
  exists l m s',
    result_of getValidMoves pos_ep_right = Some l
    /\ In m l
    /\ (start_row m, start_col m, end_row m, end_col m) = (3, 1, 2, 2)
    /\ is_enpassant_move m = true
    /\ state_after (makeMove m) pos_ep_right = Some s'
    /\ detect (board s') true (white_king_location s')
         (black_king_location s')
       = Some (mkDetect true [] [(3, 7, 0, 1)])
    /\ option_map (existsb is_enpassant_move)
         (result_of getValidMoves pos_ep_left) = Some false.
Proof.
  do 3 eexists.
  split; [vm_compute; reflexivity|].
  split; [do 3 right; left; reflexivity|].
  split; [reflexivity|].
  split; [reflexivity|].
  split; [vm_compute; reflexivity|].
  split; vm_compute; reflexivity.
Qed.

(** ** The legal move filter under check *)

(** C5: with the black knight on f3 as the only checker, the filter
    returns the pawn move a2-a3, which does not land on f3. *)
Theorem knight_check_pawn_move_returned :
  exists l m,
    option_map d_checks
      (detect (board pos_knight_check) true (7, 4) (0, 0))
    = Some [(5, 5, -2, 1)]
    /\ result_of getValidMoves pos_knight_check = Some l
    /\ In m l
    /\ piece_moved m = ("w", "p")
    /\ (end_row m, end_col m) = (5, 0).
Proof.
  do 2 eexists.
  split; [vm_compute; reflexivity|].
  split; [vm_compute; reflexivity|].
  split; [left; reflexivity|].
  split; reflexivity.
Qed.

(** The king probes of [getKingMoves] store their own detector results
    in the state, so the filter reads [self.checks] of the last probe.
    With a rook checking on the e-file and a bishop eyeing f1, the
    squares it keeps are those of the diagonal from e1 towards the
    bishop, and the knight moves to f2 and g3, which leave the king in
    check, are returned. *)
Lemma rook_check_filter_reads_last_probe :
  option_map d_checks (detect (board pos_rook_check) true (7, 4) (0, 0))
  = Some [(0, 4, -1, 0)]
  /\ option_map checks (state_after getAllPossibleMoves
                          (set_detect pos_rook_check
                             (mkDetect true [] [(0, 4, -1, 0)])))
     = Some [(5, 7, -1, 1)]
  /\ option_map
       (map (fun m => (snd (piece_moved m), end_row m, end_col m)))
       (result_of getValidMoves pos_rook_check)
     = Some [("K", 6, 3); ("K", 6, 5); ("K", 7, 3); ("N", 5, 6);
             ("N", 6, 5)].
Proof.
  split; [vm_compute; reflexivity|].
  split; vm_compute; reflexivity.
Qed.

(** When the last probe sees no check at all, [self.checks[0]] raises
    [IndexError]: the filter does not return. *)
Lemma rook_check_filter_raises :
  option_map d_checks (detect (board pos_rook_file) true (7, 4) (0, 0))
  = Some [(0, 4, -1, 0)]
  /\ getValidMoves pos_rook_file = None.
Proof.
  split; vm_compute; reflexivity.
Qed.

(** ** The search entry point *)

(** C6: white Ka1 against Kb3 and Rh8 has exactly one legal move, Kb1,
    and it loses to Rh1 mate.  Searched two or three plies deep with
    sentinel 1000, the move scores -1000, which is not greater than the
    initial [max_score]; [next_move] is never assigned and
    [findBestMove] puts [None] on the queue. *)
Theorem findBestMove_puts_None :
  exists l,
    result_of getValidMoves pos_lone_king = Some l
    /\ length l = 1%nat
    /\ result_of (getValidMoves ;;;
                  findBestMove 2 1000 0 example_values
                    example_position_scores l) pos_lone_king
       = Some None
    /\ result_of (getValidMoves ;;;
                  findBestMove 3 1000 0 example_values
                    example_position_scores l) pos_lone_king
       = Some None.
Proof.
  eexists.
  split; [vm_compute; reflexivity|].
  split; [reflexivity|].
  split; vm_compute; reflexivity.
Qed.

(** ** What a legality query leaves unchanged *)

Lemma bind_inv {A B : Type} (c : M A) (k : A -> M B) (s s' : GameState)
  (b : B) :
  bind c k s = Some (b, s') ->
  exists a s1, c s = Some (a, s1) /\ k a s1 = Some (b, s').
Proof.
  unfold bind. destruct (c s) as [[a s1]|]; [|discriminate].
  intros H. exists a, s1. split; [reflexivity|exact H].
Qed.

Lemma reads_inv {A : Type} (f : GameState -> option A) (s s' : GameState)
  (a : A) :
  reads f s = Some (a, s') -> s' = s /\ f s = Some a.
Proof.
  unfold reads, lift. destruct (f s); [|discriminate].
  intros H. injection H as -> ->. split; reflexivity.
Qed.

Lemma core_fields (s s' : GameState) :
  core s' = core s ->
  board s' = board s /\ white_to_move s' = white_to_move s
  /\ move_log s' = move_log s
  /\ white_king_location s' = white_king_location s
  /\ black_king_location s' = black_king_location s
  /\ checkmate s' = checkmate s /\ stalemate s' = stalemate s
  /\ enpassant_possible s' = enpassant_possible s
  /\ enpassant_possible_log s' = enpassant_possible_log s
  /\ current_castling_rights s' = current_castling_rights s
  /\ castle_rights_log s' = castle_rights_log s.
Proof.
  intros H.
  pose proof (f_equal board H). pose proof (f_equal white_to_move H).
  pose proof (f_equal move_log H).
  pose proof (f_equal white_king_location H).
  pose proof (f_equal black_king_location H).
  pose proof (f_equal checkmate H). pose proof (f_equal stalemate H).
  pose proof (f_equal enpassant_possible H).
  pose proof (f_equal enpassant_possible_log H).
  pose proof (f_equal current_castling_rights H).
  pose proof (f_equal castle_rights_log H).
  simpl in *. tauto.
Qed.

Lemma core_of_fields (s s' : GameState) :
  board s' = board s -> white_to_move s' = white_to_move s ->
  move_log s' = move_log s ->
  white_king_location s' = white_king_location s ->
  black_king_location s' = black_king_location s ->
  checkmate s' = checkmate s -> stalemate s' = stalemate s ->
  enpassant_possible s' = enpassant_possible s ->
  enpassant_possible_log s' = enpassant_possible_log s ->
  current_castling_rights s' = current_castling_rights s ->
  castle_rights_log s' = castle_rights_log s ->
  core s' = core s.
Proof.
  intros. unfold core, set_detect. congruence.
Qed.

Lemma kings_recorded_core (s s' : GameState) :
  core s' = core s -> kings_recorded s -> kings_recorded s'.
Proof.
  intros H K. apply core_fields in H.
  destruct H as (Hb & _ & _ & Hw & Hk & _).
  unfold kings_recorded in *. rewrite Hb, Hw, Hk. exact K.
Qed.

Lemma frames_ret {A : Type} (a : A) : frames (ret a).
Proof.
  intros s a' s' _ H. injection H as _ <-. reflexivity.
Qed.

Lemma frames_reads {A : Type} (f : GameState -> option A) : frames (reads f).
Proof.
  intros s a s' _ H. apply reads_inv in H. destruct H as [-> _]. reflexivity.
Qed.

Lemma frames_bind {A B : Type} (c : M A) (k : A -> M B) :
  frames c -> (forall a, frames (k a)) -> frames (bind c k).
Proof.
  intros Hc Hk s b s' K H.
  apply bind_inv in H. destruct H as (a & s1 & H1 & H2).
  pose proof (Hc _ _ _ K H1) as E1.
  rewrite <- E1. eapply Hk; [|exact H2].
  eapply kings_recorded_core; eauto.
Qed.

Lemma frames_take_pin (q : bool) (row col : Z) : frames (take_pin q row col).
Proof.
  intros s a s' _ H. unfold take_pin in H.
  destruct (find_pin _ _ _) as [p|].
  - destruct q.
    + destruct (board_get _ _ _) as [pc|]; [|discriminate].
      destruct (negb _).
      * destruct (Py.remove _ _ _); [|discriminate].
        injection H as _ <-. reflexivity.
      * injection H as _ <-. reflexivity.
    + destruct (Py.remove _ _ _); [|discriminate].
      injection H as _ <-. reflexivity.
  - injection H as _ <-. reflexivity.
Qed.

Lemma frames_checkForPinsAndChecks : frames checkForPinsAndChecks.
Proof.
  intros s a s' _ H. unfold checkForPinsAndChecks in H.
  destruct (detect _ _ _ _); [|discriminate].
  injection H as _ <-. reflexivity.
Qed.

Lemma frames_getPawnMoves (row col : Z) (moves : list Move) :
  frames (getPawnMoves row col moves).
Proof.
  apply frames_bind; [apply frames_take_pin|]. intros; apply frames_reads.
Qed.

Lemma frames_getRookMoves (row col : Z) (moves : list Move) :
  frames (getRookMoves row col moves).
Proof.
  apply frames_bind; [apply frames_take_pin|]. intros; apply frames_reads.
Qed.

Lemma frames_getBishopMoves (row col : Z) (moves : list Move) :
  frames (getBishopMoves row col moves).
Proof.
  apply frames_bind; [apply frames_take_pin|]. intros; apply frames_reads.
Qed.

Lemma frames_getKnightMoves (row col : Z) (moves : list Move) :
  frames (getKnightMoves row col moves).
Proof.
  apply frames_bind; [apply frames_take_pin|]. intros; apply frames_reads.
Qed.

Lemma frames_getQueenMoves (row col : Z) (moves : list Move) :
  frames (getQueenMoves row col moves).
Proof.
  apply frames_bind; [apply frames_getRookMoves|].
  intros; apply frames_getBishopMoves.
Qed.

Lemma king_probe_core (ally : ascii) (s : GameState) (sq home : Square)
  (d : Detect) :
  king_location_of ally s = home ->
  let relocate := fun (s : GameState) (sq : Square) =>
    if Ascii.eqb ally "w" then set_white_king_location s sq
    else set_black_king_location s sq in
  let s4 := relocate (set_detect (relocate s sq) d) home in
  core s4 = core s /\ king_location_of ally s4 = home.
Proof.
  unfold king_location_of. intros H. simpl.
  destruct (Ascii.eqb ally "w"); simpl; (split; [|reflexivity]);
    apply core_of_fields; simpl; auto.
Qed.

Lemma king_loop_core (ally : ascii) (row col : Z) (offs : list (Z * Z)) :
  forall moves s l s',
    king_location_of ally s = (row, col) ->
    king_loop ally row col offs moves s = Some (l, s') ->
    core s' = core s.
Proof.
  induction offs as [|off rest IH]; intros moves s l s' Hk H.
  - injection H as _ <-. reflexivity.
  - simpl in H. destruct (on_board _ _); [|eauto].
    apply bind_inv in H. destruct H as (pc & s1 & H1 & H).
    apply reads_inv in H1. destruct H1 as [-> _].
    destruct (negb _); [|eauto].
    apply bind_inv in H. destruct H as ([] & s2 & H2 & H).
    injection H2 as <-.
    apply bind_inv in H. destruct H as (d & s3 & H3 & H).
    unfold checkForPinsAndChecks in H3.
    destruct (detect _ _ _ _) as [d'|]; [|discriminate].
    injection H3 as -> <-.
    apply bind_inv in H. destruct H as (moves' & s4 & H4 & H).
    assert (s4 = set_detect
                   (if Ascii.eqb ally "w"
                    then set_white_king_location s (row + fst off, col + snd off)
                    else set_black_king_location s (row + fst off, col + snd off))
                   d) as ->.
    { destruct (negb (d_in_check d)).
      - apply reads_inv in H4. destruct H4 as [-> _]. reflexivity.
      - injection H4 as _ <-. reflexivity. }
    apply bind_inv in H. destruct H as ([] & s5 & H5 & H).
    injection H5 as <-.
    destruct (king_probe_core ally s (row + fst off, col + snd off) d Hk)
      as [Hc Hl].
    rewrite <- Hc. eapply IH; [|exact H]. exact Hl.
Qed.

Lemma all_squares_on_board :
  Forall (fun sq : Square => on_board (fst sq) (snd sq) = true) all_squares.
Proof.
  apply Forall_forall. intros [r c] Hin.
  unfold all_squares in Hin. apply in_flat_map in Hin.
  destruct Hin as (r' & Hr & Hc). apply in_map_iff in Hc.
  destruct Hc as (c' & Heq & Hc). injection Heq as <- <-.
  unfold Py.range in *. apply in_map_iff in Hr, Hc.
  destruct Hr as (k & <- & Hk). destruct Hc as (k' & <- & Hk').
  apply in_seq in Hk, Hk'. simpl in *. unfold on_board.
  repeat (apply andb_true_iff; split); apply Z.leb_le; lia.
Qed.

Lemma all_moves_loop_core (squares : list Square) :
  Forall (fun sq : Square => on_board (fst sq) (snd sq) = true) squares ->
  forall moves s l s',
    kings_recorded s ->
    all_moves_loop squares moves s = Some (l, s') ->
    core s' = core s.
Proof.
  induction 1 as [|[row col] rest Hon _ IH]; intros moves s l s' K H.
  - injection H as _ <-. reflexivity.
  - simpl in H.
    apply bind_inv in H. destruct H as (sq & s1 & H1 & H).
    apply reads_inv in H1. destruct H1 as [-> Hsq].
    apply bind_inv in H. destruct H as (wtm & s1 & H1 & H).
    apply reads_inv in H1. destruct H1 as [-> Hw]. injection Hw as <-.
    destruct (_ || _) eqn:Eturn; [|eauto].
    apply bind_inv in H. destruct H as (moves' & s1 & H1 & H).
    assert (core s1 = core s) as E1.
    { unfold moveFunctions in H1.
      destruct (Ascii.eqb (snd sq) PAWN);
        [eapply frames_getPawnMoves; eauto|].
      destruct (Ascii.eqb (snd sq) ROOK);
        [eapply frames_getRookMoves; eauto|].
      destruct (Ascii.eqb (snd sq) KNIGHT);
        [eapply frames_getKnightMoves; eauto|].
      destruct (Ascii.eqb (snd sq) BISHOP);
        [eapply frames_getBishopMoves; eauto|].
      destruct (Ascii.eqb (snd sq) QUEEN);
        [eapply frames_getQueenMoves; eauto|].
      destruct (Ascii.eqb (snd sq) KING) eqn:EK; [|discriminate].
      unfold getKingMoves in H1.
      eapply king_loop_core; [|exact H1].
      apply Ascii.eqb_eq in EK. destruct sq as [turn kind].
      simpl in EK, Eturn. subst kind.
      destruct (K row col) as [Kw Kb]. unfold king_location_of.
      destruct (white_to_move s); simpl.
      - rewrite andb_true_r, andb_false_r, orb_false_r in Eturn.
        apply Ascii.eqb_eq in Eturn. subst turn. apply Kw; assumption.
      - rewrite andb_true_r, andb_false_r in Eturn. simpl in Eturn.
        apply Ascii.eqb_eq in Eturn. subst turn. apply Kb; assumption. }
    rewrite <- E1. eapply IH; [|exact H].
    eapply kings_recorded_core; eauto.
Qed.

Lemma frames_getAllPossibleMoves : frames getAllPossibleMoves.
Proof.
  intros s l s' K H. unfold getAllPossibleMoves in H.
  eapply all_moves_loop_core; eauto using all_squares_on_board.
Qed.

Lemma flip_turn_twice (s s2 : GameState) :
  core s2 = core (set_white_to_move s (negb (white_to_move s))) ->
  core (set_white_to_move s2 (negb (white_to_move s2))) = core s.
Proof.
  intros H. apply core_fields in H. simpl in H.
  destruct H as (? & Hw & ? & ? & ? & ? & ? & ? & ? & ? & ?).
  apply core_of_fields; simpl; auto.
  rewrite Hw. apply negb_involutive.
Qed.

Lemma frames_squareUnderAttack (row col : Z) :
  frames (squareUnderAttack row col).
Proof.
  intros s b s' K H. unfold squareUnderAttack in H.
  apply bind_inv in H. destruct H as ([] & s1 & H1 & H).
  injection H1 as <-.
  apply bind_inv in H. destruct H as (l & s2 & H2 & H).
  apply bind_inv in H. destruct H as ([] & s3 & H3 & H).
  injection H3 as <-. injection H as _ <-.
  apply flip_turn_twice. eapply frames_getAllPossibleMoves; [|exact H2].
  intros r c. exact (K r c).
Qed.

Lemma frames_inCheck : frames inCheck.
Proof.
  intros s b s' K H. unfold inCheck in H.
  destruct (white_to_move s); eapply frames_squareUnderAttack; eauto.
Qed.

Ltac frames_step :=
  first
    [ apply frames_ret
    | apply frames_reads
    | apply frames_squareUnderAttack
    | apply frames_getAllPossibleMoves
    | apply frames_checkForPinsAndChecks
    | (apply frames_bind; [|intros ?])
    | match goal with
      | |- frames (if ?b then _ else _) => destruct b
      end ].

Lemma frames_getKingsideCastleMoves (row col : Z) (moves : list Move) :
  frames (_getKingsideCastleMoves row col moves).
Proof.
  unfold _getKingsideCastleMoves, board_is_empty. repeat frames_step.
Qed.

Lemma frames_getQueensideCastleMoves (row col : Z) (moves : list Move) :
  frames (_getQueensideCastleMoves row col moves).
Proof.
  unfold _getQueensideCastleMoves, board_is_empty. repeat frames_step.
Qed.

Lemma frames_getCastleMoves (row col : Z) (moves : list Move) :
  frames (getCastleMoves row col moves).
Proof.
  unfold getCastleMoves.
  repeat first [ apply frames_getKingsideCastleMoves
               | apply frames_getQueensideCastleMoves
               | frames_step ].
Qed.

Lemma frames_generate_moves : frames generate_moves.
Proof.
  intros s l s' K H. unfold generate_moves in H.
  apply bind_inv in H. destruct H as (d & s1 & H1 & H).
  pose proof (frames_checkForPinsAndChecks K H1) as E1.
  assert (kings_recorded s1) as K1 by (eapply kings_recorded_core; eauto).
  rewrite <- E1.
  apply bind_inv in H. destruct H as (king & s1' & H2 & H).
  apply reads_inv in H2. destruct H2 as [-> Hking]. injection Hking as Hking.
  apply bind_inv in H. destruct H as (chk & s1' & H2 & H).
  apply reads_inv in H2. destruct H2 as [-> _].
  destruct chk.
  - apply bind_inv in H. destruct H as (n & s1' & H2 & H).
    apply reads_inv in H2. destruct H2 as [-> _].
    destruct (Nat.eqb n 1).
    + apply bind_inv in H. destruct H as (moves & s2 & H2 & H).
      apply reads_inv in H. destruct H as [-> _].
      eapply frames_getAllPossibleMoves; eauto.
    + unfold getKingMoves in H. eapply king_loop_core; [|exact H].
      unfold king_location_of. rewrite <- Hking.
      destruct (white_to_move s1); simpl; apply surjective_pairing.
  - assert (frames (bind getAllPossibleMoves
              (fun moves =>
                 bind (reads (fun s => Some (if white_to_move s
                                             then white_king_location s
                                             else black_king_location s)))
                   (fun k => getCastleMoves (fst k) (snd k) moves)))) as F.
    { repeat first [ apply frames_getCastleMoves | frames_step ]. }
    exact (F _ _ _ K1 H).
Qed.

(** The query leaves the two terminal flags alone until it has its list
    of moves. *)
Lemma generate_moves_keeps_flags (s s' : GameState) (l : list Move) :
  kings_recorded s -> generate_moves s = Some (l, s') ->
  checkmate s' = checkmate s /\ stalemate s' = stalemate s.
Proof.
  intros K H. apply (frames_generate_moves K) in H.
  apply core_fields in H. tauto.
Qed.

Lemma rights_core (s s' : GameState) :
  core s' = core s -> rights s' = rights s.
Proof.
  intros H. apply core_fields in H.
  destruct H as (_ & _ & _ & _ & _ & _ & _ & _ & _ & Hc & Hl).
  unfold rights. rewrite Hc, Hl. reflexivity.
Qed.

Lemma persisted_core (s s' : GameState) :
  core s' = core s -> persisted s' = persisted s.
Proof.
  intros H. pose proof (rights_core H) as Hr. apply core_fields in H.
  unfold persisted. intuition congruence.
Qed.

Lemma game_status_persisted (moves : list Move) (s s' : GameState) :
  kings_recorded s -> game_status moves s = Some (tt, s') ->
  persisted s' = persisted s.
Proof.
  intros K H. destruct moves as [|m rest]; simpl in H.
  - apply bind_inv in H. destruct H as (attacked & s1 & H1 & H).
    apply (frames_inCheck K) in H1. apply persisted_core in H1.
    rewrite <- H1. destruct attacked; injection H as <-; reflexivity.
  - injection H as <-. reflexivity.
Qed.

(** C10: a legality query that returns leaves the persisted state as it
    found it: board, side to move, move history, both king squares, the
    en-passant square and its log, the castling rights in force and
    their log.  The kings on the board are assumed to stand where the
    state records them. *)
Theorem getValidMoves_leaves_position_unchanged (s s' : GameState)
  (moves : list Move) :
  kings_recorded s ->
  getValidMoves s = Some (moves, s') ->
  persisted s' = persisted s.
Proof.
  intros K H. unfold getValidMoves in H.
  apply bind_inv in H. destruct H as (temp & s0 & H0 & H).
  apply reads_inv in H0. destruct H0 as [-> Htemp].
  apply bind_inv in H. destruct H as (l & s1 & H1 & H).
  pose proof (frames_generate_moves K H1) as E1.
  assert (kings_recorded s1) as K1 by (eapply kings_recorded_core; eauto).
  apply bind_inv in H. destruct H as ([] & s2 & H2 & H).
  pose proof (game_status_persisted _ K1 H2) as E2.
  apply bind_inv in H. destruct H as ([] & s3 & H3 & H).
  injection H3 as <-. injection H as _ <-.
  apply persisted_core in E1. rewrite E1 in E2.
  unfold persisted in *. simpl.
  injection E2 as Hb Hw Hm Hwk Hbk Hep Hepl _ Hl.
  rewrite Hb, Hw, Hm, Hwk, Hbk, Hep, Hepl, Hl, Htemp. reflexivity.
Qed.

Lemma all_squares_complete (r c : Z) :
  on_board r c = true -> In (r, c) all_squares.
Proof.
  unfold on_board. intros H.
  repeat (apply andb_true_iff in H; destruct H as [H ?]).
  apply Z.leb_le in H, H0, H1, H2.
  unfold all_squares. apply in_flat_map. exists r. split.
  - unfold Py.range. apply in_map_iff. exists (Z.to_nat r).
    split; [lia|]. apply in_seq. unfold BOARD_SIZE. lia.
  - apply in_map_iff. exists c. split; [reflexivity|].
    unfold Py.range. apply in_map_iff. exists (Z.to_nat c).
    split; [lia|]. apply in_seq. unfold BOARD_SIZE. lia.
Qed.

Lemma square_eqb_eq (a b : Square) : square_eqb a b = true -> a = b.
Proof.
  destruct a, b. unfold square_eqb. simpl. intros H.
  apply andb_true_iff in H. destruct H as [H1 H2].
  apply Z.eqb_eq in H1, H2. congruence.
Qed.

Lemma kings_recorded_b_sound (s : GameState) :
  kings_recorded_b s = true -> kings_recorded s.
Proof.
  unfold kings_recorded_b, kings_recorded. intros H r c.
  rewrite forallb_forall in H.
  split; intros Hb Hon; specialize (H (r, c) (all_squares_complete _ _ Hon));
    simpl in H; rewrite Hb in H;
    apply andb_true_iff in H; destruct H as [H1 H2].
  - apply square_eqb_eq. exact H1.
  - apply square_eqb_eq. exact H2.
Qed.

Lemma getValidMoves_leaves_position_unchanged_witness :
  exists moves s',
    kings_recorded GameState_init
    /\ getValidMoves GameState_init = Some (moves, s')
    /\ persisted s' = persisted GameState_init.
Proof.
  do 2 eexists.
  split; [apply kings_recorded_b_sound; vm_compute; reflexivity|].
  split; [vm_compute; reflexivity|].
  eapply (@getValidMoves_leaves_position_unchanged GameState_init).
  - apply kings_recorded_b_sound. vm_compute. reflexivity.
  - vm_compute. reflexivity.
Defined.

(** ** The terminal flags *)

Lemma keeps_ret {A X : Type} (f : GameState -> X) (a : A) : keeps f (ret a).
Proof.
  intros s a' s' H. injection H as _ <-. reflexivity.
Qed.

Lemma keeps_reads {A X : Type} (f : GameState -> X)
  (g : GameState -> option A) : keeps f (reads g).
Proof.
  intros s a s' H. apply reads_inv in H. destruct H as [-> _]. reflexivity.
Qed.

Lemma keeps_modify {X : Type} (f : GameState -> X)
  (g : GameState -> GameState) :
  (forall s, f (g s) = f s) -> keeps f (modify g).
Proof.
  intros Hg s [] s' H. injection H as <-. apply Hg.
Qed.

Lemma keeps_bind {A B X : Type} (f : GameState -> X) (c : M A)
  (k : A -> M B) :
  keeps f c -> (forall a, keeps f (k a)) -> keeps f (bind c k).
Proof.
  intros Hc Hk s b s' H.
  apply bind_inv in H. destruct H as (a & s1 & H1 & H2).
  rewrite (Hk _ _ _ _ H2). exact (Hc _ _ _ H1).
Qed.

(** Whatever the pin list, the detector results, the king squares and
    the side to move do not enter into is left alone by the generators:
    these are the only fields they assign. *)
Section Untouched.

Context {X : Type} (f : GameState -> X).
Hypothesis f_pins : forall s v, f (set_pins s v) = f s.
Hypothesis f_detect : forall s d, f (set_detect s d) = f s.
Hypothesis f_white_king : forall s v, f (set_white_king_location s v) = f s.
Hypothesis f_black_king : forall s v, f (set_black_king_location s v) = f s.
Hypothesis f_turn : forall s v, f (set_white_to_move s v) = f s.

Lemma untouched_take_pin (q : bool) (row col : Z) :
  keeps f (take_pin q row col).
Proof.
  intros s a s' H. unfold take_pin in H.
  destruct (find_pin _ _ _) as [p|].
  - destruct q.
    + destruct (board_get _ _ _) as [pc|]; [|discriminate].
      destruct (negb _).
      * destruct (Py.remove _ _ _); [|discriminate].
        injection H as _ <-. apply f_pins.
      * injection H as _ <-. reflexivity.
    + destruct (Py.remove _ _ _); [|discriminate].
      injection H as _ <-. apply f_pins.
  - injection H as _ <-. reflexivity.
Qed.

Lemma untouched_checkForPinsAndChecks : keeps f checkForPinsAndChecks.
Proof.
  intros s a s' H. unfold checkForPinsAndChecks in H.
  destruct (detect _ _ _ _); [|discriminate].
  injection H as _ <-. apply f_detect.
Qed.

Ltac untouched_step :=
  first
    [ apply keeps_ret
    | apply keeps_reads
    | apply untouched_take_pin
    | apply untouched_checkForPinsAndChecks
    | (apply keeps_modify; intros ?;
       repeat match goal with
              | |- context [if ?b then _ else _] => destruct b
              end;
       first [ apply f_white_king | apply f_black_king | apply f_turn ])
    | (apply keeps_bind; [|intros ?])
    | match goal with
      | |- keeps _ (if ?b then _ else _) => destruct b
      end ].

Lemma untouched_king_loop (ally : ascii) (row col : Z)
  (offs : list (Z * Z)) :
  forall moves, keeps f (king_loop ally row col offs moves).
Proof.
  induction offs as [|off rest IH]; intros moves; simpl.
  - apply keeps_ret.
  - unfold set_king_location. repeat first [ apply IH | untouched_step ].
Qed.

Lemma untouched_getKingMoves (row col : Z) (moves : list Move) :
  keeps f (getKingMoves row col moves).
Proof.
  intros s a s' H. unfold getKingMoves in H.
  eapply untouched_king_loop. exact H.
Qed.

Lemma untouched_moveFunctions (piece : ascii) (row col : Z)
  (moves : list Move) :
  keeps f (moveFunctions piece row col moves).
Proof.
  unfold moveFunctions, getPawnMoves, getRookMoves, getKnightMoves,
    getBishopMoves, getQueenMoves, getRookMoves, getBishopMoves.
  repeat first
    [ apply untouched_getKingMoves
    | untouched_step
    | (intros s a s' H; discriminate H) ].
Qed.

Lemma untouched_all_moves_loop (squares : list Square) :
  forall moves, keeps f (all_moves_loop squares moves).
Proof.
  induction squares as [|[row col] rest IH]; intros moves; simpl.
  - apply keeps_ret.
  - repeat first [ apply IH | apply untouched_moveFunctions | untouched_step ].
Qed.

Lemma untouched_squareUnderAttack (row col : Z) :
  keeps f (squareUnderAttack row col).
Proof.
  unfold squareUnderAttack, flip_turn, getAllPossibleMoves.
  repeat first [ apply untouched_all_moves_loop | untouched_step ].
Qed.

Lemma untouched_inCheck : keeps f inCheck.
Proof.
  intros s b s' H. unfold inCheck in H.
  destruct (white_to_move s); eapply untouched_squareUnderAttack; eauto.
Qed.

Lemma untouched_generate_moves : keeps f generate_moves.
Proof.
  unfold generate_moves, getCastleMoves, _getKingsideCastleMoves,
    _getQueensideCastleMoves, board_is_empty, getAllPossibleMoves.
  repeat first
    [ apply untouched_all_moves_loop
    | apply untouched_squareUnderAttack
    | apply untouched_getKingMoves
    | untouched_step ].
Qed.

End Untouched.

Lemma flags_inCheck : keeps flags inCheck.
Proof.
  apply untouched_inCheck; reflexivity.
Qed.

Lemma flags_generate_moves : keeps flags generate_moves.
Proof.
  apply untouched_generate_moves; reflexivity.
Qed.

(** What the status block of [getValidMoves] does to the two flags,
    whatever they were: with no move it sets the flag of the case at
    hand and leaves the other one alone; with a move it clears both. *)
Lemma getValidMoves_flags (s s' : GameState) (moves : list Move) :
  getValidMoves s = Some (moves, s') ->
  exists s1,
    generate_moves s = Some (moves, s1)
    /\ match moves with
       | [] =>
         exists attacked s2,
           inCheck s1 = Some (attacked, s2)
           /\ checkmate s' = (attacked || checkmate s)
           /\ stalemate s' = (negb attacked || stalemate s)
       | _ :: _ => checkmate s' = false /\ stalemate s' = false
       end.
Proof.
  intros H. unfold getValidMoves in H.
  apply bind_inv in H. destruct H as (temp & s0 & H0 & H).
  apply reads_inv in H0. destruct H0 as [-> _].
  apply bind_inv in H. destruct H as (l & s1 & H1 & H).
  apply bind_inv in H. destruct H as ([] & s2 & H2 & H).
  apply bind_inv in H. destruct H as ([] & s3 & H3 & H).
  injection H3 as <-. injection H as <- <-.
  exists s1. split; [exact H1|].
  pose proof (flags_generate_moves _ H1) as F1.
  unfold flags in F1. injection F1 as Fc Fs.
  destruct l as [|m rest]; simpl in H2.
  - apply bind_inv in H2. destruct H2 as (attacked & s4 & H4 & H2).
    pose proof (flags_inCheck _ H4) as F4.
    unfold flags in F4. injection F4 as Fc4 Fs4.
    exists attacked, s4. split; [exact H4|].
    destruct attacked; injection H2 as <-; simpl;
      rewrite ?Fc4, ?Fs4, ?Fc, ?Fs; split; reflexivity.
  - injection H2 as <-. simpl. split; reflexivity.
Qed.



(** In the fool's mate the filter returns no move and reports mate. *)
Lemma fools_mate_is_checkmate :
  option_map (fun r => (fst r, checkmate (snd r), stalemate (snd r)))
    (getValidMoves fools_mate)
  = Some ([], true, false).
Proof.
  vm_compute. reflexivity.
Qed.


(** ** Make and undo under a change of the derived fields *)

Lemma follows_ret {A : Type} (g : GameState -> GameState) (a : A) :
  follows g (ret a).
Proof.
  intros s x s' H. injection H as <- <-. reflexivity.
Qed.

Lemma follows_bind {A B : Type} (g : GameState -> GameState) (c : M A)
  (k : A -> M B) :
  follows g c -> (forall a, follows g (k a)) -> follows g (bind c k).
Proof.
  intros Hc Hk s x s' H.
  apply bind_inv in H. destruct H as (a & s1 & H1 & H2).
  unfold bind. rewrite (Hc _ _ _ H1). exact (Hk _ _ _ _ H2).
Qed.

Lemma follows_reads {A : Type} (g : GameState -> GameState)
  (f : GameState -> option A) :
  (forall s, f (g s) = f s) -> follows g (reads f).
Proof.
  intros Hf s x s' H. apply reads_inv in H. destruct H as [-> H].
  unfold reads, lift. rewrite Hf, H. reflexivity.
Qed.

Lemma follows_lift {A : Type} (g : GameState -> GameState) (o : option A) :
  follows g (lift o).
Proof.
  intros s x s' H. unfold lift in *. destruct o; [|discriminate].
  injection H as <- <-. reflexivity.
Qed.

Lemma follows_modify (g h : GameState -> GameState) :
  (forall s, h (g s) = g (h s)) -> follows g (modify h).
Proof.
  intros Hh s [] s' H. injection H as <-. unfold modify. rewrite Hh.
  reflexivity.
Qed.

Lemma follows_write_board (g : GameState -> GameState) (row col : Z)
  (v : Piece) :
  (forall s, board (g s) = board s) ->
  (forall s b, set_board (g s) b = g (set_board s b)) ->
  follows g (write_board row col v).
Proof.
  intros Hb Hs s [] s' H. unfold write_board in *. rewrite Hb.
  destruct (board_set _ _ _ _); [|discriminate].
  injection H as <-. rewrite Hs. reflexivity.
Qed.

Lemma absorbs_bind_l {A B : Type} (g : GameState -> GameState) (c : M A)
  (k : A -> M B) :
  absorbs g c -> absorbs g (bind c k).
Proof.
  intros Hc s x s' H.
  apply bind_inv in H. destruct H as (a & s1 & H1 & H2).
  unfold bind. rewrite (Hc _ _ _ H1). exact H2.
Qed.

Lemma absorbs_bind_r {A B : Type} (g : GameState -> GameState) (c : M A)
  (k : A -> M B) :
  follows g c -> (forall a, absorbs g (k a)) -> absorbs g (bind c k).
Proof.
  intros Hc Hk s x s' H.
  apply bind_inv in H. destruct H as (a & s1 & H1 & H2).
  unfold bind. rewrite (Hc _ _ _ H1). exact (Hk _ _ _ _ H2).
Qed.

Lemma absorbs_modify (g h : GameState -> GameState) :
  (forall s, h (g s) = h s) -> absorbs g (modify h).
Proof.
  intros Hh s [] s' H. injection H as <-. unfold modify. rewrite Hh.
  reflexivity.
Qed.

Ltac follows_step :=
  first
    [ apply follows_ret
    | apply follows_lift
    | (apply follows_reads; intros ?; reflexivity)
    | (apply follows_write_board; intros; reflexivity)
    | (apply follows_modify; intros ?; reflexivity)
    | (apply follows_modify; intros ?; unfold write_rights; simpl;
       match goal with
       | |- context [match current_castling_rights ?s with _ => _ end] =>
           destruct (current_castling_rights s)
       end; reflexivity)
    | (apply follows_bind; [|intros ?])
    | match goal with
      | |- follows _ (if ?b then _ else _) => destruct b
      end ].

Lemma makeMove_follows_detect (move : Move) (d : Detect) :
  follows (with_detect d) (makeMove move).
Proof.
  unfold makeMove, updateCastleRights, rook_hop, read_board, flip_turn,
    with_detect.
  cbv zeta. repeat follows_step.
Qed.

Lemma pop_app {A : Type} (l : list A) (x : A) :
  Py.pop (l ++ [x]) = Some (x, l).
Proof.
  unfold Py.pop. rewrite rev_app_distr. simpl. rewrite rev_involutive.
  reflexivity.
Qed.

Lemma pop_inv {A : Type} (l l' : list A) (x : A) :
  Py.pop l = Some (x, l') -> l = l' ++ [x].
Proof.
  unfold Py.pop. destruct (rev l) as [|y r] eqn:E; [discriminate|].
  intros H. injection H as <- <-.
  rewrite <- (rev_involutive l), E. reflexivity.
Qed.

Lemma restore_castle_rights_follows_detect (d : Detect) :
  follows (with_detect d) restore_castle_rights.
Proof.
  unfold restore_castle_rights, with_detect.
  apply follows_bind; [follows_step|]. intros [|c l]; [|follows_step].
  intros s x s' H. discriminate H.
Qed.

Lemma restore_castle_rights_follows_flags (cm sm : bool) :
  follows (with_flags cm sm) restore_castle_rights.
Proof.
  unfold restore_castle_rights, with_flags.
  apply follows_bind; [follows_step|]. intros [|c l]; [|follows_step].
  intros s x s' H. discriminate H.
Qed.

Lemma restore_castle_rights_absorbs_rights (cur : CRRef)
  (top : CastleRights) :
  absorbs (with_rights cur top) restore_castle_rights.
Proof.
  intros s [] s' H. unfold restore_castle_rights in *.
  apply bind_inv in H. destruct H as (crlog & s1 & H1 & H).
  apply reads_inv in H1. destruct H1 as [-> H1].
  destruct (Py.pop (castle_rights_log s)) as [[x l]|] eqn:E; [|discriminate].
  injection H1 as <-. apply pop_inv in E.
  unfold bind, reads, lift, with_rights. simpl.
  rewrite E.
  destruct (l ++ [x]) as [|y r] eqn:E2;
    [apply app_eq_nil in E2; destruct E2; discriminate|].
  rewrite <- E2, removelast_last, pop_app.
  destruct l as [|c l]; [discriminate H|].
  injection H as <-. reflexivity.
Qed.

Lemma undo_popped_follows_detect (move : Move) (log' : list Move)
  (d : Detect) :
  follows (with_detect d) (undo_popped move log').
Proof.
  unfold undo_popped, rook_hop, read_board, flip_turn.
  repeat first [ apply restore_castle_rights_follows_detect
               | (unfold with_detect; follows_step) ].
Qed.

Lemma undo_popped_absorbs_flags (move : Move) (log' : list Move)
  (cm sm : bool) :
  absorbs (with_flags cm sm) (undo_popped move log').
Proof.
  unfold undo_popped, rook_hop, read_board, flip_turn.
  repeat (apply absorbs_bind_r;
          [repeat first [ apply restore_castle_rights_follows_flags
                        | (unfold with_flags; follows_step) ]
          |intros ?]).
  apply absorbs_modify. reflexivity.
Qed.

Lemma undo_popped_absorbs_rights (move : Move) (log' : list Move)
  (cur : CRRef) (top : CastleRights) :
  absorbs (with_rights cur top) (undo_popped move log').
Proof.
  unfold undo_popped, rook_hop, read_board, flip_turn.
  repeat first
    [ (apply absorbs_bind_l; apply restore_castle_rights_absorbs_rights)
    | (apply absorbs_bind_r;
       [repeat (unfold with_rights; follows_step)|intros ?]) ].
Qed.

Lemma core_as_detect (a f : GameState) :
  core a = core f ->
  a = with_detect (mkDetect (in_check a) (pins a) (checks a)) f.
Proof.
  destruct a, f. unfold core, with_detect, set_detect. simpl.
  intros H. injection H as -> -> -> -> -> -> -> -> -> -> ->. reflexivity.
Qed.

Lemma core_with_detect (d : Detect) (s : GameState) :
  core (with_detect d s) = core s.
Proof.
  reflexivity.
Qed.

(** [makeMove] neither reads nor writes the three derived fields. *)
Lemma makeMove_core (a f f1 : GameState) (move : Move) :
  core a = core f ->
  makeMove move f = Some (tt, f1) ->
  exists a1, makeMove move a = Some (tt, a1) /\ core a1 = core f1.
Proof.
  intros H Hf. rewrite (core_as_detect H).
  eexists. split; [apply makeMove_follows_detect; exact Hf|].
  apply core_with_detect.
Qed.

Lemma bind_reads {A B : Type} (f : GameState -> option A) (k : A -> M B)
  (s : GameState) :
  bind (reads f) k s = match f s with
                       | Some a => k a s
                       | None => None
                       end.
Proof.
  unfold bind, reads, lift. destruct (f s); reflexivity.
Qed.

Lemma bind_eq {A B : Type} (c : M A) (k : A -> M B) (s1 s2 : GameState) :
  c s1 = c s2 -> bind c k s1 = bind c k s2.
Proof.
  unfold bind. intros ->. reflexivity.
Qed.

Lemma generate_moves_detect (f : GameState) (d : Detect) :
  generate_moves (set_detect f d) = generate_moves f.
Proof.
  unfold generate_moves.
  match goal with |- bind _ ?k _ = _ => generalize k end.
  intros k. unfold bind, checkForPinsAndChecks. simpl.
  destruct (detect _ _ _ _); reflexivity.
Qed.

(** [getValidMoves] overwrites the three derived fields before it reads
    them. *)
Lemma getValidMoves_core (a f : GameState) :
  core a = core f -> getValidMoves a = getValidMoves f.
Proof.
  intros H. rewrite (core_as_detect H).
  unfold getValidMoves, with_detect. rewrite !bind_reads.
  change (rights (set_detect f _)) with (rights f).
  destruct (rights f) as [cr|]; [|reflexivity].
  apply bind_eq. apply generate_moves_detect.
Qed.

Lemma scoreBoard_core (cm sm : Z) (pv : ascii -> option Z)
  (pps : Piece -> Z -> Z -> option Z) (a f : GameState) :
  core a = core f -> scoreBoard cm sm pv pps a = scoreBoard cm sm pv pps f.
Proof.
  intros H. rewrite (core_as_detect H). reflexivity.
Qed.

Lemma position_of_core (a f : GameState) :
  core a = core f -> position_of a = position_of f.
Proof.
  intros H. rewrite (core_as_detect H). reflexivity.
Qed.

Lemma pop_none {A : Type} (l : list A) : Py.pop l = None -> l = [].
Proof.
  unfold Py.pop. destruct (rev l) as [|x r] eqn:E; [|discriminate].
  intros _. rewrite <- (rev_involutive l), E. reflexivity.
Qed.

Lemma same_position_as_changes (c1 c2 : GameState) :
  position_of c1 = position_of c2 ->
  c1 = with_detect (mkDetect (in_check c1) (pins c1) (checks c1))
         (with_flags (checkmate c1) (stalemate c1)
            (with_rights (current_castling_rights c1)
               (last (castle_rights_log c1) no_rights) c2)).
Proof.
  destruct c1 as [b1 w1 ml1 wk1 bk1 cm1 sm1 ic1 p1 ch1 ep1 epl1 cur1 l1].
  destruct c2 as [b2 w2 ml2 wk2 bk2 cm2 sm2 ic2 p2 ch2 ep2 epl2 cur2 l2].
  unfold position_of, with_detect, with_flags, with_rights, set_detect,
    set_flags, set_castling. simpl.
  intros H. injection H as -> -> -> -> -> -> -> Hr Hl.
  f_equal. destruct l2 as [|c l2].
  - destruct l1; [reflexivity|discriminate].
  - rewrite <- Hr. apply app_removelast_last.
    destruct l1; [discriminate|]. discriminate.
Qed.

(** [undoMove] reads only what [position_of] shows, and what it leaves
    of the rest does not depend on it. *)
Lemma undoMove_position (c1 c2 u2 : GameState) :
  position_of c1 = position_of c2 ->
  move_log c2 <> [] ->
  undoMove c2 = Some (tt, u2) ->
  exists u1, undoMove c1 = Some (tt, u1) /\ core u1 = core u2.
Proof.
  intros HP Hne H. rewrite (same_position_as_changes HP).
  unfold undoMove in *.
  change (move_log (with_detect _ _)) with (move_log c2).
  destruct (Py.pop (move_log c2)) as [[move log']|] eqn:E.
  - eexists. split.
    + apply undo_popped_follows_detect, undo_popped_absorbs_flags,
        undo_popped_absorbs_rights. exact H.
    + apply core_with_detect.
  - apply pop_none in E. contradiction.
Qed.

Lemma keeps_lift {A X : Type} (f : GameState -> X) (o : option A) :
  keeps f (lift o).
Proof.
  intros s a s' H. unfold lift in H. destruct o; [|discriminate].
  injection H as _ <-. reflexivity.
Qed.

Lemma keeps_write_board {X : Type} (f : GameState -> X) (row col : Z)
  (v : Piece) :
  (forall s b, f (set_board s b) = f s) -> keeps f (write_board row col v).
Proof.
  intros Hf s [] s' H. unfold write_board in H.
  destruct (board_set _ _ _ _); [|discriminate].
  injection H as <-. apply Hf.
Qed.

Ltac keeps_step :=
  first
    [ apply keeps_ret
    | apply keeps_reads
    | apply keeps_lift
    | (apply keeps_write_board; intros; reflexivity)
    | (apply keeps_modify; intros ?; reflexivity)
    | (apply keeps_modify; intros ?; unfold write_rights;
       match goal with
       | |- context [match current_castling_rights ?s with _ => _ end] =>
           destruct (current_castling_rights s)
       end; reflexivity)
    | (apply keeps_bind; [|intros ?])
    | match goal with
      | |- keeps _ (if ?b then _ else _) => destruct b
      end ].

(** [makeMove] puts the move on the history. *)
Lemma makeMove_move_log (move : Move) (s s' : GameState) :
  makeMove move s = Some (tt, s') -> move_log s' = move_log s ++ [move].
Proof.
  intros H. unfold makeMove in H.
  apply bind_inv in H. destruct H as ([] & s1 & H1 & H).
  apply bind_inv in H. destruct H as ([] & s2 & H2 & H).
  apply bind_inv in H. destruct H as ([] & s3 & H3 & H).
  apply (keeps_write_board move_log) in H1; [|reflexivity].
  apply (keeps_write_board move_log) in H2; [|reflexivity].
  injection H3 as <-.
  revert H. cbv zeta.
  match goal with
  | |- ?c _ = _ -> _ => assert (keeps move_log c) as K
  end.
  { unfold updateCastleRights, rook_hop, read_board, flip_turn.
    repeat keeps_step. }
  intros H. rewrite (K _ _ _ H). simpl. rewrite H2, H1. reflexivity.
Qed.

Lemma getValidMoves_move_log : keeps move_log getValidMoves.
Proof.
  unfold getValidMoves.
  apply keeps_bind; [keeps_step|]. intros temp.
  apply keeps_bind; [apply untouched_generate_moves; reflexivity|].
  intros moves.
  apply keeps_bind.
  - destruct moves; simpl; [|keeps_step].
    apply keeps_bind; [apply untouched_inCheck; reflexivity|].
    intros attacked. repeat keeps_step.
  - intros []. repeat keeps_step.
Qed.

(** ** Alpha-beta against the full-width search *)

Section AlphaBeta.

Variable AI_DEPTH : nat.
Variable CHECKMATE_SCORE : Z.
Variable STALEMATE_SCORE : Z.
Variable PIECE_VALUES : ascii -> option Z.
Variable PIECE_POSITION_SCORES : Piece -> Z -> Z -> option Z.

Hypothesis sentinel_positive : 0 < CHECKMATE_SCORE.

Lemma guard_inv (b : bool) (s s' : GameState) :
  guard b s = Some (tt, s') -> b = true /\ s' = s.
Proof.
  unfold guard. destruct b; [|discriminate].
  intros H. injection H as <-. split; reflexivity.
Qed.

(** One turn of the full-width loop, taken apart. *)
Lemma full_loop_step recf (at_root : bool) (move : Move) (rest : list Move)
  (max_score tm : Z) (nm : option Move) (f f' : GameState) (res : Found) :
  full_loop recf at_root (move :: rest) max_score tm nm f = Some (res, f') ->
  exists f1 nms f2 vc nmc f3 f4,
    makeMove move f = Some (tt, f1)
    /\ getValidMoves f1 = Some (nms, f2)
    /\ recf nms (- tm) nm f2 = Some ((vc, nmc), f3)
    /\ undoMove f3 = Some (tt, f4)
    /\ position_of f4 = position_of f
    /\ full_loop recf at_root rest
         (if - vc >? max_score then - vc else max_score) tm
         (if - vc >? max_score
          then (if at_root then Some move else nmc) else nmc) f4
       = Some (res, f').
Proof.
  intros H. simpl in H.
  apply bind_inv in H. destruct H as (before & s0 & H0 & H).
  apply reads_inv in H0. destruct H0 as [-> H0]. injection H0 as <-.
  apply bind_inv in H. destruct H as ([] & f1 & H1 & H).
  apply bind_inv in H. destruct H as (nms & f2 & H2 & H).
  apply bind_inv in H. destruct H as ([vc nmc] & f3 & H3 & H).
  apply bind_inv in H. destruct H as ([] & f4 & H4 & H).
  apply bind_inv in H. destruct H as (after & s0 & H5 & H).
  apply reads_inv in H5. destruct H5 as [-> H5]. injection H5 as <-.
  apply bind_inv in H. destruct H as ([] & s0 & H6 & H).
  apply guard_inv in H6. destruct H6 as [H6 ->].
  destruct (Position_eq_dec _ _) as [E|]; [|discriminate].
  exists f1, nms, f2, vc, nmc, f3, f4. simpl in H. auto 10.
Qed.

(** One turn of the alpha-beta loop, put together. *)
Lemma search_loop_step reca (at_root : bool) (move : Move)
  (rest : list Move) (max_score alpha beta tm : Z) (nm : option Move)
  (a a1 a2 a3 a4 : GameState) (nms : list Move) (rc : Z)
  (nmc : option Move) :
  makeMove move a = Some (tt, a1) ->
  getValidMoves a1 = Some (nms, a2) ->
  reca nms (- beta) (- alpha) (- tm) nm a2 = Some ((rc, nmc), a3) ->
  undoMove a3 = Some (tt, a4) ->
  search_loop reca at_root (move :: rest) max_score alpha beta tm nm a
  = let max_score' := if - rc >? max_score then - rc else max_score in
    let next_move' :=
      if - rc >? max_score then (if at_root then Some move else nmc)
      else nmc in
    let alpha' := if max_score' >? alpha then max_score' else alpha in
    if alpha' >=? beta then Some ((max_score', next_move'), a4)
    else search_loop reca at_root rest max_score' alpha' beta tm
           next_move' a4.
Proof.
  intros H1 H2 H3 H4. simpl. unfold bind at 1. rewrite H1.
  unfold bind at 1. rewrite H2. unfold bind at 1. rewrite H3.
  simpl. unfold bind at 1. rewrite H4.
  destruct (_ >=? _); reflexivity.
Qed.

(** One turn, run by both searches from states with the same core. *)
Lemma one_turn reca recf (move : Move) (tm alpha' beta' : Z)
  (nm nmc : option Move) (a f f1 f2 f3 f4 : GameState) (nms : list Move)
  (vc : Z) :
  refines CHECKMATE_SCORE reca recf ->
  core a = core f ->
  - CHECKMATE_SCORE <= alpha' -> alpha' < beta' -> beta' <= CHECKMATE_SCORE ->
  makeMove move f = Some (tt, f1) ->
  getValidMoves f1 = Some (nms, f2) ->
  recf nms (- tm) nm f2 = Some ((vc, nmc), f3) ->
  undoMove f3 = Some (tt, f4) ->
  nmc = nm /\ - CHECKMATE_SCORE <= vc <= CHECKMATE_SCORE
  /\ exists a1 a3 a4 rc,
       makeMove move a = Some (tt, a1)
       /\ getValidMoves a1 = Some (nms, f2)
       /\ reca nms alpha' beta' (- tm) nm f2 = Some ((rc, nm), a3)
       /\ undoMove a3 = Some (tt, a4)
       /\ fail_soft alpha' beta' vc rc
       /\ core a4 = core f4.
Proof.
  intros CH Hc Ha Hab Hb H1 H2 H3 H4.
  destruct (CH nms alpha' beta' (- tm) nm f2 f2 vc nmc f3 eq_refl Ha Hab Hb H3)
    as (Hnm & Hv & Hp & rc & a3 & Hr & Hfs & Hpa).
  split; [exact Hnm|]. split; [exact Hv|].
  destruct (makeMove_core move Hc H1) as (a1 & Ha1 & Hc1).
  assert (move_log f3 <> []) as Hne.
  { assert (move_log f3 = move_log f2) as ->
      by (pose proof (f_equal (fun p => snd (fst (fst (fst (fst (fst (fst p)))))))
                        Hp) as E; exact E).
    assert (move_log f2 = move_log f1) as ->
      by (eapply getValidMoves_move_log; exact H2).
    assert (move_log f1 = move_log f ++ [move]) as ->
      by (eapply makeMove_move_log; exact H1).
    destruct (move_log f); discriminate. }
  destruct (undoMove_position Hpa Hne H4) as (a4 & Ha4 & Hc4).
  exists a1, a3, a4, rc.
  rewrite (getValidMoves_core Hc1). auto 10.
Qed.

Section Loops.

Variable reca : list Move -> Z -> Z -> Z -> option Move -> M Found.
Variable recf : list Move -> Z -> option Move -> M Found.
Hypothesis deeper : refines CHECKMATE_SCORE reca recf.

(** What a recursive call of the full-width search returns, by itself. *)
Lemma full_child (moves : list Move) (tm : Z) (nm nmf : option Move)
  (f f' : GameState) (v : Z) :
  recf moves tm nm f = Some ((v, nmf), f') ->
  nmf = nm /\ - CHECKMATE_SCORE <= v <= CHECKMATE_SCORE
  /\ position_of f' = position_of f.
Proof.
  intros H.
  destruct (@deeper moves (- CHECKMATE_SCORE) CHECKMATE_SCORE tm nm f f v nmf
              f' eq_refl) as (H1 & H2 & H3 & _); auto; lia.
Qed.

(** Once the best score has reached the sentinel nothing changes it, nor
    the recorded move. *)
Lemma full_loop_saturated (at_root : bool) (tm : Z) (moves : list Move) :
  forall M nm f v nmf f',
    CHECKMATE_SCORE <= M ->
    full_loop recf at_root moves M tm nm f = Some ((v, nmf), f') ->
    v = M /\ nmf = nm.
Proof.
  induction moves as [|move rest IH]; intros M nm f v nmf f' HM H.
  - injection H as <- <- _. split; reflexivity.
  - apply full_loop_step in H.
    destruct H as (f1 & nms & f2 & vc & nmc & f3 & f4 & _ & _ & H3 & _ & _ & H).
    apply full_child in H3. destruct H3 as (-> & Hv & _).
    destruct (Z.gtb_spec (- vc) M) as [Hgt|Hle]; [lia|].
    eapply IH; eauto.
Qed.

(** The full-width loop below the root: it threads [next_move], its
    score stays between the running best and the sentinel, and it ends
    in the position it started from. *)
Lemma full_loop_facts (tm : Z) (moves : list Move) :
  forall M nm f v nmf f',
    M <= CHECKMATE_SCORE ->
    full_loop recf false moves M tm nm f = Some ((v, nmf), f') ->
    nmf = nm /\ M <= v <= CHECKMATE_SCORE /\ position_of f' = position_of f.
Proof.
  induction moves as [|move rest IH]; intros M nm f v nmf f' HM H.
  - injection H as <- <- <-. repeat split; lia.
  - apply full_loop_step in H.
    destruct H as (f1 & nms & f2 & vc & nmc & f3 & f4 & _ & _ & H3 & _ & Hp & H).
    apply full_child in H3. destruct H3 as (-> & Hv & _).
    destruct (Z.gtb_spec (- vc) M) as [Hgt|Hle];
      apply IH in H; try lia;
      destruct H as (-> & Hv' & Hp'); rewrite Hp';
      (split; [reflexivity|]); (split; [lia|exact Hp]).
Qed.

(** The two loops below the root. *)
Lemma inner_loop (alpha0 beta tm : Z) (nm : option Move) :
  - CHECKMATE_SCORE <= alpha0 -> alpha0 < beta -> beta <= CHECKMATE_SCORE ->
  forall moves M m al a f v nmf f',
    core a = core f ->
    al = Z.max alpha0 m -> M <= m -> (m <= alpha0 \/ m = M) -> al < beta ->
    - CHECKMATE_SCORE <= M <= CHECKMATE_SCORE ->
    full_loop recf false moves M tm nm f = Some ((v, nmf), f') ->
    nmf = nm /\ M <= v <= CHECKMATE_SCORE
    /\ position_of f' = position_of f
    /\ exists r a',
         search_loop reca false moves m al beta tm nm a = Some ((r, nm), a')
         /\ fail_soft alpha0 beta v r
         /\ position_of a' = position_of f'.
Proof.
  intros Ha0 Hab Hb moves.
  induction moves as [|move rest IH];
    intros M m al a f v nmf f' Hc Hal HMm Hm Halb HM H.
  - injection H as <- <- <-.
    split; [reflexivity|]. split; [lia|]. split; [reflexivity|].
    exists m, a. split; [reflexivity|].
    split; [unfold fail_soft; lia|]. apply position_of_core. exact Hc.
  - pose proof H as Hfull. apply full_loop_facts in Hfull; [|lia].
    destruct Hfull as (Hnm & Hv & Hpos).
    split; [exact Hnm|]. split; [exact Hv|]. split; [exact Hpos|].
    apply full_loop_step in H.
    destruct H as (f1 & nms & f2 & vc & nmc & f3 & f4
                   & H1 & H2 & H3 & H4 & Hp4 & H).
    destruct (@one_turn reca recf move tm (- beta) (- al) nm nmc a f f1 f2 f3
                f4 nms vc deeper Hc) as (-> & Hvc & a1 & a3 & a4 & rc
                                         & A1 & A2 & A3 & A4 & Hfs & Hc4);
      auto; try lia.
    assert (search_loop reca false (move :: rest) m al beta tm nm a
            = let max_score' := if - rc >? m then - rc else m in
              let alpha' := if max_score' >? al then max_score' else al in
              if alpha' >=? beta then Some ((max_score', nm), a4)
              else search_loop reca false rest max_score' alpha' beta tm nm
                     a4) as ->.
    { rewrite (@search_loop_step reca false move rest m al beta tm nm a a1 f2
                 a3 a4 nms rc nm A1 A2); auto.
      cbv zeta. destruct (- rc >? m); reflexivity. }
    cbv zeta.
    assert ((if - vc >? M then (if false then Some move else nm) else nm)
            = nm) as E by (destruct (- vc >? M); reflexivity).
    rewrite E in H. clear E.
    unfold fail_soft in Hfs.
    assert ((if - vc >? M then - vc else M) <= CHECKMATE_SCORE) as HM'
      by (destruct (- vc >? M); lia).
    destruct (full_loop_facts _ _ _ _ HM' H) as (_ & Hv' & Hp').
    destruct (Z.gtb_spec (- vc) M) as [G1|G1];
      destruct (Z.gtb_spec (- rc) m) as [G2|G2];
      match goal with
      | |- context [if ?x >? al then _ else _] =>
          destruct (Z.gtb_spec x al) as [G3|G3]
      end;
      match goal with
      | |- context [if ?x >=? beta then _ else _] =>
          destruct (Z.geb_spec x beta) as [G4|G4]
      end;
      try (exfalso; lia);
      try (eexists _, a4; split; [reflexivity|];
           split; [unfold fail_soft; lia|];
           rewrite Hp', Hp4; rewrite (position_of_core Hc4); exact Hp4);
      match goal with
      | |- exists r a', search_loop _ _ _ ?m' ?al' _ _ _ _ = _ /\ _ =>
          destruct (fun P1 P2 P3 P4 P5 =>
                      IH _ m' al' a4 f4 v nmf f' Hc4 P1 P2 P3 P4 P5 H)
            as (_ & _ & _ & r & a' & R1 & R2 & R3); try lia;
          exists r, a'; split; [exact R1|]; split; [|exact R3];
          unfold fail_soft in *; lia
      end.
Qed.

(** The two loops at the root, with the full window: the running best
    of the pruned search is the running best of the full one, and the
    same moves are recorded. *)
Lemma root_loop (tm : Z) :
  forall moves M nm a f v nmf f',
    core a = core f ->
    - CHECKMATE_SCORE <= M -> M < CHECKMATE_SCORE ->
    full_loop recf true moves M tm nm f = Some ((v, nmf), f') ->
    exists a',
      search_loop reca true moves M M CHECKMATE_SCORE tm nm a
      = Some ((v, nmf), a').
Proof.
  induction moves as [|move rest IH]; intros M nm a f v nmf f' Hc HM1 HM2 H.
  - injection H as <- <- _. exists a. reflexivity.
  - apply full_loop_step in H.
    destruct H as (f1 & nms & f2 & vc & nmc & f3 & f4
                   & H1 & H2 & H3 & H4 & Hp4 & H).
    destruct (@one_turn reca recf move tm (- CHECKMATE_SCORE) (- M) nm nmc a f
                f1 f2 f3 f4 nms vc deeper Hc)
      as (-> & Hvc & a1 & a3 & a4 & rc & A1 & A2 & A3 & A4 & Hfs & Hc4);
      auto; try lia.
    rewrite (@search_loop_step reca true move rest M M CHECKMATE_SCORE tm nm
               a a1 f2 a3 a4 nms rc nm A1 A2 A3 A4).
    cbv zeta. unfold fail_soft in Hfs.
    destruct (Z.gtb_spec (- vc) M) as [G1|G1];
      destruct (Z.gtb_spec (- rc) M) as [G2|G2]; try (exfalso; lia).
    + assert (rc = vc) as -> by lia.
      destruct (Z.gtb_spec (- vc) M) as [G3|G3]; [|exfalso; lia].
      destruct (Z.geb_spec (- vc) CHECKMATE_SCORE) as [G4|G4].
      * apply full_loop_saturated in H; [|exact G4].
        destruct H as [-> ->]. exists a4. reflexivity.
      * eapply IH; eauto. lia.
    + destruct (Z.gtb_spec M M) as [G3|G3]; [exfalso; lia|].
      destruct (Z.geb_spec M CHECKMATE_SCORE) as [G4|G4]; [exfalso; lia|].
      eapply IH; eauto.
Qed.

End Loops.

Lemma findMoveNegaMax_S (d : nat) (moves : list Move) (tm : Z)
  (nm : option Move) :
  findMoveNegaMax AI_DEPTH CHECKMATE_SCORE STALEMATE_SCORE PIECE_VALUES
    PIECE_POSITION_SCORES (S d) moves tm nm
  = full_loop
      (findMoveNegaMax AI_DEPTH CHECKMATE_SCORE STALEMATE_SCORE PIECE_VALUES
         PIECE_POSITION_SCORES d)
      (Nat.eqb (S d) AI_DEPTH) moves (- CHECKMATE_SCORE) tm nm.
Proof.
  reflexivity.
Qed.

Lemma findMoveNegaMaxAlphaBeta_S (d : nat) (moves : list Move)
  (alpha beta tm : Z) (nm : option Move) :
  findMoveNegaMaxAlphaBeta AI_DEPTH CHECKMATE_SCORE STALEMATE_SCORE
    PIECE_VALUES PIECE_POSITION_SCORES (S d) moves alpha beta tm nm
  = search_loop
      (findMoveNegaMaxAlphaBeta AI_DEPTH CHECKMATE_SCORE STALEMATE_SCORE
         PIECE_VALUES PIECE_POSITION_SCORES d)
      (Nat.eqb (S d) AI_DEPTH) moves (- CHECKMATE_SCORE) alpha beta tm nm.
Proof.
  reflexivity.
Qed.

(** Below the root the pruned search refines the full-width one. *)
Lemma search_refines (d : nat) :
  (d < AI_DEPTH)%nat ->
  refines CHECKMATE_SCORE
    (findMoveNegaMaxAlphaBeta AI_DEPTH CHECKMATE_SCORE STALEMATE_SCORE
       PIECE_VALUES PIECE_POSITION_SCORES d)
    (findMoveNegaMax AI_DEPTH CHECKMATE_SCORE STALEMATE_SCORE PIECE_VALUES
       PIECE_POSITION_SCORES d).
Proof.
  induction d as [|d IH]; intros Hd moves alpha beta tm nm a f v nmf f'
    Hc Ha Hab Hb H.
  - simpl in H.
    apply bind_inv in H. destruct H as (score & s0 & H0 & H).
    apply reads_inv in H0. destruct H0 as [-> H0].
    apply bind_inv in H. destruct H as ([] & s0 & H1 & H).
    apply guard_inv in H1. destruct H1 as [H1 ->].
    injection H as <- <- <-.
    apply andb_true_iff in H1. destruct H1 as [B1 B2].
    apply Z.leb_le in B1, B2.
    split; [reflexivity|]. split; [lia|]. split; [reflexivity|].
    exists (tm * score), a. split.
    + simpl. rewrite bind_reads.
      rewrite (scoreBoard_core _ _ _ _ Hc), H0. reflexivity.
    + split; [unfold fail_soft; lia|]. apply position_of_core. exact Hc.
  - rewrite findMoveNegaMax_S in H. rewrite findMoveNegaMaxAlphaBeta_S.
    assert (Nat.eqb (S d) AI_DEPTH = false) as E
      by (apply Nat.eqb_neq; lia).
    rewrite E in *.
    assert (refines CHECKMATE_SCORE
              (findMoveNegaMaxAlphaBeta AI_DEPTH CHECKMATE_SCORE
                 STALEMATE_SCORE PIECE_VALUES PIECE_POSITION_SCORES d)
              (findMoveNegaMax AI_DEPTH CHECKMATE_SCORE STALEMATE_SCORE
                 PIECE_VALUES PIECE_POSITION_SCORES d)) as CH
      by (apply IH; lia).
    destruct (@inner_loop _ _ CH alpha beta tm nm Ha Hab Hb moves
                (- CHECKMATE_SCORE) (- CHECKMATE_SCORE) alpha a f v nmf f'
                Hc) as (R1 & R2 & R3 & R4); try lia; auto.
Qed.


End AlphaBeta.


(** In that search both return -2 and the move a2-a3. *)
Lemma knight_check_search_values :
  option_map (fun r => (fst r, option_map moveID (snd r)))
    (result_of
       (findMoveNegaMax 2 1000 0 example_values example_position_scores 2
          knight_check_moves 1 None) knight_check_root)
  = Some (-2, Some 6050)
  /\ option_map (fun r => (fst r, option_map moveID (snd r)))
       (result_of
          (findMoveNegaMaxAlphaBeta 2 1000 0 example_values
             example_position_scores 2 knight_check_moves (-1000) 1000 1
             None) knight_check_root)
     = Some (-2, Some 6050).
Proof.
  split; vm_compute; reflexivity.
Qed.


(** ** [move.py]: move identity and notation *)

Lemma on_board_bounds (r c : Z) :
  on_board r c = true <-> 0 <= r <= 7 /\ 0 <= c <= 7.
Proof.
  unfold on_board. rewrite !andb_true_iff, !Z.leb_le. lia.
Qed.

Lemma Move_init_fields (st en : Square) (b : Board) (ep ca : bool) (m : Move) :
  Move_init st en b ep ca = Some m ->
  start_row m = fst st /\ start_col m = snd st /\ end_row m = fst en
  /\ end_col m = snd en /\ is_enpassant_move m = ep /\ is_castle_move m = ca
  /\ board_get b (fst st) (snd st) = Some (piece_moved m)
  /\ is_capture m = negb (piece_eqb (piece_captured m) ("-", "-"))
  /\ moveID m = fst st * 1000 + snd st * 100 + fst en * 10 + snd en.
Proof.
  unfold Move_init.
  destruct (board_get b (fst st) (snd st)) as [pm|]; [|discriminate].
  destruct (board_get b (fst en) (snd en)) as [pc|]; [|discriminate].
  intros E. injection E as <-. cbn. repeat split; reflexivity.
Qed.

(** X1: two moves built by [Move.__init__] from squares of the board compare
    equal under [Move.__eq__] exactly when they have the same start and
    the same end square; the pieces and the special-move flags play no
    part. *)
Theorem Move_eq_iff_same_squares (st1 en1 st2 en2 : Square) (b1 b2 : Board)
  (ep1 ca1 ep2 ca2 : bool) (m1 m2 : Move) :
  on_board (fst st1) (snd st1) = true ->
  on_board (fst en1) (snd en1) = true ->
  on_board (fst st2) (snd st2) = true ->
  on_board (fst en2) (snd en2) = true ->
  Move_init st1 en1 b1 ep1 ca1 = Some m1 ->
  Move_init st2 en2 b2 ep2 ca2 = Some m2 ->
  (Move_eqb m1 m2 = true <-> st1 = st2 /\ en1 = en2).
Proof.
  intros H1 H2 H3 H4 E1 E2.
  apply on_board_bounds in H1, H2, H3, H4.
  apply Move_init_fields in E1, E2.
  destruct E1 as (_ & _ & _ & _ & _ & _ & _ & _ & I1).
  destruct E2 as (_ & _ & _ & _ & _ & _ & _ & _ & I2).
  unfold Move_eqb. rewrite Z.eqb_eq, I1, I2.
  destruct st1 as [a1 a2], en1 as [a3 a4], st2 as [c1 c2], en2 as [c3 c4].
  cbn in *. split.
  - intros E.
    assert (a1 = c1) by lia. assert (a2 = c2) by lia.
    assert (a3 = c3) by lia. assert (a4 = c4) by lia.
    split; congruence.
  - intros [E E']. injection E as -> ->. injection E' as -> ->. reflexivity.
Qed.

Lemma Move_eq_iff_same_squares_witness :
  exists m1 m2,
    Move_init (6, 4) (4, 4) INITIAL_BOARD false false = Some m1
    /\ Move_init (6, 4) (5, 4) INITIAL_BOARD false false = Some m2
    /\ (Move_eqb m1 m2 = true <-> (6, 4) = (6, 4) /\ (4, 4) = (5, 4)).
Proof.
  eexists _, _. split; [reflexivity|]. split; [reflexivity|].
  eapply (@Move_eq_iff_same_squares (6, 4) (4, 4) (6, 4) (5, 4)
            INITIAL_BOARD INITIAL_BOARD false false false false);
    reflexivity.
Defined.

Lemma board_coordinate (r : Z) :
  0 <= r <= 7 ->
  r = 0 \/ r = 1 \/ r = 2 \/ r = 3 \/ r = 4 \/ r = 5 \/ r = 6 \/ r = 7.
Proof. lia. Qed.

Lemma rows_to_ranks_get (row : Z) :
  Dict.get Z.eqb rows_to_ranks row
  = if (0 <=? row) && (row <=? 7)
    then nth_error ["8"; "7"; "6"; "5"; "4"; "3"; "2"; "1"] (Z.to_nat row)
    else None.
Proof.
  destruct ((0 <=? row) && (row <=? 7)) eqn:E.
  - apply andb_true_iff in E. rewrite !Z.leb_le in E.
    destruct (board_coordinate (r := row)) as [->|[->|[->|[->|[->|[->|[->| ->]]]]]]];
      [lia | reflexivity ..].
  - assert (row < 0 \/ 7 < row) as R.
    { apply andb_false_iff in E. rewrite !Z.leb_gt in E. lia. }
    change rows_to_ranks
      with [(7, "1"); (6, "2"); (5, "3"); (4, "4"); (3, "5"); (2, "6");
            (1, "7"); (0, "8")].
    cbn [Dict.get].
    repeat match goal with
           | |- context [?a =? row] =>
               replace (a =? row) with false by (symmetry; apply Z.eqb_neq; lia)
           end.
    reflexivity.
Qed.

Lemma cols_to_files_get (col : Z) :
  Dict.get Z.eqb cols_to_files col
  = if (0 <=? col) && (col <=? 7)
    then nth_error ["a"; "b"; "c"; "d"; "e"; "f"; "g"; "h"] (Z.to_nat col)
    else None.
Proof.
  destruct ((0 <=? col) && (col <=? 7)) eqn:E.
  - apply andb_true_iff in E. rewrite !Z.leb_le in E.
    destruct (board_coordinate (r := col)) as [->|[->|[->|[->|[->|[->|[->| ->]]]]]]];
      [lia | reflexivity ..].
  - assert (col < 0 \/ 7 < col) as R.
    { apply andb_false_iff in E. rewrite !Z.leb_gt in E. lia. }
    change cols_to_files
      with [(0, "a"); (1, "b"); (2, "c"); (3, "d"); (4, "e"); (5, "f");
            (6, "g"); (7, "h")].
    cbn [Dict.get].
    repeat match goal with
           | |- context [?a =? col] =>
               replace (a =? col) with false by (symmetry; apply Z.eqb_neq; lia)
           end.
    reflexivity.
Qed.

(** X2: on the board, [getRankFile] returns a file letter followed by a
    rank digit which the two forward tables [files_to_cols] and
    [ranks_to_rows] map back to the column and the row it was given. *)
Theorem getRankFile_round_trip (row col : Z) :
  on_board row col = true ->
  exists file rank,
    getRankFile row col = Some [file; rank]
    /\ Dict.get Ascii.eqb files_to_cols file = Some col
    /\ Dict.get Ascii.eqb ranks_to_rows rank = Some row.
Proof.
  intros H. apply on_board_bounds in H. destruct H as [Hr Hc].
  destruct (board_coordinate Hr) as [->|[->|[->|[->|[->|[->|[->| ->]]]]]]];
    destruct (board_coordinate Hc) as [->|[->|[->|[->|[->|[->|[->| ->]]]]]]];
    eexists _, _; (split; [reflexivity|]); split; reflexivity.
Qed.

Lemma getRankFile_round_trip_witness :
  exists file rank,
    getRankFile 4 4 = Some [file; rank]
    /\ Dict.get Ascii.eqb files_to_cols file = Some 4
    /\ Dict.get Ascii.eqb ranks_to_rows rank = Some 4.
Proof.
  apply (@getRankFile_round_trip 4 4). reflexivity.
Defined.

(** X3: [getRankFile] raises (a [KeyError]) exactly for the squares that
    are not on the board; unlike the board lookups of the engine, it does
    not accept negative coordinates. *)
Theorem getRankFile_raises_off_board (row col : Z) :
  getRankFile row col = None <-> on_board row col = false.
Proof.
  unfold getRankFile. rewrite cols_to_files_get, rows_to_ranks_get.
  destruct (on_board row col) eqn:E.
  - apply on_board_bounds in E. destruct E as [Hr Hc].
    replace ((0 <=? col) && (col <=? 7)) with true
      by (symmetry; rewrite andb_true_iff, !Z.leb_le; lia).
    replace ((0 <=? row) && (row <=? 7)) with true
      by (symmetry; rewrite andb_true_iff, !Z.leb_le; lia).
    destruct (board_coordinate Hr) as [->|[->|[->|[->|[->|[->|[->| ->]]]]]]];
      destruct (board_coordinate Hc) as [->|[->|[->|[->|[->|[->|[->| ->]]]]]]];
      cbn; split; discriminate.
  - split; [reflexivity | intros _].
    destruct ((0 <=? col) && (col <=? 7)) eqn:Ec; [|reflexivity].
    destruct (nth_error _ (Z.to_nat col)); [|reflexivity].
    destruct ((0 <=? row) && (row <=? 7)) eqn:Er; [|reflexivity].
    exfalso. apply andb_true_iff in Ec, Er. rewrite !Z.leb_le in Ec, Er.
    assert (on_board row col = true) by (apply on_board_bounds; lia).
    congruence.
Qed.

(** X4: for a castle move that is not flagged as a promotion,
    [getChessNotation] and [__str__] give the same text only if the king
    ends on column 1 or on column 6: the first writes "0-0-0" for column
    1 alone, the second writes "0-0" for column 6 alone. *)
Theorem castle_notations_agree_iff (m : Move) :
  is_castle_move m = true ->
  is_pawn_promotion m = false ->
  (getChessNotation m = Move_str m <-> end_col m = 1 \/ end_col m = 6).
Proof.
  intros Hc Hp. unfold getChessNotation, Move_str. rewrite Hc, Hp.
  destruct (Z.eqb_spec (end_col m) 1) as [E1|E1];
    destruct (Z.eqb_spec (end_col m) 6) as [E6|E6].
  - lia.
  - split; auto.
  - split; auto.
  - split; [discriminate | lia].
Qed.

Lemma castle_notations_agree_iff_witness :
  getChessNotation (mkMove 7 4 7 2 ("w", "K") ("-", "-") false false true
                      false 7472)
  = Move_str (mkMove 7 4 7 2 ("w", "K") ("-", "-") false false true false
                7472)
  <-> 2 = 1 \/ 2 = 6.
Proof.
  apply (@castle_notations_agree_iff
           (mkMove 7 4 7 2 ("w", "K") ("-", "-") false false true false
              7472)); reflexivity.
Defined.

Lemma getRankFile_on_board (row col : Z) :
  on_board row col = true ->
  exists file rank,
    Dict.get Z.eqb cols_to_files col = Some file
    /\ getRankFile row col = Some [file; rank].
Proof.
  intros H. apply on_board_bounds in H. destruct H as [Hr Hc].
  destruct (board_coordinate Hr) as [->|[->|[->|[->|[->|[->|[->| ->]]]]]]];
    destruct (board_coordinate Hc) as [->|[->|[->|[->|[->|[->|[->| ->]]]]]]];
    eexists _, _; split; reflexivity.
Qed.

Lemma Move_init_promotion (st en : Square) (b : Board) (ep ca : bool)
  (m : Move) :
  Move_init st en b ep ca = Some m ->
  is_pawn_promotion m = true ->
  snd (piece_moved m) = "p".
Proof.
  unfold Move_init.
  destruct (board_get b (fst st) (snd st)) as [pm|]; [|discriminate].
  destruct (board_get b (fst en) (snd en)) as [pc|]; [|discriminate].
  intros E. injection E as <-. cbn. unfold piece_eqb. cbn.
  intros H. apply orb_true_iff in H. rewrite !andb_true_iff in H.
  destruct H as [[[_ H] _]|[[_ H] _]]; apply Ascii.eqb_eq in H; exact H.
Qed.

(** X5: for a move built by [Move.__init__] between two squares of the
    board that is neither a castle nor an en-passant capture nor a
    capturing promotion, [getChessNotation] and [__str__] both return,
    and return the same text. *)
Theorem notations_agree_on_ordinary_moves (st en : Square) (b : Board)
  (m : Move) :
  on_board (fst st) (snd st) = true ->
  on_board (fst en) (snd en) = true ->
  Move_init st en b false false = Some m ->
  is_pawn_promotion m && is_capture m = false ->
  exists text, getChessNotation m = Some text /\ Move_str m = Some text.
Proof.
  intros Hs He E Hpc.
  pose proof (@Move_init_promotion _ _ _ _ _ _ E) as Hp.
  apply Move_init_fields in E.
  destruct E as (E1 & E2 & E3 & E4 & E5 & E6 & _ & E7 & _).
  rewrite <- E1, <- E2 in Hs. rewrite <- E3, <- E4 in He.
  destruct (@getRankFile_on_board _ _ Hs) as (sf & sr & Hsf & Hsq).
  destruct (@getRankFile_on_board _ _ He) as (ef & er & _ & Heq).
  unfold getChessNotation, Move_str.
  rewrite E5, E6, Heq, Hsq, Hsf. cbn [first_char].
  destruct (is_pawn_promotion m) eqn:P.
  - cbn in Hpc. rewrite Hpc, (Hp eq_refl). cbn.
    eexists. split; reflexivity.
  - rewrite E7.
    destruct (piece_eqb (piece_captured m) ("-", "-")); cbn [negb];
      destruct (Ascii.eqb (snd (piece_moved m)) "p");
      eexists; split; reflexivity.
Qed.

Lemma notations_agree_on_ordinary_moves_witness :
  exists m text,
    Move_init (7, 6) (5, 5) INITIAL_BOARD false false = Some m
    /\ getChessNotation m = Some text /\ Move_str m = Some text.
Proof.
  eexists. 
  destruct (@notations_agree_on_ordinary_moves (7, 6) (5, 5) INITIAL_BOARD
              _ eq_refl eq_refl eq_refl eq_refl) as [text H].
  exists text. split; [reflexivity | exact H].
Defined.

(** ** [ChessAI.py]: what the search returns and what it leaves *)

Lemma search_loop_inv
  (rec : list Move -> Z -> Z -> Z -> option Move -> M Found)
  (at_root : bool) (move : Move) (rest : list Move)
  (max_score alpha beta tm : Z) (nm : option Move) (s s' : GameState)
  (r : Found) :
  search_loop rec at_root (move :: rest) max_score alpha beta tm nm s
  = Some (r, s') ->
  exists s1 nms s2 rc nmc s3 s4,
    makeMove move s = Some (tt, s1)
    /\ getValidMoves s1 = Some (nms, s2)
    /\ rec nms (- beta) (- alpha) (- tm) nm s2 = Some ((rc, nmc), s3)
    /\ undoMove s3 = Some (tt, s4)
    /\ let max_score' := if - rc >? max_score then - rc else max_score in
       let next_move' :=
         if - rc >? max_score then (if at_root then Some move else nmc)
         else nmc in
       let alpha' := if max_score' >? alpha then max_score' else alpha in
       if alpha' >=? beta then (r, s') = ((max_score', next_move'), s4)
       else search_loop rec at_root rest max_score' alpha' beta tm
              next_move' s4 = Some (r, s').
Proof.
  intros H. simpl in H.
  apply bind_inv in H. destruct H as ([] & s1 & H1 & H).
  apply bind_inv in H. destruct H as (nms & s2 & H2 & H).
  apply bind_inv in H. destruct H as ([rc nmc] & s3 & H3 & H).
  apply bind_inv in H. destruct H as ([] & s4 & H4 & H).
  exists s1, nms, s2, rc, nmc, s3, s4.
  repeat (split; [assumption|]).
  simpl in H. cbv zeta.
  destruct (_ >=? _); [|exact H].
  injection H as <- <-. reflexivity.
Qed.

Lemma undoMove_move_log (s s' : GameState) (l : list Move) (m : Move) :
  move_log s = l ++ [m] ->
  undoMove s = Some (tt, s') ->
  move_log s' = l.
Proof.
  intros E H. unfold undoMove in H. rewrite E, pop_app in H.
  unfold undo_popped in H.
  apply bind_inv in H. destruct H as ([] & s1 & H1 & H).
  injection H1 as <-.
  revert H.
  match goal with
  | |- ?c _ = _ -> _ => assert (keeps move_log c) as K
  end.
  { unfold restore_castle_rights, rook_hop, read_board, flip_turn.
    repeat first
      [ keeps_step
      | (intros ? ? ? HN; discriminate HN) ]. }
  intros H. rewrite (K _ _ _ H). reflexivity.
Qed.

Section SearchFacts.

Variable AI_DEPTH : nat.
Variable CHECKMATE_SCORE : Z.
Variable STALEMATE_SCORE : Z.
Variable PIECE_VALUES : ascii -> option Z.
Variable PIECE_POSITION_SCORES : Piece -> Z -> Z -> option Z.

Let search :=
  findMoveNegaMaxAlphaBeta AI_DEPTH CHECKMATE_SCORE STALEMATE_SCORE
    PIECE_VALUES PIECE_POSITION_SCORES.

Lemma search_loop_move_log
  (rec : list Move -> Z -> Z -> Z -> option Move -> M Found)
  (at_root : bool) :
  (forall moves alpha beta tm nm, keeps move_log (rec moves alpha beta tm nm)) ->
  forall moves max_score alpha beta tm nm,
    keeps move_log (search_loop rec at_root moves max_score alpha beta tm nm).
Proof.
  intros Hrec moves.
  induction moves as [|move rest IH]; intros max_score alpha beta tm nm.
  - apply keeps_ret.
  - intros s r s' H. apply search_loop_inv in H.
    destruct H as (s1 & nms & s2 & rc & nmc & s3 & s4 & H1 & H2 & H3 & H4 & H).
    apply makeMove_move_log in H1.
    apply getValidMoves_move_log in H2.
    apply Hrec in H3.
    assert (move_log s4 = move_log s) as E4.
    { eapply undoMove_move_log; [|exact H4].
      rewrite H3, H2. exact H1. }
    cbv zeta in H. destruct (_ >=? _).
    + injection H as _ ->. exact E4.
    + apply IH in H. congruence.
Qed.

(** X6: a call of [findMoveNegaMaxAlphaBeta] that returns leaves the move
    history of the game exactly as it found it, whatever the depth, the
    window and the list of moves it is given. *)
Theorem search_restores_move_log (depth : nat) (moves : list Move)
  (alpha beta tm : Z) (nm : option Move) (s s' : GameState) (r : Found) :
  findMoveNegaMaxAlphaBeta AI_DEPTH CHECKMATE_SCORE STALEMATE_SCORE
    PIECE_VALUES PIECE_POSITION_SCORES depth moves alpha beta tm nm s
  = Some (r, s') ->
  move_log s' = move_log s.
Proof.
  assert (forall moves alpha beta tm nm,
            keeps move_log (search depth moves alpha beta tm nm)) as K.
  { clear. induction depth as [|d IH]; intros moves alpha beta tm nm.
    - unfold search. simpl. repeat keeps_step.
    - unfold search. rewrite findMoveNegaMaxAlphaBeta_S.
      apply search_loop_move_log. exact IH. }
  intros H. exact (K _ _ _ _ _ _ _ _ H).
Qed.

Lemma search_loop_threads
  (rec : list Move -> Z -> Z -> Z -> option Move -> M Found) :
  (forall moves alpha beta tm nm s r s',
     rec moves alpha beta tm nm s = Some (r, s') -> snd r = nm) ->
  forall moves max_score alpha beta tm nm s r s',
    search_loop rec false moves max_score alpha beta tm nm s = Some (r, s') ->
    snd r = nm.
Proof.
  intros Hrec moves.
  induction moves as [|move rest IH]; intros max_score alpha beta tm nm s r s' H.
  - injection H as <- _. reflexivity.
  - apply search_loop_inv in H.
    destruct H as (s1 & nms & s2 & rc & nmc & s3 & s4 & _ & _ & H3 & _ & H).
    apply Hrec in H3. simpl in H3. subst nmc.
    cbv zeta in H.
    destruct (- rc >? max_score); destruct (_ >=? _);
      first [ injection H as -> _; reflexivity | apply IH in H; exact H ].
Qed.

Lemma search_below_root_threads (depth : nat) :
  (depth < AI_DEPTH)%nat ->
  forall moves alpha beta tm nm s r s',
    search depth moves alpha beta tm nm s = Some (r, s') -> snd r = nm.
Proof.
  induction depth as [|d IH]; intros Hlt moves alpha beta tm nm s r s' H.
  - unfold search in H. simpl in H.
    apply bind_inv in H. destruct H as (sc & s1 & _ & H).
    injection H as <- _. reflexivity.
  - unfold search in H. rewrite findMoveNegaMaxAlphaBeta_S in H.
    replace (Nat.eqb (S d) AI_DEPTH) with false in H
      by (symmetry; apply Nat.eqb_neq; lia).
    eapply search_loop_threads; [|exact H].
    apply IH. lia.
Qed.

Lemma search_loop_root_choice
  (rec : list Move -> Z -> Z -> Z -> option Move -> M Found) :
  (forall moves alpha beta tm nm s r s',
     rec moves alpha beta tm nm s = Some (r, s') -> snd r = nm) ->
  forall moves max_score alpha beta tm nm s r s',
    search_loop rec true moves max_score alpha beta tm nm s = Some (r, s') ->
    snd r = nm \/ exists m, In m moves /\ snd r = Some m.
Proof.
  intros Hrec moves.
  induction moves as [|move rest IH]; intros max_score alpha beta tm nm s r s' H.
  - injection H as <- _. left. reflexivity.
  - apply search_loop_inv in H.
    destruct H as (s1 & nms & s2 & rc & nmc & s3 & s4 & _ & _ & H3 & _ & H).
    apply Hrec in H3. simpl in H3. subst nmc.
    cbv zeta in H.
    destruct (_ >=? _).
    + injection H as -> _. simpl.
      destruct (_ >? _); [right|left; reflexivity].
      exists move. split; [left|]; reflexivity.
    + apply IH in H. destruct H as [H|(m & Hin & H)].
      * rewrite H. destruct (_ >? _); [right|left; reflexivity].
        exists move. split; [left|]; reflexivity.
      * right. exists m. split; [right; exact Hin|exact H].
Qed.

Lemma search_root_choice (depth : nat) :
  depth = AI_DEPTH ->
  forall moves alpha beta tm nm s r s',
    search depth moves alpha beta tm nm s = Some (r, s') ->
    snd r = nm \/ exists m, In m moves /\ snd r = Some m.
Proof.
  intros ED moves alpha beta tm nm s r s' H. destruct depth as [|d].
  - unfold search in H. simpl in H.
    apply bind_inv in H. destruct H as (sc & s1 & _ & H).
    injection H as <- _. left. reflexivity.
  - unfold search in H. rewrite findMoveNegaMaxAlphaBeta_S in H.
    replace (Nat.eqb (S d) AI_DEPTH) with true in H
      by (symmetry; apply Nat.eqb_eq; exact ED).
    eapply search_loop_root_choice; [|exact H].
    intros moves' alpha' beta' tm' nm' t r' t' Hr.
    eapply (@search_below_root_threads d); [lia|exact Hr].
Qed.

(** X7: the move [findBestMove] puts on the queue is either [None] or one
    of the moves of the list it was given. *)
Theorem findBestMove_returns_listed_move (shuffled : list Move)
  (s s' : GameState) (res : option Move) :
  findBestMove AI_DEPTH CHECKMATE_SCORE STALEMATE_SCORE PIECE_VALUES
    PIECE_POSITION_SCORES shuffled s = Some (res, s') ->
  res = None \/ exists m, In m shuffled /\ res = Some m.
Proof.
  intros H. unfold findBestMove in H.
  apply bind_inv in H. destruct H as (wtm & s1 & _ & H).
  apply bind_inv in H. destruct H as (r & s2 & H2 & H).
  injection H as <- _.
  eapply (@search_root_choice AI_DEPTH eq_refl). exact H2.
Qed.

Lemma search_loop_lower_bound
  (rec : list Move -> Z -> Z -> Z -> option Move -> M Found)
  (at_root : bool) :
  forall moves max_score alpha beta tm nm s r s',
    search_loop rec at_root moves max_score alpha beta tm nm s
    = Some (r, s') ->
    max_score <= fst r.
Proof.
  intros moves.
  induction moves as [|move rest IH]; intros max_score alpha beta tm nm s r s' H.
  - injection H as <- _. simpl. lia.
  - apply search_loop_inv in H.
    destruct H as (s1 & nms & s2 & rc & nmc & s3 & s4 & _ & _ & _ & _ & H).
    cbv zeta in H.
    destruct (_ >=? _).
    + injection H as -> _. simpl.
      destruct (Z.gtb_spec (- rc) max_score); lia.
    + apply IH in H. destruct (Z.gtb_spec (- rc) max_score); lia.
Qed.

(** X8: at any depth above zero the score [findMoveNegaMaxAlphaBeta]
    returns is never below [-CHECKMATE_SCORE], and it is exactly
    [-CHECKMATE_SCORE] when the list of moves is empty, be the position a
    checkmate or a stalemate. *)
Theorem search_score_floor (d : nat) (moves : list Move)
  (alpha beta tm : Z) (nm : option Move) (s s' : GameState) (r : Found) :
  findMoveNegaMaxAlphaBeta AI_DEPTH CHECKMATE_SCORE STALEMATE_SCORE
    PIECE_VALUES PIECE_POSITION_SCORES (S d) moves alpha beta tm nm s
  = Some (r, s') ->
  - CHECKMATE_SCORE <= fst r
  /\ (moves = [] -> fst r = - CHECKMATE_SCORE /\ s' = s).
Proof.
  rewrite findMoveNegaMaxAlphaBeta_S. intros H. split.
  - eapply search_loop_lower_bound. exact H.
  - intros ->. injection H as <- <-. split; reflexivity.
Qed.

End SearchFacts.

(** The knight-check position, searched one ply deep. *)
Lemma search_restores_move_log_witness :
  exists r s',
    findMoveNegaMaxAlphaBeta 1 1000 0 example_values example_position_scores
      1 knight_check_moves (Z.opp 1000) 1000 1 None knight_check_root
    = Some (r, s')
    /\ move_log s' = move_log knight_check_root.
Proof.
  assert (exists r s',
            findMoveNegaMaxAlphaBeta 1 1000 0 example_values
              example_position_scores 1 knight_check_moves (Z.opp 1000)
              1000 1 None knight_check_root
            = Some (r, s')) as H
    by (vm_compute; eexists _, _; reflexivity).
  destruct H as (r & s' & E).
  exists r, s'. split; [exact E|].
  exact (@search_restores_move_log 1 1000 0 example_values
           example_position_scores 1%nat knight_check_moves (Z.opp 1000)
           1000 1 None knight_check_root s' r E).
Defined.

Lemma findBestMove_returns_listed_move_witness :
  exists res s',
    findBestMove 1 1000 0 example_values example_position_scores
      knight_check_moves knight_check_root
    = Some (res, s')
    /\ (res = None \/ exists m, In m knight_check_moves /\ res = Some m).
Proof.
  assert (exists res s',
            findBestMove 1 1000 0 example_values example_position_scores
              knight_check_moves knight_check_root
            = Some (res, s')) as H
    by (vm_compute; eexists _, _; reflexivity).
  destruct H as (res & s' & E).
  exists res, s'. split; [exact E|].
  exact (@findBestMove_returns_listed_move 1 1000 0 example_values
           example_position_scores knight_check_moves knight_check_root s'
           res E).
Defined.

Lemma search_score_floor_witness :
  exists r s',
    findMoveNegaMaxAlphaBeta 1 1000 0 example_values example_position_scores
      1 knight_check_moves (Z.opp 1000) 1000 1 None knight_check_root
    = Some (r, s')
    /\ - 1000 <= fst r.
Proof.
  assert (exists r s',
            findMoveNegaMaxAlphaBeta 1 1000 0 example_values
              example_position_scores 1 knight_check_moves (Z.opp 1000)
              1000 1 None knight_check_root
            = Some (r, s')) as H
    by (vm_compute; eexists _, _; reflexivity).
  destruct H as (r & s' & E).
  exists r, s'. split; [exact E|].
  exact (proj1 (@search_score_floor 1 1000 0 example_values
                  example_position_scores 0%nat knight_check_moves
                  (Z.opp 1000) 1000 1 None knight_check_root s' r E)).
Defined.

(** ** [ChessEngine.py]: what [makeMove] and [undoMove] do to the logs *)

Lemma updateCastleRights_on_no_more (move : Move) (cr : CastleRights) :
  no_more_rights cr (updateCastleRights_on move cr).
Proof.
  unfold updateCastleRights_on, no_more_rights.
  repeat match goal with
         | |- context [if ?b then _ else _] => destruct b
         end; cbn; repeat split; intros; congruence.
Qed.

Lemma rights_write_rights (s : GameState) (cr cr' : CastleRights) :
  rights s = Some cr -> rights (write_rights s cr') = Some cr'.
Proof.
  unfold rights, write_rights.
  destruct (current_castling_rights s) as [c|i]; [reflexivity|].
  cbn. revert i. induction (castle_rights_log s) as [|x l IH]; intros [|i] H;
    try discriminate; cbn in *; auto.
Qed.

Lemma rights_append (s : GameState) (cr x : CastleRights) :
  rights s = Some cr ->
  rights (set_castling s (current_castling_rights s)
            (castle_rights_log s ++ [x])) = Some cr.
Proof.
  unfold rights. cbn.
  destruct (current_castling_rights s) as [c|i]; [auto|].
  intros H. rewrite nth_error_app1; [exact H|].
  apply nth_error_Some. congruence.
Qed.

Lemma length_set_nth {A : Type} (l : list A) (k : nat) (v : A) :
  length (Py.set_nth l k v) = length l.
Proof.
  revert k. induction l as [|x l IH]; intros [|k]; cbn; auto.
Qed.

Lemma length_write_rights (s : GameState) (cr : CastleRights) :
  length (castle_rights_log (write_rights s cr))
  = length (castle_rights_log s).
Proof.
  unfold write_rights. destruct (current_castling_rights s); cbn;
    [reflexivity | apply length_set_nth].
Qed.

(** The steps of [makeMove] up to the en-passant capture. *)
Lemma makeMove_inv (move : Move) (s s' : GameState) :
  makeMove move s = Some (tt, s') ->
  exists s7 s8 s9 cr,
    move_log s7 = move_log s ++ [move]
    /\ enpassant_possible_log s7 = enpassant_possible_log s
    /\ current_castling_rights s7 = current_castling_rights s
    /\ castle_rights_log s7 = castle_rights_log s
    /\ (if is_castle_move move then
          if end_col move - start_col move =? 2
          then rook_hop (end_row move) (end_col move + 1) (end_col move - 1)
          else rook_hop (end_row move) (end_col move - 2) (end_col move + 1)
        else ret tt)
         (set_enpassant s7
            (if Ascii.eqb (snd (piece_moved move)) PAWN
                && (Z.abs (start_row move - end_row move) =? 2)
             then Some ((start_row move + end_row move) / 2, start_col move)
             else None)
            (enpassant_possible_log s7))
       = Some (tt, s8)
    /\ s9 = set_enpassant s8 (enpassant_possible s8)
              (enpassant_possible_log s8 ++ [enpassant_possible s8])
    /\ rights s9 = Some cr
    /\ s' = (let t := write_rights s9 (updateCastleRights_on move cr) in
             set_castling t (current_castling_rights t)
               (castle_rights_log t ++ [updateCastleRights_on move cr])).
Proof.
  intros H. unfold makeMove in H.
  apply bind_inv in H. destruct H as ([] & s1 & H1 & H).
  apply bind_inv in H. destruct H as ([] & s2 & H2 & H).
  apply bind_inv in H. destruct H as ([] & s3 & H3 & H).
  apply bind_inv in H. destruct H as ([] & s4 & H4 & H).
  apply bind_inv in H. destruct H as ([] & s5 & H5 & H).
  apply bind_inv in H. destruct H as ([] & s6 & H6 & H).
  apply bind_inv in H. destruct H as ([] & s7 & H7 & H).
  cbv zeta in H.
  apply bind_inv in H. destruct H as ([] & s7' & H8 & H).
  apply bind_inv in H. destruct H as ([] & s8 & H9 & H).
  apply bind_inv in H. destruct H as ([] & s9 & H10 & H).
  apply bind_inv in H. destruct H as ([] & s10 & H11 & H).
  apply bind_inv in H. destruct H as (cr' & s11 & H12 & H).
  injection H8 as <-. injection H10 as <-.
  unfold updateCastleRights in H11.
  apply bind_inv in H11. destruct H11 as (cr & s9' & H11 & H13).
  apply reads_inv in H11. destruct H11 as [-> H11].
  injection H13 as <-.
  apply reads_inv in H12. destruct H12 as [-> H12].
  rewrite (@rights_write_rights _ _ _ H11) in H12. injection H12 as <-.
  injection H as <-.
  assert (forall X (f : GameState -> X),
             (forall t b, f (set_board t b) = f t) ->
             (forall t v, f (set_white_to_move t v) = f t) ->
             (forall t v, f (set_white_king_location t v) = f t) ->
             (forall t v, f (set_black_king_location t v) = f t) ->
             f s7 = f s3) as K.
  { intros X f Fb Ft Fw Fk.
    assert (f s4 = f s3) as E4 by (injection H4 as <-; apply Ft).
    assert (f s5 = f s4) as E5.
    { destruct (piece_eqb _ _); [injection H5 as <-; apply Fw|].
      destruct (piece_eqb _ _); [injection H5 as <-; apply Fk|].
      injection H5 as <-. reflexivity. }
    assert (f s6 = f s5) as E6.
    { destruct (is_pawn_promotion move); [|injection H6 as <-; reflexivity].
      eapply (keeps_write_board f); [exact Fb|exact H6]. }
    assert (f s7 = f s6) as E7.
    { destruct (is_enpassant_move move); [|injection H7 as <-; reflexivity].
      eapply (keeps_write_board f); [exact Fb|exact H7]. }
    congruence. }
  assert (forall X (f : GameState -> X),
             (forall t b, f (set_board t b) = f t) ->
             f s2 = f s) as K0.
  { intros X f Fb.
    rewrite (@keeps_write_board X f _ _ _ Fb _ _ _ H2).
    exact (@keeps_write_board X f _ _ _ Fb _ _ _ H1). }
  injection H3 as <-.
  exists s7, s8, (set_enpassant s8 (enpassant_possible s8)
                    (enpassant_possible_log s8 ++ [enpassant_possible s8])),
    cr.
  split.
  { rewrite (K _ move_log) by reflexivity. cbn.
    rewrite (K0 _ move_log) by reflexivity. reflexivity. }
  split.
  { rewrite (K _ enpassant_possible_log) by reflexivity. cbn.
    apply (K0 _ enpassant_possible_log). reflexivity. }
  split.
  { rewrite (K _ current_castling_rights) by reflexivity. cbn.
    apply (K0 _ current_castling_rights). reflexivity. }
  split.
  { rewrite (K _ castle_rights_log) by reflexivity. cbn.
    apply (K0 _ castle_rights_log). reflexivity. }
  split; [exact H9|]. split; [reflexivity|]. split; [exact H11|].
  reflexivity.
Qed.

Lemma keeps_castle_hop {X : Type} (f : GameState -> X) (move : Move) :
  (forall t b, f (set_board t b) = f t) ->
  keeps f
    (if is_castle_move move then
       if end_col move - start_col move =? 2
       then rook_hop (end_row move) (end_col move + 1) (end_col move - 1)
       else rook_hop (end_row move) (end_col move - 2) (end_col move + 1)
     else ret tt).
Proof.
  intros Fb. unfold rook_hop, read_board.
  repeat first [ apply keeps_write_board; exact Fb | keeps_step ].
Qed.

(** X9: [makeMove] sets the en-passant square exactly after a pawn has
    moved two rows, to the square it passed over, clears it after every
    other move, and appends the new value to the en-passant log. *)
Theorem makeMove_enpassant (move : Move) (s s' : GameState) :
  makeMove move s = Some (tt, s') ->
  enpassant_possible s'
  = (if Ascii.eqb (snd (piece_moved move)) PAWN
        && (Z.abs (start_row move - end_row move) =? 2)
     then Some ((start_row move + end_row move) / 2, start_col move)
     else None)
  /\ enpassant_possible_log s'
     = enpassant_possible_log s ++ [enpassant_possible s'].
Proof.
  intros H. apply makeMove_inv in H.
  destruct H as (s7 & s8 & s9 & cr & _ & E7 & _ & _ & H8 & -> & _ & ->).
  cbv zeta.
  pose proof (@keeps_castle_hop _ enpassant_possible move
                (fun _ _ => eq_refl) _ _ _ H8) as P.
  pose proof (@keeps_castle_hop _ enpassant_possible_log move
                (fun _ _ => eq_refl) _ _ _ H8) as L.
  cbn in P, L.
  assert (forall t c, enpassant_possible (write_rights t c)
                      = enpassant_possible t) as W1
      by (intros t c; unfold write_rights;
          destruct (current_castling_rights t); reflexivity).
  assert (forall t c, enpassant_possible_log (write_rights t c)
                      = enpassant_possible_log t) as W2
      by (intros t c; unfold write_rights;
          destruct (current_castling_rights t); reflexivity).
  cbn. rewrite W1, W2. cbn. rewrite P, L, E7. split; reflexivity.
Qed.

Lemma makeMove_enpassant_witness :
  exists m s',
    move_of GameState_init (6, 4) (4, 4) = Some m
    /\ makeMove m GameState_init = Some (tt, s')
    /\ enpassant_possible s' = Some (5, 4)
    /\ enpassant_possible_log s' = [None; Some (5, 4)].
Proof.
  assert (exists m s',
            move_of GameState_init (6, 4) (4, 4) = Some m
            /\ makeMove m GameState_init = Some (tt, s')) as H
    by (vm_compute; eexists _, _; split; reflexivity).
  destruct H as (m & s' & Em & E).
  exists m, s'. split; [exact Em|]. split; [exact E|].
  destruct (@makeMove_enpassant m GameState_init s' E) as [P L].
  injection Em as <-. split; [exact P|].
  rewrite L, P. reflexivity.
Defined.

(** X10: [makeMove] never turns a castling right on, and the rights in
    force when it returns are the ones it has put last on the rights
    log. *)
Theorem makeMove_never_grants_rights (move : Move) (s s' : GameState)
  (cr : CastleRights) :
  rights s = Some cr ->
  makeMove move s = Some (tt, s') ->
  exists cr',
    rights s' = Some cr'
    /\ Py.last (castle_rights_log s') = Some cr'
    /\ no_more_rights cr cr'.
Proof.
  intros R H. apply makeMove_inv in H.
  destruct H as (s7 & s8 & s9 & cr0 & _ & _ & C7 & L7 & H8 & -> & R9 & ->).
  assert (rights s8 = Some cr) as R8.
  { rewrite (@keeps_castle_hop _ rights move (fun _ _ => eq_refl) _ _ _ H8).
    unfold rights in *. cbn. rewrite C7, L7. exact R. }
  assert (cr0 = cr) as -> by (unfold rights in *; cbn in R9; congruence).
  exists (updateCastleRights_on move cr). cbv zeta. split.
  - apply rights_append. eapply rights_write_rights. exact R9.
  - split; [|apply updateCastleRights_on_no_more].
    cbn [castle_rights_log set_castling].
    unfold Py.last, Py.get.
    rewrite length_app. cbn [length].
    replace ((0 <=? -1) && _) with false by reflexivity.
    match goal with
    | |- context [(?a <=? -1) && (-1 <? 0)] =>
        replace ((a <=? -1) && (-1 <? 0)) with true
          by (symmetry; apply andb_true_iff; split;
              [apply Z.leb_le; lia | reflexivity])
    end.
    replace (Z.to_nat (-1 + Z.of_nat (length (castle_rights_log
               (write_rights _ (updateCastleRights_on move cr))) + 1)))
      with (length (castle_rights_log
               (write_rights
                  (set_enpassant s8 (enpassant_possible s8)
                     (enpassant_possible_log s8 ++ [enpassant_possible s8]))
                  (updateCastleRights_on move cr)))) by lia.
    rewrite nth_error_app2 by lia. rewrite Nat.sub_diag. reflexivity.
Qed.

Lemma makeMove_never_grants_rights_witness :
  exists m s' cr',
    move_of GameState_init (6, 4) (4, 4) = Some m
    /\ makeMove m GameState_init = Some (tt, s')
    /\ rights s' = Some cr'
    /\ Py.last (castle_rights_log s') = Some cr'
    /\ no_more_rights (mkCastleRights true true true true) cr'.
Proof.
  assert (exists m s',
            move_of GameState_init (6, 4) (4, 4) = Some m
            /\ makeMove m GameState_init = Some (tt, s')) as H
    by (vm_compute; eexists _, _; split; reflexivity).
  destruct H as (m & s' & Em & E).
  destruct (@makeMove_never_grants_rights m GameState_init s'
              (mkCastleRights true true true true) eq_refl E)
    as (cr' & H1 & H2 & H3).
  exists m, s', cr'. auto.
Defined.

(** The steps of [undoMove] when there is a move to take back. *)
Lemma undoMove_inv (s s' : GameState) (l : list Move) (m : Move) :
  move_log s = l ++ [m] ->
  undoMove s = Some (tt, s') ->
  exists x eplog y crlog,
    move_log s' = l
    /\ enpassant_possible_log s = eplog ++ [x]
    /\ enpassant_possible_log s' = eplog
    /\ Py.last eplog = Some (enpassant_possible s')
    /\ castle_rights_log s = crlog ++ [y]
    /\ castle_rights_log s' = crlog
    /\ crlog <> []
    /\ current_castling_rights s' = LogCell (length crlog - 1)
    /\ white_to_move s' = negb (white_to_move s)
    /\ checkmate s' = false /\ stalemate s' = false.
Proof.
  intros E H. unfold undoMove in H. rewrite E, pop_app in H.
  unfold undo_popped in H.
  apply bind_inv in H. destruct H as ([] & s1 & H1 & H).
  apply bind_inv in H. destruct H as ([] & s2 & H2 & H).
  apply bind_inv in H. destruct H as ([] & s3 & H3 & H).
  apply bind_inv in H. destruct H as ([] & s4 & H4 & H).
  apply bind_inv in H. destruct H as ([] & s5 & H5 & H).
  apply bind_inv in H. destruct H as ([] & s6 & H6 & H).
  apply bind_inv in H. destruct H as (eplog & s7 & H7 & H).
  apply bind_inv in H. destruct H as (ep & s8 & H8 & H).
  apply bind_inv in H. destruct H as ([] & s9 & H9 & H).
  apply bind_inv in H. destruct H as ([] & s10 & H10 & H).
  apply bind_inv in H. destruct H as ([] & s11 & H11 & H).
  injection H as <-. injection H1 as <-. injection H9 as <-.
  apply reads_inv in H7. destruct H7 as [E7 H7]. subst s7.
  destruct (Py.pop (enpassant_possible_log s6)) as [[x eplog']|] eqn:Ep;
    [|discriminate].
  injection H7 as ->. apply pop_inv in Ep.
  unfold lift in H8. destruct (Py.last eplog) as [ep'|] eqn:El; [|discriminate].
  injection H8 as E8 E8'. subst ep' s8.
  unfold restore_castle_rights in H10.
  apply bind_inv in H10. destruct H10 as (crlog & s9 & H10 & H12).
  apply reads_inv in H10. destruct H10 as [E10 H10]. subst s9.
  cbn [castle_rights_log set_enpassant] in H10.
  destruct (Py.pop (castle_rights_log s6)) as [[y crlog']|] eqn:Ec;
    [|discriminate].
  injection H10 as ->. apply pop_inv in Ec.
  assert (crlog <> []) as Hne by (destruct crlog; [discriminate H12|discriminate]).
  assert (s10 = set_castling (set_enpassant s6 ep eplog)
                  (LogCell (length crlog - 1)) crlog) as ->.
  { destruct crlog; [discriminate H12|]. injection H12 as <-. reflexivity. }
  assert (forall X (f : GameState -> X),
             (forall t b, f (set_board t b) = f t) ->
             (forall t v, f (set_white_king_location t v) = f t) ->
             (forall t v, f (set_black_king_location t v) = f t) ->
             f s6 = f s4) as K.
  { intros X f Fb Fw Fk.
    assert (f s5 = f s4) as E5.
    { destruct (piece_eqb _ _); [injection H5 as <-; apply Fw|].
      destruct (piece_eqb _ _); [injection H5 as <-; apply Fk|].
      injection H5 as <-. reflexivity. }
    assert (f s6 = f s5) as E6.
    { destruct (is_enpassant_move m); [|injection H6 as <-; reflexivity].
      apply bind_inv in H6. destruct H6 as ([] & t & H6 & H6').
      rewrite (@keeps_write_board X f _ _ _ Fb _ _ _ H6').
      exact (@keeps_write_board X f _ _ _ Fb _ _ _ H6). }
    congruence. }
  assert (forall X (f : GameState -> X),
             (forall t b, f (set_board t b) = f t) ->
             f s3 = f (set_move_log s l)) as K0.
  { intros X f Fb.
    rewrite (@keeps_write_board X f _ _ _ Fb _ _ _ H3).
    exact (@keeps_write_board X f _ _ _ Fb _ _ _ H2). }
  injection H4 as <-.
  assert (forall X (f : GameState -> X),
             (forall t b, f (set_board t b) = f t) ->
             f s11 = f (set_castling (set_enpassant s6 ep eplog)
                          (LogCell (length crlog - 1)) crlog)) as K1.
  { intros X f Fb.
    assert (keeps f
              (if is_castle_move m then
                 if end_col m - start_col m =? 2
                 then rook_hop (end_row m) (end_col m - 1) (end_col m + 1)
                 else rook_hop (end_row m) (end_col m + 1) (end_col m - 2)
               else ret tt)) as KH.
    { unfold rook_hop, read_board.
      repeat first [ apply keeps_write_board; exact Fb | keeps_step ]. }
    exact (KH _ _ _ H11). }
  exists x, eplog, y, crlog.
  split.
  { cbn. rewrite (K1 _ move_log) by reflexivity. cbn.
    rewrite (K _ move_log) by reflexivity. cbn.
    rewrite (K0 _ move_log) by reflexivity. reflexivity. }
  split.
  { rewrite <- Ep. rewrite (K _ enpassant_possible_log) by reflexivity. cbn.
    rewrite (K0 _ enpassant_possible_log) by reflexivity. reflexivity. }
  split.
  { cbn. rewrite (K1 _ enpassant_possible_log) by reflexivity. reflexivity. }
  split.
  { cbn. rewrite (K1 _ enpassant_possible) by reflexivity. exact El. }
  split.
  { rewrite <- Ec. rewrite (K _ castle_rights_log) by reflexivity. cbn.
    rewrite (K0 _ castle_rights_log) by reflexivity. reflexivity. }
  split.
  { cbn. rewrite (K1 _ castle_rights_log) by reflexivity. reflexivity. }
  split; [exact Hne|].
  split.
  { cbn. rewrite (K1 _ current_castling_rights) by reflexivity. reflexivity. }
  split.
  { cbn. rewrite (K1 _ white_to_move) by reflexivity. cbn.
    rewrite (K _ white_to_move) by reflexivity. cbn.
    rewrite (K0 _ white_to_move) by reflexivity. reflexivity. }
  split; reflexivity.
Qed.

Lemma list_ends {A : Type} (l : list A) :
  l <> [] -> exists l' x, l = l' ++ [x].
Proof.
  intros H. destruct (exists_last H) as (l' & x & E). eauto.
Qed.

Lemma last_app {A : Type} (l : list A) (x : A) :
  Py.last (l ++ [x]) = Some x.
Proof.
  unfold Py.last, Py.get. rewrite length_app. cbn [length].
  replace ((0 <=? -1) && _) with false by reflexivity.
  replace ((- Z.of_nat (length l + 1) <=? -1) && (-1 <? 0)) with true
    by (symmetry; apply andb_true_iff; split;
        [apply Z.leb_le; lia | reflexivity]).
  replace (Z.to_nat (-1 + Z.of_nat (length l + 1))) with (length l) by lia.
  rewrite nth_error_app2 by lia. rewrite Nat.sub_diag. reflexivity.
Qed.

(** X11: [undoMove], when there is a move to take back, removes the last
    entry of each of the three logs, flips the side to move, makes the
    en-passant square the new last entry of its log, makes the rights in
    force the new last entry of the rights log, and clears both terminal
    flags. *)
Theorem undoMove_pops_and_resets (s s' : GameState) :
  move_log s <> [] ->
  undoMove s = Some (tt, s') ->
  move_log s' = removelast (move_log s)
  /\ enpassant_possible_log s' = removelast (enpassant_possible_log s)
  /\ castle_rights_log s' = removelast (castle_rights_log s)
  /\ white_to_move s' = negb (white_to_move s)
  /\ Py.last (enpassant_possible_log s') = Some (enpassant_possible s')
  /\ rights s' = Py.last (castle_rights_log s')
  /\ checkmate s' = false /\ stalemate s' = false.
Proof.
  intros Hne H. destruct (@list_ends _ _ Hne) as (l & m & E).
  destruct (@undoMove_inv _ _ _ _ E H)
    as (x & eplog & y & crlog & H1 & H2 & H3 & H4 & H5 & H6 & H7 & H8 & H9
        & H10 & H11).
  rewrite E, H2, H5, !removelast_last.
  repeat (split; [assumption|]).
  split; [rewrite H3; exact H4|].
  split; [|split; assumption].
  unfold rights. rewrite H8, H6.
  destruct (@list_ends _ _ H7) as (c' & z & ->).
  rewrite last_app, length_app. cbn [length].
  replace (length c' + 1 - 1)%nat with (length c') by lia.
  rewrite nth_error_app2 by lia. rewrite Nat.sub_diag. reflexivity.
Qed.

Lemma undoMove_pops_and_resets_witness :
  exists m s1 s2,
    move_of GameState_init (6, 4) (4, 4) = Some m
    /\ makeMove m GameState_init = Some (tt, s1)
    /\ undoMove s1 = Some (tt, s2)
    /\ move_log s2 = removelast (move_log s1)
    /\ rights s2 = Py.last (castle_rights_log s2).
Proof.
  assert (exists m s1 s2,
            move_of GameState_init (6, 4) (4, 4) = Some m
            /\ makeMove m GameState_init = Some (tt, s1)
            /\ undoMove s1 = Some (tt, s2)
            /\ move_log s1 = [m]) as H
    by (vm_compute; eexists _, _, _; repeat split; reflexivity).
  destruct H as (m & s1 & s2 & Em & E1 & E2 & El).
  assert (move_log s1 <> []) as Hne by (rewrite El; discriminate).
  destruct (@undoMove_pops_and_resets s1 s2 Hne E2)
    as (H1 & _ & _ & _ & _ & H6 & _).
  exists m, s1, s2. auto.
Defined.

(** X12: each of the three methods that change the game state keeps the
    two logs one entry longer than the move history, which is how
    [__init__] builds them. *)
Theorem logs_stay_in_step (s s' : GameState) (move : Move) :
  logs_in_step s ->
  makeMove move s = Some (tt, s')
  \/ undoMove s = Some (tt, s')
  \/ (exists moves, getValidMoves s = Some (moves, s')) ->
  logs_in_step s'.
Proof.
  unfold logs_in_step. intros [He Hc] [H|[H|[moves H]]].
  - apply makeMove_inv in H.
    destruct H as (s7 & s8 & s9 & cr & M7 & E7 & _ & L7 & H8 & -> & _ & ->).
    pose proof (@keeps_castle_hop _ move_log move (fun _ _ => eq_refl)
                  _ _ _ H8) as P1.
    pose proof (@keeps_castle_hop _ enpassant_possible_log move
                  (fun _ _ => eq_refl) _ _ _ H8) as P2.
    pose proof (@keeps_castle_hop _ castle_rights_log move
                  (fun _ _ => eq_refl) _ _ _ H8) as P3.
    cbn in P1, P2, P3. cbv zeta.
    assert (forall t c, move_log (write_rights t c) = move_log t) as W1
      by (intros t c; unfold write_rights;
          destruct (current_castling_rights t); reflexivity).
    assert (forall t c, enpassant_possible_log (write_rights t c)
                        = enpassant_possible_log t) as W2
      by (intros t c; unfold write_rights;
          destruct (current_castling_rights t); reflexivity).
    cbn [move_log enpassant_possible_log castle_rights_log set_castling].
    rewrite W1, W2, !length_app, length_write_rights. cbn.
    rewrite P1, P2, P3, M7, E7, L7, !length_app. cbn. lia.
  - destruct (move_log s) as [|m0 l0] eqn:E.
    + unfold undoMove in H. rewrite E in H. cbn in H.
      injection H as <-. rewrite E. auto.
    + assert (move_log s <> []) as Hne by (rewrite E; discriminate).
      destruct (@list_ends _ _ Hne) as (l & m & El).
      destruct (@undoMove_inv _ _ _ _ El H)
        as (x & eplog & y & crlog & H1 & H2 & H3 & _ & H5 & H6 & _).
      rewrite <- E, El, H2, H5, !length_app in *. cbn in *.
      rewrite H1, H3, H6. lia.
  - rewrite (getValidMoves_move_log _ H).
    assert (keeps enpassant_possible_log getValidMoves
            /\ keeps (fun t => length (castle_rights_log t)) getValidMoves)
      as [K1 K2].
    { unfold getValidMoves. split.
      - apply keeps_bind; [keeps_step|]. intros temp.
        apply keeps_bind; [apply untouched_generate_moves; reflexivity|].
        intros mv. apply keeps_bind.
        + destruct mv; simpl; [|keeps_step].
          apply keeps_bind; [apply untouched_inCheck; reflexivity|].
          intros attacked. repeat keeps_step.
        + intros []. repeat keeps_step.
      - apply keeps_bind; [keeps_step|]. intros temp.
        apply keeps_bind; [apply untouched_generate_moves; reflexivity|].
        intros mv. apply keeps_bind.
        + destruct mv; simpl; [|keeps_step].
          apply keeps_bind; [apply untouched_inCheck; reflexivity|].
          intros attacked. repeat keeps_step.
        + intros []. repeat keeps_step. }
    rewrite (K1 _ _ _ H). pose proof (K2 _ _ _ H) as K. cbn in K.
    rewrite K. auto.
Qed.

Lemma logs_stay_in_step_witness :
  exists m s',
    move_of GameState_init (6, 4) (4, 4) = Some m
    /\ makeMove m GameState_init = Some (tt, s')
    /\ logs_in_step s'.
Proof.
  assert (exists m s',
            move_of GameState_init (6, 4) (4, 4) = Some m
            /\ makeMove m GameState_init = Some (tt, s')) as H
    by (vm_compute; eexists _, _; split; reflexivity).
  destruct H as (m & s' & Em & E).
  exists m, s'. split; [exact Em|]. split; [exact E|].
  apply (@logs_stay_in_step GameState_init s' m).
  - split; reflexivity.
  - left. exact E.
Defined.

(** ** [ChessEngine.py]: a move made and taken back *)

Lemma nth_error_set_nth_eq {A : Type} (l : list A) (k : nat) (v : A) :
  (k < length l)%nat -> nth_error (Py.set_nth l k v) k = Some v.
Proof.
  revert k. induction l as [|x l IH]; intros [|k] H; cbn in *;
    try lia; auto. apply IH. lia.
Qed.

Lemma nth_error_set_nth_neq {A : Type} (l : list A) (k k' : nat) (v : A) :
  k <> k' -> nth_error (Py.set_nth l k v) k' = nth_error l k'.
Proof.
  revert k k'. induction l as [|x l IH]; intros [|k] [|k'] H; cbn;
    try reflexivity; try congruence. apply IH. congruence.
Qed.

Lemma set_nth_set_nth {A : Type} (l : list A) (k : nat) (v w : A) :
  Py.set_nth (Py.set_nth l k v) k w = Py.set_nth l k w.
Proof.
  revert k. induction l as [|x l IH]; intros [|k]; cbn; try reflexivity.
  rewrite IH. reflexivity.
Qed.

Lemma set_nth_id {A : Type} (l : list A) (k : nat) (v : A) :
  nth_error l k = Some v -> Py.set_nth l k v = l.
Proof.
  revert k. induction l as [|x l IH]; intros [|k] H; cbn in *;
    try discriminate.
  - congruence.
  - rewrite IH by exact H. reflexivity.
Qed.

Lemma set_nth_comm {A : Type} (l : list A) (k k' : nat) (v w : A) :
  k <> k' ->
  Py.set_nth (Py.set_nth l k v) k' w = Py.set_nth (Py.set_nth l k' w) k v.
Proof.
  revert k k'. induction l as [|x l IH]; intros [|k] [|k'] H; cbn;
    try reflexivity; try congruence. rewrite IH by congruence. reflexivity.
Qed.

Lemma nth_error_in_range {A : Type} (l : list A) (k : nat) (x : A) :
  nth_error l k = Some x -> (k < length l)%nat.
Proof.
  intros H. apply nth_error_Some. congruence.
Qed.

Lemma cell_put_same (b : Board) (R C : nat) (p v : Piece) :
  cell b R C = Some p -> cell (put b R C v) R C = Some v.
Proof.
  unfold cell, put. destruct (nth_error b R) as [row|] eqn:E; [|discriminate].
  intros H. rewrite nth_error_set_nth_eq by (eapply nth_error_in_range; eauto).
  apply nth_error_set_nth_eq. eapply nth_error_in_range; eauto.
Qed.

Lemma cell_put_other (b : Board) (R C R' C' : nat) (v : Piece) :
  (R, C) <> (R', C') -> cell (put b R C v) R' C' = cell b R' C'.
Proof.
  unfold cell, put. intros H.
  destruct (nth_error b R) as [row|] eqn:E; [|reflexivity].
  destruct (Nat.eq_dec R R') as [<-|N].
  - rewrite nth_error_set_nth_eq by (eapply nth_error_in_range; eauto).
    rewrite E. apply nth_error_set_nth_neq. congruence.
  - rewrite nth_error_set_nth_neq by exact N. reflexivity.
Qed.

Lemma put_put (b : Board) (R C : nat) (v w : Piece) :
  put (put b R C v) R C w = put b R C w.
Proof.
  unfold put. destruct (nth_error b R) as [row|] eqn:E; [|rewrite E; auto].
  rewrite nth_error_set_nth_eq by (eapply nth_error_in_range; eauto).
  rewrite set_nth_set_nth, set_nth_set_nth. reflexivity.
Qed.

Lemma put_id (b : Board) (R C : nat) (p : Piece) :
  cell b R C = Some p -> put b R C p = b.
Proof.
  unfold cell, put. destruct (nth_error b R) as [row|] eqn:E; [|discriminate].
  intros H. rewrite (@set_nth_id _ _ _ _ H). apply set_nth_id. exact E.
Qed.

Lemma put_comm (b : Board) (R C R' C' : nat) (v w : Piece) :
  (R, C) <> (R', C') ->
  put (put b R C v) R' C' w = put (put b R' C' w) R C v.
Proof.
  intros H. unfold put.
  destruct (Nat.eq_dec R R') as [<-|N].
  - destruct (nth_error b R) as [row|] eqn:E.
    + rewrite !nth_error_set_nth_eq by (eapply nth_error_in_range; eauto).
      rewrite !set_nth_set_nth. f_equal. apply set_nth_comm. congruence.
    + rewrite E. reflexivity.
  - destruct (nth_error b R) as [row|] eqn:E;
      destruct (nth_error b R') as [row'|] eqn:E';
      rewrite ?nth_error_set_nth_neq by congruence;
      rewrite ?E, ?E'; try reflexivity.
    apply set_nth_comm. exact N.
Qed.

Lemma get_nonneg {A : Type} (l : list A) (i : Z) :
  0 <= i -> Py.get l i = nth_error l (Z.to_nat i).
Proof.
  intros H. unfold Py.get.
  replace (0 <=? i) with true by (symmetry; apply Z.leb_le; exact H).
  cbn [andb].
  destruct (Z.ltb_spec i (Z.of_nat (length l))) as [L|L]; [reflexivity|].
  replace ((- Z.of_nat (length l) <=? i) && (i <? 0)) with false
    by (symmetry; apply andb_false_iff; right; apply Z.ltb_ge; exact H).
  symmetry. apply nth_error_None. lia.
Qed.

Lemma set_nonneg {A : Type} (l : list A) (i : Z) (x v : A) :
  0 <= i -> nth_error l (Z.to_nat i) = Some x ->
  Py.set l i v = Some (Py.set_nth l (Z.to_nat i) v).
Proof.
  intros H E. apply nth_error_in_range in E. unfold Py.set.
  replace ((0 <=? i) && (i <? Z.of_nat (length l))) with true; [reflexivity|].
  symmetry. apply andb_true_iff. split; [apply Z.leb_le|apply Z.ltb_lt]; lia.
Qed.

Lemma board_get_cell (b : Board) (r c : Z) :
  0 <= r -> 0 <= c -> board_get b r c = cell b (Z.to_nat r) (Z.to_nat c).
Proof.
  intros Hr Hc. unfold board_get, cell. rewrite (@get_nonneg _ _ _ Hr).
  destruct (nth_error b (Z.to_nat r)); [|reflexivity].
  apply get_nonneg. exact Hc.
Qed.

Lemma board_set_put (b : Board) (r c : Z) (p v : Piece) :
  0 <= r -> 0 <= c -> cell b (Z.to_nat r) (Z.to_nat c) = Some p ->
  board_set b r c v = Some (put b (Z.to_nat r) (Z.to_nat c) v).
Proof.
  intros Hr Hc. unfold board_set, cell, put. rewrite (@get_nonneg _ _ _ Hr).
  destruct (nth_error b (Z.to_nat r)) as [row|] eqn:E; [|discriminate].
  intros H. rewrite (@set_nonneg _ _ _ _ v Hc H). apply (@set_nonneg _ _ _ _ _ Hr E).
Qed.

Lemma cell_put_valid (b : Board) (R C R' C' : nat) (p v : Piece) :
  cell b R' C' = Some p -> exists q, cell (put b R C v) R' C' = Some q.
Proof.
  intros H. destruct (Nat.eq_dec R R') as [<-|N].
  - destruct (Nat.eq_dec C C') as [<-|N'].
    + exists v. eapply cell_put_same. exact H.
    + exists p. rewrite cell_put_other by congruence. exact H.
  - exists p. rewrite cell_put_other by congruence. exact H.
Qed.

Lemma bind_step {A B : Type} (c : M A) (k : A -> M B) (s s1 : GameState)
  (a : A) :
  c s = Some (a, s1) -> bind c k s = k a s1.
Proof.
  intros H. unfold bind. rewrite H. reflexivity.
Qed.

Lemma write_board_step (s : GameState) (row col : Z) (v : Piece)
  (b' : Board) :
  board_set (board s) row col v = Some b' ->
  write_board row col v s = Some (tt, set_board s b').
Proof.
  intros H. unfold write_board. rewrite H. reflexivity.
Qed.

(** [makeMove] on a move that is neither a castle nor an en-passant
    capture, given the boards its assignments produce. *)
Lemma makeMove_ordinary (m : Move) (s : GameState) (b1 b2 b3 : Board)
  (cr : CastleRights) :
  is_enpassant_move m = false ->
  is_castle_move m = false ->
  board_set (board s) (start_row m) (start_col m) EMPTY_SQUARE = Some b1 ->
  board_set b1 (end_row m) (end_col m) (piece_moved m) = Some b2 ->
  (if is_pawn_promotion m
   then board_set b2 (end_row m) (end_col m) (fst (piece_moved m), QUEEN)
   else Some b2) = Some b3 ->
  rights s = Some cr ->
  exists s1,
    makeMove m s = Some (tt, s1)
    /\ board s1 = b3
    /\ white_to_move s1 = negb (white_to_move s)
    /\ move_log s1 = move_log s ++ [m]
    /\ white_king_location s1
       = (if piece_eqb (piece_moved m) (WHITE_COLOR, KING)
          then (end_row m, end_col m) else white_king_location s)
    /\ black_king_location s1
       = (if piece_eqb (piece_moved m) (WHITE_COLOR, KING)
          then black_king_location s
          else if piece_eqb (piece_moved m) (BLACK_COLOR, KING)
               then (end_row m, end_col m) else black_king_location s)
    /\ enpassant_possible_log s1
       = enpassant_possible_log s ++ [enpassant_possible s1]
    /\ length (castle_rights_log s1) = S (length (castle_rights_log s)).
Proof.
  intros Hep Hca H1 H2 H3 R.
  unfold makeMove.
  rewrite (@bind_step _ _ _ _ _ _ _ (@write_board_step _ _ _ _ _ H1)).
  rewrite (@bind_step _ _ _ _ _ _ _
             (@write_board_step (set_board s b1) _ _ _ _ H2)).
  rewrite (@bind_step _ _ (modify _) _ _ _ tt eq_refl).
  unfold flip_turn.
  rewrite (@bind_step _ _ (modify _) _ _ _ tt eq_refl).
  rewrite Hep, Hca. cbv zeta.
  assert (forall t,
            rights t = Some cr ->
            exists t',
              (updateCastleRights m ;;;
               cr0 <- reads rights ;;
               modify (fun s0 => set_castling s0 (current_castling_rights s0)
                                   (castle_rights_log s0 ++ [cr0]))) t
              = Some (tt, t')
              /\ board t' = board t
              /\ white_to_move t' = white_to_move t
              /\ move_log t' = move_log t
              /\ white_king_location t' = white_king_location t
              /\ black_king_location t' = black_king_location t
              /\ enpassant_possible t' = enpassant_possible t
              /\ enpassant_possible_log t' = enpassant_possible_log t
              /\ length (castle_rights_log t')
                 = S (length (castle_rights_log t))) as U.
  { intros t Rt. unfold updateCastleRights, bind, reads, lift, modify.
    rewrite Rt. rewrite (@rights_write_rights _ _ _ Rt).
    eexists. split; [reflexivity|].
    unfold write_rights. destruct (current_castling_rights t); cbn;
      rewrite length_app, ?length_set_nth; cbn;
      repeat split; try reflexivity; lia. }
  destruct (piece_eqb (piece_moved m) (WHITE_COLOR, KING));
    [|destruct (piece_eqb (piece_moved m) (BLACK_COLOR, KING))];
    rewrite (@bind_step _ _ _ _ _ _ tt eq_refl);
    (destruct (is_pawn_promotion m);
     [ match goal with
       | |- context [bind (write_board _ _ _) _ ?t] =>
           rewrite (@bind_step _ _ _ _ _ _ _
                      (@write_board_step t _ _ _ _ H3))
       end
     | injection H3 as <-; rewrite (@bind_step _ _ (ret tt) _ _ _ tt eq_refl) ]);
    rewrite (@bind_step _ _ (ret tt) _ _ _ tt eq_refl);
    rewrite (@bind_step _ _ (modify _) _ _ _ tt eq_refl);
    rewrite (@bind_step _ _ (ret tt) _ _ _ tt eq_refl);
    rewrite (@bind_step _ _ (modify _) _ _ _ tt eq_refl);
    match goal with
    | |- exists s1, _ ?t = _ /\ _ =>
        destruct (U t R) as (t' & Ht & U1 & U2 & U3 & U4 & U5 & U6 & U7 & U8)
    end;
    exists t'; (split; [exact Ht|]);
    rewrite U1, U2, U3, U4, U5, U6, U7, U8; cbn;
    repeat split; reflexivity.
Qed.

Lemma reads_step {A : Type} (f : GameState -> option A) (s : GameState)
  (a : A) :
  f s = Some a -> reads f s = Some (a, s).
Proof.
  intros H. unfold reads, lift. rewrite H. reflexivity.
Qed.

Lemma restore_castle_rights_step (t : GameState) :
  (2 <= length (castle_rights_log t))%nat ->
  exists crlog,
    restore_castle_rights t
    = Some (tt, set_castling t (LogCell (length crlog - 1)) crlog)
    /\ S (length crlog) = length (castle_rights_log t).
Proof.
  intros H.
  destruct (@list_ends _ (castle_rights_log t)) as (crlog & y & E).
  { destruct (castle_rights_log t); [cbn in H; lia|discriminate]. }
  exists crlog. rewrite E, length_app in *. cbn in H.
  split; [|cbn; lia].
  unfold restore_castle_rights.
  rewrite (@bind_step _ _ _ _ _ t crlog).
  - destruct crlog; [cbn in H; lia|reflexivity].
  - apply reads_step. rewrite E, pop_app. reflexivity.
Qed.

(** [undoMove] on such a move, given the boards its assignments
    produce. *)
Lemma undoMove_ordinary (m : Move) (s1 : GameState) (l : list Move)
  (eplog : list (option Square)) (x ep : option Square) (b4 b5 : Board) :
  is_enpassant_move m = false ->
  is_castle_move m = false ->
  move_log s1 = l ++ [m] ->
  board_set (board s1) (start_row m) (start_col m) (piece_moved m) = Some b4 ->
  board_set b4 (end_row m) (end_col m) (piece_captured m) = Some b5 ->
  enpassant_possible_log s1 = eplog ++ [x] ->
  Py.last eplog = Some ep ->
  (2 <= length (castle_rights_log s1))%nat ->
  exists s2,
    undoMove s1 = Some (tt, s2)
    /\ board s2 = b5
    /\ white_to_move s2 = negb (white_to_move s1)
    /\ move_log s2 = l
    /\ white_king_location s2
       = (if piece_eqb (piece_moved m) (WHITE_COLOR, KING)
          then (start_row m, start_col m) else white_king_location s1)
    /\ black_king_location s2
       = (if piece_eqb (piece_moved m) (WHITE_COLOR, KING)
          then black_king_location s1
          else if piece_eqb (piece_moved m) (BLACK_COLOR, KING)
               then (start_row m, start_col m) else black_king_location s1)
    /\ enpassant_possible s2 = ep
    /\ enpassant_possible_log s2 = eplog
    /\ S (length (castle_rights_log s2)) = length (castle_rights_log s1).
Proof.
  intros Hep Hca E H4 H5 El Elast Hc.
  unfold undoMove. rewrite E, pop_app. unfold undo_popped.
  rewrite (@bind_step _ _ (modify _) _ _ _ tt eq_refl).
  rewrite (@bind_step _ _ _ _ _ _ _
             (@write_board_step (set_move_log s1 l) _ _ _ _ H4)).
  rewrite (@bind_step _ _ _ _ _ _ _
             (@write_board_step (set_board (set_move_log s1 l) b4)
                _ _ _ _ H5)).
  unfold flip_turn.
  rewrite (@bind_step _ _ (modify _) _ _ _ tt eq_refl).
  rewrite Hep, Hca.
  destruct (piece_eqb (piece_moved m) (WHITE_COLOR, KING));
    [|destruct (piece_eqb (piece_moved m) (BLACK_COLOR, KING))];
    rewrite (@bind_step _ _ _ _ _ _ tt eq_refl);
    rewrite (@bind_step _ _ (ret tt) _ _ _ tt eq_refl);
    match goal with
    | |- context [bind (reads ?f) _ ?t] =>
        rewrite (@bind_step _ _ (reads f) _ t t eplog)
          by (apply reads_step; cbn; rewrite El, pop_app; reflexivity)
    end;
    unfold lift at 1; rewrite Elast;
    rewrite (@bind_step _ _ _ _ _ _ ep eq_refl);
    rewrite (@bind_step _ _ (modify _) _ _ _ tt eq_refl);
    match goal with
    | |- context [bind restore_castle_rights _ ?t] =>
        destruct (@restore_castle_rights_step t Hc) as (crlog & Hr & Hl);
        rewrite (@bind_step _ _ _ _ _ _ _ Hr)
    end;
    rewrite (@bind_step _ _ (ret tt) _ _ _ tt eq_refl);
    (eexists; split; [reflexivity|]); cbn in Hl |- *;
    repeat split; try reflexivity; exact Hl.
Qed.

Lemma Move_init_captured (st en : Square) (b : Board) (ca : bool) (m : Move) :
  Move_init st en b false ca = Some m ->
  board_get b (fst en) (snd en) = Some (piece_captured m).
Proof.
  unfold Move_init.
  destruct (board_get b (fst st) (snd st)) as [pm|]; [|discriminate].
  destruct (board_get b (fst en) (snd en)) as [pc|]; [|discriminate].
  intros E. injection E as <-. reflexivity.
Qed.

Lemma make_undo_board (b : Board) (S0 S1 E0 E1 : nat) (pm pc v : Piece) :
  cell b S0 S1 = Some pm ->
  cell b E0 E1 = Some pc ->
  put (put (put (put b S0 S1 EMPTY_SQUARE) E0 E1 v) S0 S1 pm) E0 E1 pc = b.
Proof.
  intros Hs He.
  destruct (Nat.eq_dec S0 E0) as [<-|N0];
    [destruct (Nat.eq_dec S1 E1) as [<-|N1]|].
  - rewrite !put_put. apply put_id. exact He.
  - rewrite (@put_comm _ S0 E1 S0 S1) by congruence.
    rewrite !put_put, (put_id _ _ _ Hs). apply put_id. exact He.
  - rewrite (@put_comm _ E0 E1 S0 S1) by congruence.
    rewrite !put_put, (put_id _ _ _ Hs). apply put_id. exact He.
Qed.

(** X13: a move between two squares of the board that is neither a castle
    nor an en-passant capture (it may capture, and it may promote) can
    always be made and taken back, and this restores the board, the side
    to move, the move history, both king squares, the en-passant square
    and its log, and the length of the rights log.  What is needed of
    the state: a moved king stands on the square recorded for it, the
    en-passant square is the last entry of its log, and the rights in
    force exist together with a non-empty rights log. *)
Theorem makeMove_undoMove_restores (s : GameState) (st en : Square)
  (m : Move) (cr : CastleRights) :
  on_board (fst st) (snd st) = true ->
  on_board (fst en) (snd en) = true ->
  Move_init st en (board s) false false = Some m ->
  (piece_eqb (piece_moved m) (WHITE_COLOR, KING) = true ->
   white_king_location s = st) ->
  (piece_eqb (piece_moved m) (BLACK_COLOR, KING) = true ->
   black_king_location s = st) ->
  Py.last (enpassant_possible_log s) = Some (enpassant_possible s) ->
  castle_rights_log s <> [] ->
  rights s = Some cr ->
  exists s1 s2,
    makeMove m s = Some (tt, s1)
    /\ undoMove s1 = Some (tt, s2)
    /\ board s2 = board s
    /\ white_to_move s2 = white_to_move s
    /\ move_log s2 = move_log s
    /\ white_king_location s2 = white_king_location s
    /\ black_king_location s2 = black_king_location s
    /\ enpassant_possible s2 = enpassant_possible s
    /\ enpassant_possible_log s2 = enpassant_possible_log s
    /\ length (castle_rights_log s2) = length (castle_rights_log s).
Proof.
  intros Hs He Hm Hw Hb Hep Hlog R.
  pose proof (@Move_init_captured _ _ _ _ _ Hm) as Hpc.
  apply Move_init_fields in Hm.
  destruct Hm as (E1 & E2 & E3 & E4 & E5 & E6 & Hpm & _ & _).
  apply on_board_bounds in Hs, He.
  rewrite <- E1, <- E2 in Hs, Hpm. rewrite <- E3, <- E4 in He, Hpc.
  destruct Hs as [Hs0 Hs1]. destruct He as [He0 He1].
  rewrite board_get_cell in Hpm, Hpc by lia.
  set (S0 := Z.to_nat (start_row m)) in *.
  set (S1 := Z.to_nat (start_col m)) in *.
  set (E0 := Z.to_nat (end_row m)) in *.
  set (E1' := Z.to_nat (end_col m)) in *.
  set (v := if is_pawn_promotion m then (fst (piece_moved m), QUEEN)
            else piece_moved m).
  set (b1 := put (board s) S0 S1 EMPTY_SQUARE).
  set (b2 := put b1 E0 E1' (piece_moved m)).
  set (b3 := put b1 E0 E1' v).
  assert (board_set (board s) (start_row m) (start_col m) EMPTY_SQUARE
          = Some b1) as B1 by (eapply board_set_put; [lia|lia|exact Hpm]).
  destruct (@cell_put_valid (board s) S0 S1 E0 E1' _ EMPTY_SQUARE Hpc)
    as (q1 & Q1).
  assert (board_set b1 (end_row m) (end_col m) (piece_moved m) = Some b2)
    as B2 by (eapply board_set_put; [lia|lia|exact Q1]).
  assert ((if is_pawn_promotion m
           then board_set b2 (end_row m) (end_col m)
                  (fst (piece_moved m), QUEEN)
           else Some b2) = Some b3) as B3.
  { unfold b3, v. destruct (is_pawn_promotion m); [|reflexivity].
    rewrite <- (put_put b1 E0 E1' (piece_moved m)).
    eapply board_set_put; [lia|lia|]. eapply cell_put_same. exact Q1. }
  destruct (@makeMove_ordinary m s b1 b2 b3 cr E5 E6 B1 B2 B3 R)
    as (s1 & M & F1 & F2 & F3 & F4 & F5 & F6 & F7).
  destruct (@cell_put_valid (board s) S0 S1 S0 S1 _ EMPTY_SQUARE Hpm)
    as (q2 & Q2).
  destruct (@cell_put_valid b1 E0 E1' S0 S1 _ v Q2) as (q3 & Q3).
  destruct (@cell_put_valid b1 E0 E1' E0 E1' _ v Q1) as (q4 & Q4).
  destruct (@cell_put_valid b3 S0 S1 E0 E1' _ (piece_moved m) Q4)
    as (q5 & Q5).
  assert (board_set (board s1) (start_row m) (start_col m) (piece_moved m)
          = Some (put b3 S0 S1 (piece_moved m))) as B4
      by (rewrite F1; eapply board_set_put; [lia|lia|exact Q3]).
  assert (board_set (put b3 S0 S1 (piece_moved m)) (end_row m) (end_col m)
            (piece_captured m)
          = Some (put (put b3 S0 S1 (piece_moved m)) E0 E1'
                    (piece_captured m))) as B5
      by (eapply board_set_put; [lia|lia|exact Q5]).
  assert (2 <= length (castle_rights_log s1))%nat as Hc.
  { rewrite F7. destruct (castle_rights_log s); [congruence|cbn; lia]. }
  destruct (@undoMove_ordinary m s1 (move_log s) (enpassant_possible_log s)
              (enpassant_possible s1) (enpassant_possible s) _ _
              E5 E6 F3 B4 B5 F6 Hep Hc)
    as (s2 & U & G1 & G2 & G3 & G4 & G5 & G6 & G7 & G8).
  exists s1, s2. split; [exact M|]. split; [exact U|].
  split.
  { rewrite G1. unfold b3, b1. apply make_undo_board; assumption. }
  split; [rewrite G2, F2; apply negb_involutive|].
  split; [exact G3|].
  split.
  { rewrite G4, F4.
    destruct (piece_eqb (piece_moved m) (WHITE_COLOR, KING));
      [|reflexivity].
    rewrite (Hw eq_refl). destruct st. cbn in *. congruence. }
  split.
  { rewrite G5, F5.
    destruct (piece_eqb (piece_moved m) (WHITE_COLOR, KING));
      [reflexivity|].
    destruct (piece_eqb (piece_moved m) (BLACK_COLOR, KING));
      [|reflexivity].
    rewrite (Hb eq_refl). destruct st. cbn in *. congruence. }
  split; [exact G6|]. split; [exact G7|].
  rewrite F7 in G8. lia.
Qed.

Lemma makeMove_undoMove_restores_witness :
  exists m s1 s2,
    move_of GameState_init (7, 6) (5, 5) = Some m
    /\ makeMove m GameState_init = Some (tt, s1)
    /\ undoMove s1 = Some (tt, s2)
    /\ board s2 = board GameState_init
    /\ move_log s2 = move_log GameState_init.
Proof.
  assert (exists m, Move_init (7, 6) (5, 5) (board GameState_init)
                      false false = Some m) as [m Em]
      by (eexists; reflexivity).
  destruct (@makeMove_undoMove_restores GameState_init (7, 6) (5, 5) m
              (mkCastleRights true true true true)
              eq_refl eq_refl Em)
    as (s1 & s2 & H1 & H2 & H3 & _ & H5 & _).
  - injection Em as <-. discriminate.
  - injection Em as <-. discriminate.
  - reflexivity.
  - discriminate.
  - reflexivity.
  - exists m, s1, s2. auto.
Defined.

(** ** [ChessEngine.py]: castling and en-passant moves made and taken back *)

Lemma rook_hop_step (t : GameState) (row from_col to_col : Z) (b' : Board) :
  board_hop (board t) row from_col to_col = Some b' ->
  rook_hop row from_col to_col t = Some (tt, set_board t b').
Proof.
  unfold board_hop, rook_hop, read_board. intros H.
  destruct (board_get (board t) row from_col) as [v|] eqn:Hv; [|discriminate].
  destruct (board_set (board t) row to_col v) as [b1|] eqn:H1;
    [|discriminate].
  rewrite (@bind_step _ _ _ _ t t v) by (apply reads_step; exact Hv).
  rewrite (@bind_step _ _ _ _ _ _ _ (@write_board_step t _ _ _ _ H1)).
  exact (@write_board_step (set_board t b1) _ _ _ _ H).
Qed.

(** [makeMove], given the boards its assignments produce. *)
Lemma makeMove_forward (m : Move) (s : GameState) (b1 b2 b3 b4 b5 : Board)
  (cr : CastleRights) :
  board_set (board s) (start_row m) (start_col m) EMPTY_SQUARE = Some b1 ->
  board_set b1 (end_row m) (end_col m) (piece_moved m) = Some b2 ->
  (if is_pawn_promotion m
   then board_set b2 (end_row m) (end_col m) (fst (piece_moved m), QUEEN)
   else Some b2) = Some b3 ->
  (if is_enpassant_move m
   then board_set b3 (start_row m) (end_col m) EMPTY_SQUARE
   else Some b3) = Some b4 ->
  (if is_castle_move m then
     if end_col m - start_col m =? 2
     then board_hop b4 (end_row m) (end_col m + 1) (end_col m - 1)
     else board_hop b4 (end_row m) (end_col m - 2) (end_col m + 1)
   else Some b4) = Some b5 ->
  rights s = Some cr ->
  exists s1,
    makeMove m s = Some (tt, s1)
    /\ board s1 = b5
    /\ white_to_move s1 = negb (white_to_move s)
    /\ move_log s1 = move_log s ++ [m]
    /\ white_king_location s1
       = (if piece_eqb (piece_moved m) (WHITE_COLOR, KING)
          then (end_row m, end_col m) else white_king_location s)
    /\ black_king_location s1
       = (if piece_eqb (piece_moved m) (WHITE_COLOR, KING)
          then black_king_location s
          else if piece_eqb (piece_moved m) (BLACK_COLOR, KING)
               then (end_row m, end_col m) else black_king_location s)
    /\ enpassant_possible_log s1
       = enpassant_possible_log s ++ [enpassant_possible s1]
    /\ length (castle_rights_log s1) = S (length (castle_rights_log s)).
Proof.
  intros H1 H2 H3 H4 H5 R.
  unfold makeMove.
  rewrite (@bind_step _ _ _ _ _ _ _ (@write_board_step _ _ _ _ _ H1)).
  rewrite (@bind_step _ _ _ _ _ _ _
             (@write_board_step (set_board s b1) _ _ _ _ H2)).
  rewrite (@bind_step _ _ (modify _) _ _ _ tt eq_refl).
  unfold flip_turn.
  rewrite (@bind_step _ _ (modify _) _ _ _ tt eq_refl).
  cbv zeta.
  assert (forall t,
            rights t = Some cr ->
            exists t',
              (updateCastleRights m ;;;
               cr0 <- reads rights ;;
               modify (fun s0 => set_castling s0 (current_castling_rights s0)
                                   (castle_rights_log s0 ++ [cr0]))) t
              = Some (tt, t')
              /\ board t' = board t
              /\ white_to_move t' = white_to_move t
              /\ move_log t' = move_log t
              /\ white_king_location t' = white_king_location t
              /\ black_king_location t' = black_king_location t
              /\ enpassant_possible t' = enpassant_possible t
              /\ enpassant_possible_log t' = enpassant_possible_log t
              /\ length (castle_rights_log t')
                 = S (length (castle_rights_log t))) as U.
  { intros t Rt. unfold updateCastleRights, bind, reads, lift, modify.
    rewrite Rt. rewrite (@rights_write_rights _ _ _ Rt).
    eexists. split; [reflexivity|].
    unfold write_rights. destruct (current_castling_rights t); cbn;
      rewrite length_app, ?length_set_nth; cbn;
      repeat split; try reflexivity; lia. }
  destruct (piece_eqb (piece_moved m) (WHITE_COLOR, KING));
    [|destruct (piece_eqb (piece_moved m) (BLACK_COLOR, KING))];
    rewrite (@bind_step _ _ _ _ _ _ tt eq_refl);
    (destruct (is_pawn_promotion m);
     [ match goal with
       | |- context [bind (write_board _ _ _) _ ?t] =>
           rewrite (@bind_step _ _ _ _ _ _ _
                      (@write_board_step t _ _ _ _ H3))
       end
     | injection H3 as <-; rewrite (@bind_step _ _ (ret tt) _ _ _ tt eq_refl) ]);
    (destruct (is_enpassant_move m);
     [ match goal with
       | |- context [bind (write_board _ _ _) _ ?t] =>
           rewrite (@bind_step _ _ _ _ _ _ _
                      (@write_board_step t _ _ _ _ H4))
       end
     | injection H4 as <-; rewrite (@bind_step _ _ (ret tt) _ _ _ tt eq_refl) ]);
    rewrite (@bind_step _ _ (modify _) _ _ _ tt eq_refl);
    (destruct (is_castle_move m);
     [ destruct (end_col m - start_col m =? 2);
       match goal with
       | |- context [bind (rook_hop _ _ _) _ ?t] =>
           rewrite (@bind_step _ _ _ _ _ _ _ (@rook_hop_step t _ _ _ _ H5))
       end
     | injection H5 as <-; rewrite (@bind_step _ _ (ret tt) _ _ _ tt eq_refl) ]);
    rewrite (@bind_step _ _ (modify _) _ _ _ tt eq_refl);
    match goal with
    | |- exists s1, _ ?t = _ /\ _ =>
        destruct (U t R) as (t' & Ht & U1 & U2 & U3 & U4 & U5 & U6 & U7 & U8)
    end;
    exists t'; (split; [exact Ht|]);
    rewrite U1, U2, U3, U4, U5, U6, U7, U8; cbn;
    repeat split; reflexivity.
Qed.

(** [undoMove], given the boards its assignments produce. *)
Lemma undoMove_forward (m : Move) (s1 : GameState) (l : list Move)
  (eplog : list (option Square)) (x ep : option Square)
  (c1 c2 c3 c4 : Board) :
  move_log s1 = l ++ [m] ->
  board_set (board s1) (start_row m) (start_col m) (piece_moved m) = Some c1 ->
  board_set c1 (end_row m) (end_col m) (piece_captured m) = Some c2 ->
  (if is_enpassant_move m then
     match board_set c2 (end_row m) (end_col m) EMPTY_SQUARE with
     | Some c => board_set c (start_row m) (end_col m) (piece_captured m)
     | None => None
     end
   else Some c2) = Some c3 ->
  (if is_castle_move m then
     if end_col m - start_col m =? 2
     then board_hop c3 (end_row m) (end_col m - 1) (end_col m + 1)
     else board_hop c3 (end_row m) (end_col m + 1) (end_col m - 2)
   else Some c3) = Some c4 ->
  enpassant_possible_log s1 = eplog ++ [x] ->
  Py.last eplog = Some ep ->
  (2 <= length (castle_rights_log s1))%nat ->
  exists s2,
    undoMove s1 = Some (tt, s2)
    /\ board s2 = c4
    /\ white_to_move s2 = negb (white_to_move s1)
    /\ move_log s2 = l
    /\ white_king_location s2
       = (if piece_eqb (piece_moved m) (WHITE_COLOR, KING)
          then (start_row m, start_col m) else white_king_location s1)
    /\ black_king_location s2
       = (if piece_eqb (piece_moved m) (WHITE_COLOR, KING)
          then black_king_location s1
          else if piece_eqb (piece_moved m) (BLACK_COLOR, KING)
               then (start_row m, start_col m) else black_king_location s1)
    /\ enpassant_possible s2 = ep
    /\ enpassant_possible_log s2 = eplog
    /\ S (length (castle_rights_log s2)) = length (castle_rights_log s1).
Proof.
  intros E H1 H2 H3 H4 El Elast Hc.
  unfold undoMove. rewrite E, pop_app. unfold undo_popped.
  rewrite (@bind_step _ _ (modify _) _ _ _ tt eq_refl).
  rewrite (@bind_step _ _ _ _ _ _ _
             (@write_board_step (set_move_log s1 l) _ _ _ _ H1)).
  rewrite (@bind_step _ _ _ _ _ _ _
             (@write_board_step (set_board (set_move_log s1 l) c1)
                _ _ _ _ H2)).
  unfold flip_turn.
  rewrite (@bind_step _ _ (modify _) _ _ _ tt eq_refl).
  destruct (piece_eqb (piece_moved m) (WHITE_COLOR, KING));
    [|destruct (piece_eqb (piece_moved m) (BLACK_COLOR, KING))];
    rewrite (@bind_step _ _ _ _ _ _ tt eq_refl);
    (destruct (is_enpassant_move m);
     [ destruct (board_set c2 (end_row m) (end_col m) EMPTY_SQUARE)
         as [c|] eqn:Hc2; [|discriminate];
       match goal with
       | |- context [bind (bind (write_board ?r ?k ?v) ?f) ?g ?t] =>
           rewrite (@bind_step _ _ (bind (write_board r k v) f) g t
                      (set_board t c3) tt)
             by (rewrite (@bind_step _ _ _ _ _ _ _
                            (@write_board_step t _ _ _ _ Hc2));
                 exact (@write_board_step (set_board t c) _ _ _ _ H3))
       end
     | injection H3 as <-; rewrite (@bind_step _ _ (ret tt) _ _ _ tt eq_refl) ]);
    match goal with
    | |- context [bind (reads ?f) _ ?t] =>
        rewrite (@bind_step _ _ (reads f) _ t t eplog)
          by (apply reads_step; cbn; rewrite El, pop_app; reflexivity)
    end;
    unfold lift at 1; rewrite Elast;
    rewrite (@bind_step _ _ _ _ _ _ ep eq_refl);
    rewrite (@bind_step _ _ (modify _) _ _ _ tt eq_refl);
    match goal with
    | |- context [bind restore_castle_rights _ ?t] =>
        destruct (@restore_castle_rights_step t Hc) as (crlog & Hr & Hl);
        rewrite (@bind_step _ _ _ _ _ _ _ Hr)
    end;
    (destruct (is_castle_move m);
     [ destruct (end_col m - start_col m =? 2);
       match goal with
       | |- context [bind (rook_hop _ _ _) _ ?t] =>
           rewrite (@bind_step _ _ _ _ _ _ _ (@rook_hop_step t _ _ _ _ H4))
       end
     | injection H4 as <-; rewrite (@bind_step _ _ (ret tt) _ _ _ tt eq_refl) ]);
    (eexists; split; [reflexivity|]); cbn in Hl |- *;
    repeat split; try reflexivity; exact Hl.
Qed.

Lemma length_put (b : Board) (R C : nat) (v : Piece) :
  length (put b R C v) = length b.
Proof.
  unfold put. destruct (nth_error b R); [apply length_set_nth|reflexivity].
Qed.

Lemma cell_put_if (b : Board) (R C R' C' : nat) (v : Piece) :
  cell b R C <> None ->
  cell (put b R C v) R' C'
  = if ((R =? R') && (C =? C'))%nat then Some v else cell b R' C'.
Proof.
  intros H.
  destruct (Nat.eqb_spec R R') as [<-|N]; cbn [andb].
  - destruct (Nat.eqb_spec C C') as [<-|N'].
    + destruct (cell b R C) as [p|] eqn:E; [|congruence].
      eapply cell_put_same. exact E.
    + apply cell_put_other. congruence.
  - apply cell_put_other. congruence.
Qed.

Lemma valid_put (b : Board) (R C R' C' : nat) (v : Piece) :
  cell b R C <> None -> cell (put b R' C' v) R C <> None.
Proof.
  intros H. destruct (cell b R C) as [p|] eqn:E; [|congruence].
  destruct (@cell_put_valid b R' C' R C p v E) as (q & ->). discriminate.
Qed.

Lemma board_ext (b b' : Board) :
  length b' = length b ->
  (forall R C, cell b' R C = cell b R C) ->
  b' = b.
Proof.
  intros Hl Hc. apply nth_error_ext. intros R.
  destruct (nth_error b' R) as [row'|] eqn:E';
    destruct (nth_error b R) as [row|] eqn:E.
  - f_equal. apply nth_error_ext. intros C.
    specialize (Hc R C). unfold cell in Hc. rewrite E', E in Hc. exact Hc.
  - apply nth_error_in_range in E'. apply nth_error_None in E. lia.
  - apply nth_error_in_range in E. apply nth_error_None in E'. lia.
  - reflexivity.
Qed.

Lemma board_set_valid (b : Board) (r c : Z) (v : Piece) :
  0 <= r -> 0 <= c -> cell b (Z.to_nat r) (Z.to_nat c) <> None ->
  board_set b r c v = Some (put b (Z.to_nat r) (Z.to_nat c) v).
Proof.
  intros Hr Hc H.
  destruct (cell b (Z.to_nat r) (Z.to_nat c)) as [p|] eqn:E; [|congruence].
  eapply board_set_put; eauto.
Qed.

Lemma board_hop_put (b : Board) (r f t : Z) (v : Piece) :
  0 <= r -> 0 <= f -> 0 <= t ->
  cell b (Z.to_nat r) (Z.to_nat f) = Some v ->
  cell b (Z.to_nat r) (Z.to_nat t) <> None ->
  board_hop b r f t
  = Some (put (put b (Z.to_nat r) (Z.to_nat t) v) (Z.to_nat r) (Z.to_nat f)
            EMPTY_SQUARE).
Proof.
  intros Hr Hf Ht Hv Hto. unfold board_hop.
  rewrite board_get_cell by assumption. rewrite Hv.
  rewrite board_set_valid by assumption.
  apply board_set_valid; [assumption|assumption|].
  apply valid_put. congruence.
Qed.

Ltac cells :=
  repeat (rewrite cell_put_if by (repeat apply valid_put; congruence)).

(** X27: a castle move built by [Move.__init__] for a king, two columns to
    either side on its row, can be made and taken back without raising
    whenever the square the rook lands on (next to the king) is empty
    and the rook's square (three columns away on the kingside, four on
    the queenside) is on the board; [makeMove] followed by [undoMove]
    then restores the board, the side to move, the move history, both
    king locations, the en-passant square and its log, and the length of
    the rights log.  What is needed of the state is as for an ordinary
    move. *)
Theorem castle_make_undo_restores (s : GameState) (row col dc rf rt : Z)
  (m : Move) (cr : CastleRights) (rook : Piece) :
  (dc = 2 /\ rf = col + 3 /\ rt = col + 1)
  \/ (dc = -2 /\ rf = col - 4 /\ rt = col - 1) ->
  on_board row col = true ->
  on_board row (col + dc) = true ->
  on_board row rf = true ->
  Move_init (row, col) (row, col + dc) (board s) false true = Some m ->
  snd (piece_moved m) = KING ->
  board_get (board s) row rt = Some EMPTY_SQUARE ->
  board_get (board s) row rf = Some rook ->
  (piece_eqb (piece_moved m) (WHITE_COLOR, KING) = true ->
   white_king_location s = (row, col)) ->
  (piece_eqb (piece_moved m) (BLACK_COLOR, KING) = true ->
   black_king_location s = (row, col)) ->
  Py.last (enpassant_possible_log s) = Some (enpassant_possible s) ->
  castle_rights_log s <> [] ->
  rights s = Some cr ->
  exists s1 s2,
    makeMove m s = Some (tt, s1)
    /\ undoMove s1 = Some (tt, s2)
    /\ board s2 = board s
    /\ white_to_move s2 = white_to_move s
    /\ move_log s2 = move_log s
    /\ white_king_location s2 = white_king_location s
    /\ black_king_location s2 = black_king_location s
    /\ enpassant_possible s2 = enpassant_possible s
    /\ enpassant_possible_log s2 = enpassant_possible_log s
    /\ length (castle_rights_log s2) = length (castle_rights_log s).
Proof.
  intros Hdc Hs He Hf Hm Hking Hrt Hrf Hw Hb Hep Hlog R.
  pose proof (@Move_init_captured _ _ _ _ _ Hm) as Hpc.
  pose proof (@Move_init_promotion _ _ _ _ _ _ Hm) as Hpromo.
  apply Move_init_fields in Hm. cbn [fst snd] in Hm, Hpc.
  destruct Hm as (E1 & E2 & E3 & E4 & E5 & E6 & Hpm & _ & _).
  assert (is_pawn_promotion m = false) as Hnp.
  { destruct (is_pawn_promotion m); [|reflexivity].
    rewrite Hking in Hpromo. specialize (Hpromo eq_refl). discriminate. }
  apply on_board_bounds in Hs, He, Hf.
  assert (0 <= rt /\ rt <> col /\ rt <> col + dc /\ rt <> rf
          /\ rf <> col /\ rf <> col + dc /\ col <> col + dc) as D by lia.
  destruct D as (Ht0 & D1 & D2 & D3 & D4 & D5 & D6).
  rewrite board_get_cell in Hpm, Hpc, Hrt, Hrf by lia.
  set (b := board s) in *.
  set (R0 := Z.to_nat row) in *.
  set (C := Z.to_nat col) in *.
  set (Ce := Z.to_nat (col + dc)) in *.
  set (Ct := Z.to_nat rt) in *.
  set (Cf := Z.to_nat rf) in *.
  assert (Ct <> C /\ Ct <> Ce /\ Ct <> Cf /\ Cf <> C /\ Cf <> Ce /\ C <> Ce)
    as (N1 & N2 & N3 & N4 & N5 & N6).
  { unfold Ct, C, Ce, Cf. clear - Hs He Hf Ht0 D1 D2 D3 D4 D5 D6.
    repeat split; intros N; apply Z2Nat.inj in N; lia. }
  set (pm := piece_moved m) in *. set (pc := piece_captured m) in *.
  set (b2 := put (put b R0 C EMPTY_SQUARE) R0 Ce pm).
  set (b5 := put (put b2 R0 Ct rook) R0 Cf EMPTY_SQUARE).
  set (c2 := put (put b5 R0 C pm) R0 Ce pc).
  set (c4 := put (put c2 R0 Cf rook) R0 Ct EMPTY_SQUARE).
  assert (cell b R0 C <> None /\ cell b R0 Ce <> None
          /\ cell b R0 Ct <> None /\ cell b R0 Cf <> None)
    as (V1 & V2 & V3 & V4) by (repeat split; congruence).
  assert (forall x y : nat, x <> y -> (x =? y)%nat = false) as Neq
      by (intros x y Hxy; apply Nat.eqb_neq; exact Hxy).
  assert (board_set b (start_row m) (start_col m) EMPTY_SQUARE
          = Some (put b R0 C EMPTY_SQUARE)) as B1.
  { rewrite E1, E2. apply board_set_valid; [lia|lia|exact V1]. }
  assert (board_set (put b R0 C EMPTY_SQUARE) (end_row m) (end_col m) pm
          = Some b2) as B2.
  { rewrite E3, E4. apply board_set_valid; [lia|lia|].
    apply valid_put. exact V2. }
  assert ((if is_pawn_promotion m
           then board_set b2 (end_row m) (end_col m) (fst pm, QUEEN)
           else Some b2) = Some b2) as B3 by (rewrite Hnp; reflexivity).
  assert ((if is_enpassant_move m
           then board_set b2 (start_row m) (end_col m) EMPTY_SQUARE
           else Some b2) = Some b2) as B4 by (rewrite E5; reflexivity).
  assert ((if is_castle_move m then
             if end_col m - start_col m =? 2
             then board_hop b2 (end_row m) (end_col m + 1) (end_col m - 1)
             else board_hop b2 (end_row m) (end_col m - 2) (end_col m + 1)
           else Some b2) = Some b5) as B5.
  { rewrite E6, E2, E3, E4.
    assert (board_hop b2 row rf rt = Some b5) as Hhop.
    { apply board_hop_put; [lia|lia|lia| |].
      - unfold b2. fold R0 Cf. cells.
        rewrite (Neq _ _ (not_eq_sym N5)), (Neq _ _ (not_eq_sym N4)),
          !andb_false_r. exact Hrf.
      - fold R0 Ct. unfold b2. repeat apply valid_put. exact V3. }
    destruct Hdc as [(-> & -> & ->)|(-> & -> & ->)].
    - replace (col + 2 - col =? 2) with true by (symmetry; apply Z.eqb_eq; lia).
      replace (col + 2 + 1) with (col + 3) by lia.
      replace (col + 2 - 1) with (col + 1) by lia. exact Hhop.
    - replace (col + -2 - col =? 2) with false
        by (symmetry; apply Z.eqb_neq; lia).
      replace (col + -2 - 2) with (col - 4) by lia.
      replace (col + -2 + 1) with (col - 1) by lia. exact Hhop. }
  destruct (@makeMove_forward m s _ _ _ _ _ cr B1 B2 B3 B4 B5 R)
    as (s1 & M & F1 & F2 & F3 & F4 & F5 & F6 & F7).
  assert (board_set (board s1) (start_row m) (start_col m) pm
          = Some (put b5 R0 C pm)) as C1.
  { rewrite F1, E1, E2. apply board_set_valid; [lia|lia|].
    unfold b5, b2. repeat apply valid_put. exact V1. }
  assert (board_set (put b5 R0 C pm) (end_row m) (end_col m) pc = Some c2)
    as C2.
  { rewrite E3, E4. apply board_set_valid; [lia|lia|].
    unfold b5, b2. repeat apply valid_put. exact V2. }
  assert ((if is_enpassant_move m then
             match board_set c2 (end_row m) (end_col m) EMPTY_SQUARE with
             | Some c => board_set c (start_row m) (end_col m) pc
             | None => None
             end
           else Some c2) = Some c2) as C3 by (rewrite E5; reflexivity).
  assert ((if is_castle_move m then
             if end_col m - start_col m =? 2
             then board_hop c2 (end_row m) (end_col m - 1) (end_col m + 1)
             else board_hop c2 (end_row m) (end_col m + 1) (end_col m - 2)
           else Some c2) = Some c4) as C4.
  { rewrite E6, E2, E3, E4.
    assert (board_hop c2 row rt rf = Some c4) as Hhop.
    { apply board_hop_put; [lia|lia|lia| |].
      - fold R0 Ct. unfold c2, b5, b2. cells.
        rewrite (Neq _ _ (not_eq_sym N2)), (Neq _ _ (not_eq_sym N1)),
          (Neq _ _ (not_eq_sym N3)), !andb_false_r.
        rewrite !Nat.eqb_refl. reflexivity.
      - fold R0 Cf. unfold c2, b5, b2. repeat apply valid_put. exact V4. }
    destruct Hdc as [(-> & -> & ->)|(-> & -> & ->)].
    - replace (col + 2 - col =? 2) with true by (symmetry; apply Z.eqb_eq; lia).
      replace (col + 2 + 1) with (col + 3) by lia.
      replace (col + 2 - 1) with (col + 1) by lia. exact Hhop.
    - replace (col + -2 - col =? 2) with false
        by (symmetry; apply Z.eqb_neq; lia).
      replace (col + -2 - 2) with (col - 4) by lia.
      replace (col + -2 + 1) with (col - 1) by lia. exact Hhop. }
  assert (2 <= length (castle_rights_log s1))%nat as Hc.
  { rewrite F7. destruct (castle_rights_log s); [congruence|cbn; lia]. }
  destruct (@undoMove_forward m s1 (move_log s) (enpassant_possible_log s)
              (enpassant_possible s1) (enpassant_possible s) _ _ _ _
              F3 C1 C2 C3 C4 F6 Hep Hc)
    as (s2 & U & G1 & G2 & G3 & G4 & G5 & G6 & G7 & G8).
  exists s1, s2. split; [exact M|]. split; [exact U|].
  split.
  { rewrite G1. apply board_ext.
    - unfold c4, c2, b5, b2. rewrite !length_put. reflexivity.
    - intros R' C'. unfold c4, c2, b5, b2. cells.
      destruct (Nat.eqb_spec R0 R') as [<-|NR]; cbn [andb];
        [|reflexivity].
      destruct (Nat.eqb_spec Ct C') as [<-|X1];
        [symmetry; exact Hrt|].
      destruct (Nat.eqb_spec Cf C') as [<-|X2];
        [symmetry; exact Hrf|].
      destruct (Nat.eqb_spec Ce C') as [<-|X3];
        [symmetry; exact Hpc|].
      destruct (Nat.eqb_spec C C') as [<-|X4];
        [symmetry; exact Hpm|reflexivity]. }
  split; [rewrite G2, F2; apply negb_involutive|].
  split; [exact G3|].
  split.
  { rewrite G4, F4. fold pm.
    destruct (piece_eqb pm (WHITE_COLOR, KING)); [|reflexivity].
    rewrite (Hw eq_refl), E1, E2. reflexivity. }
  split.
  { rewrite G5, F5. fold pm.
    destruct (piece_eqb pm (WHITE_COLOR, KING)); [reflexivity|].
    destruct (piece_eqb pm (BLACK_COLOR, KING)); [|reflexivity].
    rewrite (Hb eq_refl), E1, E2. reflexivity. }
  split; [exact G6|]. split; [exact G7|].
  rewrite F7 in G8. injection G8 as G8. exact G8.
Qed.

(** White Ke1 and Rh1 against Ke8: castling short, made and taken
    back. *)
Lemma castle_make_undo_restores_witness :
  exists m s1 s2,
    Move_init (7, 4) (7, 6)
      (board (position [(7, 4, ("w", "K")); (7, 7, ("w", "R"));
                        (0, 4, ("b", "K"))] true (7, 4) (0, 4) None))
      false true = Some m
    /\ makeMove m
         (position [(7, 4, ("w", "K")); (7, 7, ("w", "R"));
                    (0, 4, ("b", "K"))] true (7, 4) (0, 4) None)
       = Some (tt, s1)
    /\ undoMove s1 = Some (tt, s2)
    /\ board s2
       = board (position [(7, 4, ("w", "K")); (7, 7, ("w", "R"));
                          (0, 4, ("b", "K"))] true (7, 4) (0, 4) None).
Proof.
  assert (exists m,
            Move_init (7, 4) (7, 4 + 2)
              (board (position [(7, 4, ("w", "K")); (7, 7, ("w", "R"));
                                (0, 4, ("b", "K"))] true (7, 4) (0, 4) None))
              false true = Some m) as [m Em]
      by (eexists; reflexivity).
  destruct (@castle_make_undo_restores
              (position [(7, 4, ("w", "K")); (7, 7, ("w", "R"));
                         (0, 4, ("b", "K"))] true (7, 4) (0, 4) None)
              7 4 2 7 5 m no_rights ("w", "R")
              (or_introl (conj eq_refl (conj eq_refl eq_refl)))
              eq_refl eq_refl eq_refl Em)
    as (s1 & s2 & H1 & H2 & H3 & _).
  - injection Em as <-. reflexivity.
  - reflexivity.
  - reflexivity.
  - intros _. reflexivity.
  - injection Em as <-. discriminate.
  - reflexivity.
  - discriminate.
  - reflexivity.
  - exists m, s1, s2. auto.
Defined.

(** X28: an en-passant move built by [Move.__init__] between two squares
    of the board in different rows and different columns, not flagged
    as a promotion, can be made and taken back without raising whenever
    its end square is empty and the square beside the pawn, in the
    pawn's row and the end column, holds the piece recorded as
    captured; [makeMove] followed by [undoMove] then restores the
    board, the side to move, the move history, both king locations, the
    en-passant square and its log, and the length of the rights log.
    What is needed of the state is as for an ordinary move. *)
Theorem enpassant_make_undo_restores (s : GameState) (st en : Square)
  (m : Move) (cr : CastleRights) :
  on_board (fst st) (snd st) = true ->
  on_board (fst en) (snd en) = true ->
  fst en <> fst st ->
  snd en <> snd st ->
  Move_init st en (board s) true false = Some m ->
  is_pawn_promotion m = false ->
  snd (piece_moved m) = PAWN ->
  board_get (board s) (fst en) (snd en) = Some EMPTY_SQUARE ->
  board_get (board s) (fst st) (snd en) = Some (piece_captured m) ->
  Py.last (enpassant_possible_log s) = Some (enpassant_possible s) ->
  castle_rights_log s <> [] ->
  rights s = Some cr ->
  exists s1 s2,
    makeMove m s = Some (tt, s1)
    /\ undoMove s1 = Some (tt, s2)
    /\ board s2 = board s
    /\ white_to_move s2 = white_to_move s
    /\ move_log s2 = move_log s
    /\ white_king_location s2 = white_king_location s
    /\ black_king_location s2 = black_king_location s
    /\ enpassant_possible s2 = enpassant_possible s
    /\ enpassant_possible_log s2 = enpassant_possible_log s
    /\ length (castle_rights_log s2) = length (castle_rights_log s).
Proof.
  intros Hs He Hrow Hcol Hm Hnp Hpawn Hen Hpc Hep Hlog R.
  apply Move_init_fields in Hm.
  destruct Hm as (E1 & E2 & E3 & E4 & E5 & E6 & Hpm & _ & _).
  destruct st as [sr sc], en as [er ec]. cbn [fst snd] in *.
  assert (piece_eqb (piece_moved m) (WHITE_COLOR, KING) = false
          /\ piece_eqb (piece_moved m) (BLACK_COLOR, KING) = false)
    as [K1 K2].
  { unfold piece_eqb. cbn [fst snd]. rewrite Hpawn.
    rewrite !andb_false_r. split; reflexivity. }
  apply on_board_bounds in Hs, He.
  rewrite board_get_cell in Hpm, Hen, Hpc by lia.
  set (b := board s) in *.
  set (Rs := Z.to_nat sr) in *. set (Cs := Z.to_nat sc) in *.
  set (Re := Z.to_nat er) in *. set (Ce := Z.to_nat ec) in *.
  assert (Re <> Rs /\ Ce <> Cs) as (N1 & N2) by (unfold Re, Rs, Ce, Cs; lia).
  set (pm := piece_moved m) in *. set (pc := piece_captured m) in *.
  set (b2 := put (put b Rs Cs EMPTY_SQUARE) Re Ce pm).
  set (b4 := put b2 Rs Ce EMPTY_SQUARE).
  set (c2 := put (put b4 Rs Cs pm) Re Ce pc).
  set (c3 := put (put c2 Re Ce EMPTY_SQUARE) Rs Ce pc).
  assert (cell b Rs Cs <> None /\ cell b Re Ce <> None
          /\ cell b Rs Ce <> None)
    as (V1 & V2 & V3) by (repeat split; congruence).
  assert (board_set b (start_row m) (start_col m) EMPTY_SQUARE
          = Some (put b Rs Cs EMPTY_SQUARE)) as B1.
  { rewrite E1, E2. apply board_set_valid; [lia|lia|exact V1]. }
  assert (board_set (put b Rs Cs EMPTY_SQUARE) (end_row m) (end_col m) pm
          = Some b2) as B2.
  { rewrite E3, E4. apply board_set_valid; [lia|lia|].
    apply valid_put. exact V2. }
  assert ((if is_pawn_promotion m
           then board_set b2 (end_row m) (end_col m) (fst pm, QUEEN)
           else Some b2) = Some b2) as B3 by (rewrite Hnp; reflexivity).
  assert ((if is_enpassant_move m
           then board_set b2 (start_row m) (end_col m) EMPTY_SQUARE
           else Some b2) = Some b4) as B4.
  { rewrite E5, E1, E4. apply board_set_valid; [lia|lia|].
    unfold b2. repeat apply valid_put. exact V3. }
  assert ((if is_castle_move m then
             if end_col m - start_col m =? 2
             then board_hop b4 (end_row m) (end_col m + 1) (end_col m - 1)
             else board_hop b4 (end_row m) (end_col m - 2) (end_col m + 1)
           else Some b4) = Some b4) as B5 by (rewrite E6; reflexivity).
  destruct (@makeMove_forward m s _ _ _ _ _ cr B1 B2 B3 B4 B5 R)
    as (s1 & M & F1 & F2 & F3 & F4 & F5 & F6 & F7).
  assert (board_set (board s1) (start_row m) (start_col m) pm
          = Some (put b4 Rs Cs pm)) as C1.
  { rewrite F1, E1, E2. apply board_set_valid; [lia|lia|].
    unfold b4, b2. repeat apply valid_put. exact V1. }
  assert (board_set (put b4 Rs Cs pm) (end_row m) (end_col m) pc = Some c2)
    as C2.
  { rewrite E3, E4. apply board_set_valid; [lia|lia|].
    unfold b4, b2. repeat apply valid_put. exact V2. }
  assert ((if is_enpassant_move m then
             match board_set c2 (end_row m) (end_col m) EMPTY_SQUARE with
             | Some c => board_set c (start_row m) (end_col m) pc
             | None => None
             end
           else Some c2) = Some c3) as C3.
  { rewrite E5, E1, E3, E4.
    rewrite board_set_valid;
      [|lia|lia|unfold c2, b4, b2; repeat apply valid_put; exact V2].
    apply board_set_valid; [lia|lia|].
    unfold c2, b4, b2. repeat apply valid_put. exact V3. }
  assert ((if is_castle_move m then
             if end_col m - start_col m =? 2
             then board_hop c3 (end_row m) (end_col m - 1) (end_col m + 1)
             else board_hop c3 (end_row m) (end_col m + 1) (end_col m - 2)
           else Some c3) = Some c3) as C4 by (rewrite E6; reflexivity).
  assert (2 <= length (castle_rights_log s1))%nat as Hc.
  { rewrite F7. destruct (castle_rights_log s); [congruence|cbn; lia]. }
  destruct (@undoMove_forward m s1 (move_log s) (enpassant_possible_log s)
              (enpassant_possible s1) (enpassant_possible s) _ _ _ _
              F3 C1 C2 C3 C4 F6 Hep Hc)
    as (s2 & U & G1 & G2 & G3 & G4 & G5 & G6 & G7 & G8).
  exists s1, s2. split; [exact M|]. split; [exact U|].
  split.
  { rewrite G1. apply board_ext.
    - unfold c3, c2, b4, b2. rewrite !length_put. reflexivity.
    - intros R' C'. unfold c3, c2, b4, b2. cells.
      destruct (Nat.eqb_spec Rs R') as [A|A];
        destruct (Nat.eqb_spec Re R') as [B|B];
        destruct (Nat.eqb_spec Cs C') as [D|D];
        destruct (Nat.eqb_spec Ce C') as [F|F];
        cbn [andb]; try reflexivity; try (exfalso; congruence);
        try subst R'; try subst C'; symmetry; assumption. }
  split; [rewrite G2, F2; apply negb_involutive|].
  split; [exact G3|].
  split; [rewrite G4, F4; fold pm; rewrite K1; reflexivity|].
  split; [rewrite G5, F5; fold pm; rewrite K1, K2; reflexivity|].
  split; [exact G6|]. split; [exact G7|].
  rewrite F7 in G8. injection G8 as G8. exact G8.
Qed.

Lemma enpassant_make_undo_restores_witness :
  exists m s1 s2,
    Move_init (3, 1) (2, 2) (board pos_ep_right) true false = Some m
    /\ makeMove m pos_ep_right = Some (tt, s1)
    /\ undoMove s1 = Some (tt, s2)
    /\ board s2 = board pos_ep_right.
Proof.
  assert (exists m,
            Move_init (3, 1) (2, 2) (board pos_ep_right) true false = Some m)
    as [m Em] by (eexists; reflexivity).
  destruct (@enpassant_make_undo_restores pos_ep_right (3, 1) (2, 2) m
              no_rights eq_refl eq_refl)
    as (s1 & s2 & H1 & H2 & H3 & _).
  - discriminate.
  - discriminate.
  - exact Em.
  - injection Em as <-. reflexivity.
  - injection Em as <-. reflexivity.
  - reflexivity.
  - injection Em as <-. reflexivity.
  - reflexivity.
  - discriminate.
  - reflexivity.
  - exists m, s1, s2. auto.
Defined.

(** ** [check_detection.py]: what the detector records *)

Section DetectorFacts.

Variable b : Board.
Variables ally enemy : ascii.
Variables kr kc : Z.

(** An entry made by a ray: a square of the board at distance 1 to 7
    from the king along one of the eight directions. *)
Let on_ray (q : Quad) : Prop :=
  match q with
  | (r, c, d0, d1) =>
      In (d0, d1) directions /\ on_board r c = true
      /\ exists i, 1 <= i <= 7 /\ r = kr + d0 * i /\ c = kc + d1 * i
  end.

Let holds (colour : ascii) (q : Quad) : Prop :=
  match q with
  | (r, c, _, _) => exists p, board_get b r c = Some p /\ fst p = colour
  end.

Let pin_ok (q : Quad) : Prop :=
  on_ray q /\ holds ally q
  /\ match q with
     | (r, c, _, _) =>
         exists p, board_get b r c = Some p /\ snd p <> "K"
     end.

Let ray_inv (acc : Detect) : Prop :=
  (d_in_check acc = true <-> d_checks acc <> [])
  /\ (forall q, In q (d_checks acc) -> on_ray q /\ holds enemy q)
  /\ (forall q, In q (d_pins acc) -> pin_ok q).

Lemma scan_ray_inv (j : Z) (direction : Z * Z) (dists : list Z) :
  In direction directions ->
  (forall i, In i dists -> 1 <= i <= 7) ->
  forall possible_pin acc acc',
    (forall q, possible_pin = Some q -> pin_ok q) ->
    ray_inv acc ->
    scan_ray b ally enemy kr kc j direction possible_pin acc dists
    = Some acc' ->
    ray_inv acc'.
Proof.
  intros Hd. induction dists as [|i rest IH]; intros Hr pp acc acc' Hpp Hacc H.
  - injection H as <-. exact Hacc.
  - cbn [scan_ray] in H.
    assert (1 <= i <= 7) as Hi by (apply Hr; left; reflexivity).
    assert (forall k, In k rest -> 1 <= k <= 7) as Hr'
        by (intros k Hk; apply Hr; right; exact Hk).
    destruct (on_board (kr + fst direction * i) (kc + snd direction * i))
      eqn:Hon; cbn [negb] in H; [|injection H as <-; exact Hacc].
    destruct (board_get b _ _) as [p|] eqn:Hp; [|discriminate].
    assert (on_ray (kr + fst direction * i, kc + snd direction * i,
                    fst direction, snd direction)) as Hray.
    { unfold on_ray. rewrite <- surjective_pairing.
      split; [exact Hd|]. split; [exact Hon|]. exists i. auto. }
    destruct (Ascii.eqb (fst p) ally && negb (Ascii.eqb (snd p) "K")) eqn:Ea.
    + apply andb_true_iff in Ea. destruct Ea as [Ea Ek].
      apply Ascii.eqb_eq in Ea. apply negb_true_iff, Ascii.eqb_neq in Ek.
      destruct pp as [pin|]; [injection H as <-; exact Hacc|].
      eapply (IH Hr'); [|exact Hacc|exact H].
      intros q Hq. injection Hq as <-.
      split; [exact Hray|]. split; exists p; auto.
    + destruct (Ascii.eqb (fst p) enemy) eqn:Ee;
        [|eapply (IH Hr'); eauto].
      apply Ascii.eqb_eq in Ee.
      destruct (_isValidAttackDirection j (snd p) i);
        [|injection H as <-; exact Hacc].
      destruct Hacc as (F & C & P).
      destruct pp as [pin|]; injection H as <-; cbn.
      * split; [exact F|]. split; [exact C|].
        intros q Hq. apply in_app_or in Hq. destruct Hq as [Hq|[<-|[]]];
          [apply P; exact Hq|apply Hpp; reflexivity].
      * split.
        { split; [intros _|reflexivity].
          destruct (d_checks acc); discriminate. }
        split; [|exact P].
        intros q Hq. apply in_app_or in Hq. destruct Hq as [Hq|[<-|[]]];
          [apply C; exact Hq|].
        split; [exact Hray|]. exists p. auto.
Qed.

Lemma scan_rays_inv (dirs : list (Z * Z)) :
  (forall d, In d dirs -> In d directions) ->
  forall j acc acc',
    ray_inv acc ->
    scan_rays b ally enemy kr kc j dirs acc = Some acc' ->
    ray_inv acc'.
Proof.
  induction dirs as [|d rest IH]; intros Hd j acc acc' Hacc H.
  - injection H as <-. exact Hacc.
  - cbn [scan_rays] in H.
    destruct (scan_ray b ally enemy kr kc j d None acc (Py.range 1 8))
      as [acc1|] eqn:E; [|discriminate].
    eapply IH; [intros d' Hd'; apply Hd; right; exact Hd'| |exact H].
    eapply scan_ray_inv; [apply Hd; left; reflexivity| | |exact Hacc|exact E].
    + intros i Hi. vm_compute in Hi. lia.
    + intros q Hq. discriminate Hq.
Qed.

(** What the knight probe adds: enemy knights on board squares one
    knight's jump from the king. *)
Let knight_ok (q : Quad) : Prop :=
  match q with
  | (r, c, d0, d1) =>
      In (d0, d1) knight_moves /\ on_board r c = true
      /\ r = kr + d0 /\ c = kc + d1
      /\ board_get b r c = Some (enemy, "N")
  end.

Lemma knight_loop_inv (offs : list (Z * Z)) :
  (forall o, In o offs -> In o knight_moves) ->
  forall checks ic ic' checks',
    knight_loop b kr kc enemy offs checks ic = Some (ic', checks') ->
    exists added,
      checks' = checks ++ added /\ forall q, In q added -> knight_ok q.
Proof.
  induction offs as [|o rest IH]; intros Ho checks ic ic' checks' H.
  - injection H as _ <-. exists []. rewrite app_nil_r. split; [reflexivity|].
    intros q [].
  - cbn [knight_loop] in H.
    assert (forall o', In o' rest -> In o' knight_moves) as Ho'
        by (intros o' Hin; apply Ho; right; exact Hin).
    destruct (on_board (kr + fst o) (kc + snd o)) eqn:Hon; [|eauto].
    destruct (board_get b _ _) as [p|] eqn:Hp; [|discriminate].
    destruct (Ascii.eqb (fst p) enemy && Ascii.eqb (snd p) "N") eqn:E;
      [|eauto].
    apply andb_true_iff in E. destruct E as [E1 E2].
    apply Ascii.eqb_eq in E1, E2.
    destruct (IH Ho' _ _ _ _ H) as (added & -> & Hadd).
    exists ((kr + fst o, kc + snd o, fst o, snd o) :: added).
    split; [rewrite <- app_assoc; reflexivity|].
    intros q [<-|Hq]; [|apply Hadd; exact Hq].
    unfold knight_ok. rewrite <- surjective_pairing.
    split; [apply Ho; left; reflexivity|]. split; [exact Hon|].
    split; [reflexivity|]. split; [reflexivity|].
    rewrite Hp. destruct p as [p1 p2]. cbn in E1, E2. rewrite E1, E2.
    reflexivity.
Qed.

Lemma detector_inv (acc : Detect) (checks' : list Quad) :
  scan_rays b ally enemy kr kc 0 directions (mkDetect false [] [])
  = Some acc ->
  _checkForKnightChecks b kr kc enemy (d_checks acc) (d_in_check acc)
  = Some checks' ->
  ray_inv acc
  /\ exists added,
       checks' = d_checks acc ++ added /\ forall q, In q added -> knight_ok q.
Proof.
  intros H1 H2. split.
  - eapply scan_rays_inv; [intros ? Hx; exact Hx| |exact H1].
    unfold ray_inv. cbn.
    split; [split; [discriminate|intros H; contradiction H; reflexivity]|].
    split; intros q [].
  - unfold _checkForKnightChecks in H2.
    destruct (knight_loop _ _ _ _ _ _ _) as [[ic c]|] eqn:E; [|discriminate].
    injection H2 as <-.
    eapply knight_loop_inv; [intros ? Hx; exact Hx|exact E].
Qed.

End DetectorFacts.

Lemma knight_offsets_are_no_directions (d : Z * Z) :
  In d knight_moves -> In d directions -> False.
Proof.
  unfold knight_moves, directions. cbn.
  intros H1 H2.
  repeat match goal with
         | H : _ \/ _ |- _ => destruct H
         | H : False |- _ => contradiction
         end; subst; discriminate.
Qed.

Lemma detect_inv (b : Board) (wtm : bool) (wk bk : Square) (d : Detect) :
  detect b wtm wk bk = Some d ->
  exists acc checks',
    scan_rays b (if wtm then "w" else "b") (if wtm then "b" else "w")
      (if wtm then fst wk else fst bk) (if wtm then snd wk else snd bk)
      0 directions (mkDetect false [] []) = Some acc
    /\ _checkForKnightChecks b (if wtm then fst wk else fst bk)
         (if wtm then snd wk else snd bk) (if wtm then "b" else "w")
         (d_checks acc) (d_in_check acc) = Some checks'
    /\ d = mkDetect (d_in_check acc) (d_pins acc) checks'.
Proof.
  unfold detect. intros H.
  destruct (scan_rays _ _ _ _ _ _ _ _) as [acc|] eqn:E; [|discriminate].
  destruct (_checkForKnightChecks _ _ _ _ _ _) as [c|] eqn:E'; [|discriminate].
  injection H as <-. exists acc, c. auto.
Qed.

(** X14: the flag [in_check] returned by the detector is set exactly when
    the list of checks it returns has an entry along one of the eight
    ray directions; entries made for knights do not count. *)
Theorem detect_flag_iff_ray_check (b : Board) (wtm : bool) (wk bk : Square)
  (d : Detect) :
  detect b wtm wk bk = Some d ->
  (d_in_check d = true
   <-> exists q, In q (d_checks d) /\ In (pin_dir q) directions).
Proof.
  intros H. apply detect_inv in H. destruct H as (acc & c & H1 & H2 & ->).
  destruct (detector_inv _ _ _ _ _ H1 H2) as ((F & C & _) & added & -> & K).
  cbn. split.
  - intros Hic. apply F in Hic.
    destruct (d_checks acc) as [|q l] eqn:E; [congruence|].
    exists q. split; [left; reflexivity|].
    destruct (C q) as [R _]; [left; reflexivity|].
    destruct q as [[[r c0] d0] d1]. apply R.
  - intros (q & Hq & Hd). apply F. intros E. rewrite E in Hq. cbn in Hq.
    apply K in Hq. destruct q as [[[r c0] d0] d1].
    eapply knight_offsets_are_no_directions; [apply Hq|exact Hd].
Qed.

Lemma detect_flag_iff_ray_check_witness :
  exists d,
    detect (board pos_rook_file) true (7, 4) (0, 0) = Some d
    /\ (d_in_check d = true
        <-> exists q, In q (d_checks d) /\ In (pin_dir q) directions).
Proof.
  eexists. split; [vm_compute; reflexivity|].
  apply (@detect_flag_iff_ray_check (board pos_rook_file) true (7, 4) (0, 0)).
  vm_compute. reflexivity.
Defined.

(** X15: every check the detector returns names a square of the board
    that holds a piece of the other side, reached from the king either
    along one of the eight directions in 1 to 7 steps or by one knight's
    jump, in which case the piece is a knight. *)
Theorem detect_checks_name_enemy_pieces (b : Board) (wtm : bool)
  (wk bk : Square) (d : Detect) (r c d0 d1 : Z) :
  detect b wtm wk bk = Some d ->
  In (r, c, d0, d1) (d_checks d) ->
  let king := if wtm then wk else bk in
  on_board r c = true
  /\ (exists p, board_get b r c = Some p
                /\ fst p = (if wtm then "b" else "w"))
  /\ ((In (d0, d1) directions
       /\ exists i, 1 <= i <= 7 /\ r = fst king + d0 * i
                    /\ c = snd king + d1 * i)
      \/ (In (d0, d1) knight_moves
          /\ r = fst king + d0 /\ c = snd king + d1
          /\ board_get b r c = Some (if wtm then "b" else "w", "N"))).
Proof.
  intros H Hin king. apply detect_inv in H.
  destruct H as (acc & ch & H1 & H2 & ->).
  destruct (detector_inv _ _ _ _ _ H1 H2) as ((_ & C & _) & added & -> & K).
  cbn in Hin. apply in_app_or in Hin. destruct Hin as [Hin|Hin].
  - destruct (C _ Hin) as [(Hd & Hon & i & Hi & Hr & Hc) Hp].
    split; [exact Hon|]. split; [exact Hp|]. left.
    split; [exact Hd|]. exists i. subst king. destruct wtm; auto.
  - destruct (K _ Hin) as (Hd & Hon & Hr & Hc & Hp).
    split; [exact Hon|]. split; [eexists; split; [exact Hp|reflexivity]|].
    right. subst king. destruct wtm; auto.
Qed.

Lemma detect_checks_name_enemy_pieces_witness :
  exists d,
    detect (board pos_rook_file) true (7, 4) (0, 0) = Some d
    /\ on_board 0 4 = true
    /\ exists p, board_get (board pos_rook_file) 0 4 = Some p
                 /\ fst p = "b".
Proof.
  assert (exists d,
            detect (board pos_rook_file) true (7, 4) (0, 0) = Some d
            /\ In (0, 4, -1, 0) (d_checks d)) as (d & E & Hin)
      by (eexists; split; [vm_compute; reflexivity|left; reflexivity]).
  destruct (@detect_checks_name_enemy_pieces _ _ _ _ _ _ _ _ _ E Hin)
    as (H1 & H2 & _).
  exists d. auto.
Defined.

(** X16: every pin the detector returns names a square of the board, 1 to
    7 steps from the king along one of the eight directions, that holds
    a piece of the side to move other than its king. *)
Theorem detect_pins_name_allied_pieces (b : Board) (wtm : bool)
  (wk bk : Square) (d : Detect) (r c d0 d1 : Z) :
  detect b wtm wk bk = Some d ->
  In (r, c, d0, d1) (d_pins d) ->
  let king := if wtm then wk else bk in
  on_board r c = true
  /\ In (d0, d1) directions
  /\ (exists i, 1 <= i <= 7 /\ r = fst king + d0 * i
                /\ c = snd king + d1 * i)
  /\ exists p, board_get b r c = Some p
               /\ fst p = (if wtm then "w" else "b") /\ snd p <> "K".
Proof.
  intros H Hin king. apply detect_inv in H.
  destruct H as (acc & ch & H1 & H2 & ->).
  destruct (detector_inv _ _ _ _ _ H1 H2) as ((_ & _ & P) & _).
  cbn in Hin.
  destruct (P _ Hin) as ((Hd & Hon & i & Hi & Hr & Hc) & (p & Hp & Hf)
                         & (p' & Hp' & Hk)).
  split; [exact Hon|]. split; [exact Hd|].
  split; [exists i; subst king; destruct wtm; auto|].
  exists p. rewrite Hp in Hp'. injection Hp' as <-. auto.
Qed.

Lemma detect_pins_name_allied_pieces_witness :
  exists d,
    detect (place empty_board
              [(7, 4, ("w", "K")); (6, 4, ("w", "R")); (0, 4, ("b", "R"))])
      true (7, 4) (0, 0) = Some d
    /\ on_board 6 4 = true
    /\ In (-1, 0) directions.
Proof.
  assert (exists d,
            detect (place empty_board
                      [(7, 4, ("w", "K")); (6, 4, ("w", "R"));
                       (0, 4, ("b", "R"))])
              true (7, 4) (0, 0) = Some d
            /\ In (6, 4, -1, 0) (d_pins d)) as (d & E & Hin)
      by (eexists; split; [vm_compute; reflexivity|left; reflexivity]).
  destruct (@detect_pins_name_allied_pieces _ _ _ _ _ _ _ _ _ E Hin)
    as (H1 & H2 & _).
  exists d. auto.
Defined.

(** ** [piece_moves.py]: what the generators append *)

Lemma piece_eqb_eq (p q : Piece) : piece_eqb p q = true <-> p = q.
Proof.
  unfold piece_eqb. destruct p as [p1 p2], q as [q1 q2]. cbn.
  rewrite andb_true_iff, !Ascii.eqb_eq. split.
  - intros [-> ->]. reflexivity.
  - intros E. injection E as -> ->. auto.
Qed.

Lemma append_move_inv (b : Board) (st en : Square) (ep ca : bool)
  (moves moves' : list Move) :
  append_move b st en ep ca moves = Some moves' ->
  exists m, Move_init st en b ep ca = Some m /\ moves' = moves ++ [m].
Proof.
  unfold append_move, obind.
  destruct (Move_init st en b ep ca) as [m|]; [|discriminate].
  intros H. injection H as <-. exists m. auto.
Qed.

Section Sliding.

Variable b : Board.
Variable enemy_color : ascii.
Variables row col : Z.

(** A move of the piece on [(row, col)] along [d]: it ends on a square of
    the board [i] steps away, every square passed over is empty, and the
    piece recorded as captured is the one on the end square, which is
    empty or holds a piece of the other side. *)
Let along (d : Z * Z) (m : Move) : Prop :=
  start_row m = row /\ start_col m = col
  /\ is_enpassant_move m = false /\ is_castle_move m = false
  /\ exists i,
       1 <= i <= 7
       /\ end_row m = row + fst d * i /\ end_col m = col + snd d * i
       /\ on_board (end_row m) (end_col m) = true
       /\ (forall k, 1 <= k < i ->
             board_get b (row + fst d * k) (col + snd d * k)
             = Some EMPTY_SQUARE)
       /\ board_get b (end_row m) (end_col m) = Some (piece_captured m)
       /\ (piece_captured m = EMPTY_SQUARE
           \/ fst (piece_captured m) = enemy_color).

Lemma slide_ray_sound (pinned : bool) (pd : option (Z * Z)) (d : Z * Z)
  (n : nat) :
  forall (a : nat) (moves moves' : list Move),
    (a + n <= 7)%nat ->
    (negb pinned || dir_is pd d || dir_is pd (- fst d, - snd d) = true ->
     forall k, 1 <= k < 1 + Z.of_nat a ->
       board_get b (row + fst d * k) (col + snd d * k) = Some EMPTY_SQUARE) ->
    slide_ray b enemy_color row col pinned pd d
      (map (fun k => 1 + Z.of_nat k) (seq a n)) moves = Some moves' ->
    exists extra,
      moves' = moves ++ extra /\ forall m, In m extra -> along d m.
Proof.
  induction n as [|n IH]; intros a moves moves' Ha Hclear H.
  - injection H as <-. exists []. rewrite app_nil_r.
    split; [reflexivity|intros m []].
  - cbn [seq map slide_ray] in H.
    set (i := 1 + Z.of_nat a) in *.
    destruct (on_board (row + fst d * i) (col + snd d * i)) eqn:Hon;
      cbn [negb] in H;
      [|injection H as <-; exists []; rewrite app_nil_r;
        split; [reflexivity|intros m []]].
    destruct (negb pinned || dir_is pd d || dir_is pd (- fst d, - snd d))
      eqn:Hallowed.
    + specialize (Hclear eq_refl).
      unfold obind in H.
      destruct (board_get b (row + fst d * i) (col + snd d * i))
        as [p|] eqn:Hp; [|discriminate].
      assert (forall mv,
                 Move_init (row, col) (row + fst d * i, col + snd d * i) b
                   false false = Some mv ->
                 p = EMPTY_SQUARE \/ fst p = enemy_color ->
                 along d mv) as Hone.
      { intros mv Hm0 Hcol.
        pose proof (@Move_init_captured _ _ _ _ _ Hm0) as Hcap.
        apply Move_init_fields in Hm0.
        destruct Hm0 as (F1 & F2 & F3 & F4 & F5 & F6 & _).
        cbn [fst snd] in *.
        unfold along. repeat (split; [assumption|]).
        exists i. rewrite F3, F4.
        split; [unfold i; lia|]. split; [reflexivity|].
        split; [reflexivity|]. split; [exact Hon|].
        split; [exact Hclear|]. split; [exact Hcap|].
        rewrite Hp in Hcap. injection Hcap as <-. exact Hcol. }
      destruct (piece_eqb p EMPTY_SQUARE) eqn:Hempty.
      * apply piece_eqb_eq in Hempty.
        destruct (append_move b (row, col) _ false false moves)
          as [moves1|] eqn:Happ; [|discriminate].
        destruct (append_move_inv _ _ _ _ _ _ Happ) as (m0 & Hm0 & E0).
        destruct (IH (S a) moves1 moves') as (extra & -> & Hex).
        { lia. }
        { intros _ k Hk.
          destruct (Z.eq_dec k i) as [->|Hne];
            [rewrite Hp, Hempty; reflexivity|apply Hclear; unfold i; lia]. }
        { exact H. }
        exists (m0 :: extra). rewrite E0, <- app_assoc.
        split; [reflexivity|].
        intros m [<-|Hm]; [|apply Hex; exact Hm].
        apply Hone; [exact Hm0|left; exact Hempty].
      * destruct (Ascii.eqb (fst p) enemy_color) eqn:Hen.
        -- apply Ascii.eqb_eq in Hen.
           destruct (append_move_inv _ _ _ _ _ _ H) as (m0 & Hm0 & E0).
           exists [m0]. split; [exact E0|].
           intros m [<-|[]].
           apply Hone; [exact Hm0|right; exact Hen].
        -- injection H as <-. exists []. rewrite app_nil_r.
           split; [reflexivity|intros m []].
    + apply (IH (S a) moves moves'); [lia| |exact H].
      intros Hc. rewrite Hc in Hallowed. discriminate.
Qed.

Lemma slide_dirs_sound (pinned : bool) (pd : option (Z * Z))
  (dirs : list (Z * Z)) :
  forall moves moves',
    slide_dirs b enemy_color row col pinned pd dirs moves = Some moves' ->
    exists extra,
      moves' = moves ++ extra
      /\ forall m, In m extra -> exists d, In d dirs /\ along d m.
Proof.
  induction dirs as [|d rest IH]; intros moves moves' H.
  - injection H as <-. exists []. rewrite app_nil_r.
    split; [reflexivity|intros m []].
  - cbn [slide_dirs] in H. unfold obind in H.
    destruct (slide_ray b enemy_color row col pinned pd d (Py.range 1 8)
                moves) as [moves1|] eqn:E; [|discriminate].
    destruct (@slide_ray_sound pinned pd d 7 0 moves moves1)
      as (e1 & -> & H1); [lia|intros _ k Hk; lia|exact E|].
    destruct (IH _ _ H) as (e2 & -> & H2).
    exists (e1 ++ e2). rewrite app_assoc. split; [reflexivity|].
    intros m Hm. apply in_app_or in Hm. destruct Hm as [Hm|Hm].
    + exists d. split; [left; reflexivity|apply H1; exact Hm].
    + destruct (H2 m Hm) as (d' & Hd' & Hal).
      exists d'. split; [right; exact Hd'|exact Hal].
Qed.

End Sliding.

Lemma slide_moves_sound (dirs : list (Z * Z)) (q : bool) (row col : Z)
  (moves moves' : list Move) (s s' : GameState) :
  bind (take_pin q row col)
    (fun pp => reads (fun t =>
       slide_body dirs t (fst pp) (snd pp) row col moves)) s
  = Some (moves', s') ->
  exists extra,
    moves' = moves ++ extra
    /\ board s' = board s /\ white_to_move s' = white_to_move s
    /\ forall m, In m extra ->
         exists d, In d dirs
           /\ start_row m = row /\ start_col m = col
           /\ is_enpassant_move m = false /\ is_castle_move m = false
           /\ exists i,
                1 <= i <= 7
                /\ end_row m = row + fst d * i /\ end_col m = col + snd d * i
                /\ on_board (end_row m) (end_col m) = true
                /\ (forall k, 1 <= k < i ->
                      board_get (board s) (row + fst d * k)
                        (col + snd d * k) = Some EMPTY_SQUARE)
                /\ board_get (board s) (end_row m) (end_col m)
                   = Some (piece_captured m)
                /\ (piece_captured m = EMPTY_SQUARE
                    \/ fst (piece_captured m)
                       = (if white_to_move s then "b" else "w")).
Proof.
  intros H. apply bind_inv in H. destruct H as (pp & s1 & H1 & H2).
  apply reads_inv in H2. destruct H2 as [E2 H2]. subst s'.
  pose proof (@untouched_take_pin _ board (fun _ _ => eq_refl) q row col
                _ _ _ H1) as Eb.
  pose proof (@untouched_take_pin _ white_to_move (fun _ _ => eq_refl)
                q row col _ _ _ H1) as Et.
  unfold slide_body in H2. rewrite Eb, Et in H2.
  apply slide_dirs_sound in H2. destruct H2 as (extra & -> & Hex).
  exists extra. split; [reflexivity|]. split; [exact Eb|].
  split; [exact Et|]. exact Hex.
Qed.

(** X17: every move [getQueenMoves] appends (and so every move
    [getRookMoves] and [getBishopMoves], which it calls, append) starts
    on the given square and runs 1 to 7 steps along one of the eight
    directions to a square of the board, over empty squares only; the
    end square is empty or holds a piece of the other side, and that
    piece is the one recorded as captured.  The moves already in the
    list are kept, in their order. *)
Theorem sliding_moves_follow_clear_rays (row col : Z)
  (moves moves' : list Move) (s s' : GameState) :
  getQueenMoves row col moves s = Some (moves', s') ->
  exists extra,
    moves' = moves ++ extra
    /\ forall m, In m extra ->
         exists d, In d (rook_directions ++ bishop_directions)
           /\ start_row m = row /\ start_col m = col
           /\ exists i,
                1 <= i <= 7
                /\ end_row m = row + fst d * i /\ end_col m = col + snd d * i
                /\ on_board (end_row m) (end_col m) = true
                /\ (forall k, 1 <= k < i ->
                      board_get (board s) (row + fst d * k)
                        (col + snd d * k) = Some EMPTY_SQUARE)
                /\ board_get (board s) (end_row m) (end_col m)
                   = Some (piece_captured m)
                /\ (piece_captured m = EMPTY_SQUARE
                    \/ fst (piece_captured m)
                       = (if white_to_move s then "b" else "w")).
Proof.
  intros H. unfold getQueenMoves in H.
  apply bind_inv in H. destruct H as (moves1 & s1 & H1 & H2).
  unfold getRookMoves in H1. unfold getBishopMoves in H2.
  apply slide_moves_sound in H1. apply slide_moves_sound in H2.
  destruct H1 as (e1 & -> & Eb & Et & X1).
  destruct H2 as (e2 & -> & _ & _ & X2).
  rewrite Eb, Et in X2.
  exists (e1 ++ e2). rewrite app_assoc. split; [reflexivity|].
  intros m Hm. apply in_app_or in Hm.
  destruct Hm as [Hm|Hm];
    [destruct (X1 m Hm) as (d & Hd & A1 & A2 & _ & _ & A)
    |destruct (X2 m Hm) as (d & Hd & A1 & A2 & _ & _ & A)];
    exists d; (split; [apply in_or_app; auto|]); auto.
Qed.

Lemma sliding_moves_follow_clear_rays_witness :
  exists moves' s' extra,
    getQueenMoves 7 0 [] pos_back_rank = Some (moves', s')
    /\ moves' = [] ++ extra.
Proof.
  assert (exists moves' s',
            getQueenMoves 7 0 [] pos_back_rank = Some (moves', s')) as H
    by (vm_compute; eexists _, _; reflexivity).
  destruct H as (moves' & s' & E).
  destruct (@sliding_moves_follow_clear_rays 7 0 [] moves' pos_back_rank s' E)
    as (extra & H1 & _).
  exists moves', s', extra. auto.
Defined.

(** ** Lists of moves that only grow *)

Lemma grows_refl (b : Board) (row col : Z) (moves : list Move) :
  grows b row col moves moves.
Proof.
  exists []. rewrite app_nil_r. split; [reflexivity|intros m []].
Qed.

Lemma grows_trans (b : Board) (row col : Z) (l1 l2 l3 : list Move) :
  grows b row col l1 l2 -> grows b row col l2 l3 -> grows b row col l1 l3.
Proof.
  intros (e1 & -> & H1) (e2 & -> & H2). exists (e1 ++ e2).
  rewrite app_assoc. split; [reflexivity|].
  intros m Hm. apply in_app_or in Hm. destruct Hm; auto.
Qed.

Lemma grows_append (b : Board) (row col : Z) (en : Square) (ep ca : bool)
  (moves moves' : list Move) :
  append_move b (row, col) en ep ca moves = Some moves' ->
  grows b row col moves moves'.
Proof.
  intros H. apply append_move_inv in H. destruct H as (m & Hm & ->).
  exists [m]. split; [reflexivity|].
  intros m' [<-|[]]. eauto.
Qed.

Ltac grows_step :=
  match goal with
  | H : Some _ = Some _ |- _ => injection H as <-
  | H : None = Some _ |- _ => discriminate H
  | H : append_move _ _ _ _ _ _ = Some _ |- _ => apply grows_append in H
  | H : obind ?o _ = Some _ |- _ =>
      let E := fresh "E" in
      destruct o eqn:E; cbn [obind] in H; [|discriminate H]
  | H : (if ?c then _ else _) = Some _ |- _ => destruct c
  end.

Ltac grows_chain :=
  repeat match goal with
         | H : grows ?b ?r ?c ?x ?y |- grows ?b ?r ?c ?x _ =>
             apply (grows_trans H); clear H
         end;
  try apply grows_refl.

Lemma grows_pawn_body (s : GameState) (pinned : bool)
  (pd : option (Z * Z)) (row col : Z) (moves moves' : list Move) :
  pawn_body s pinned pd row col moves = Some moves' ->
  grows (board s) row col moves moves'.
Proof.
  unfold pawn_body, pawn_capture, _addEnPassantIfValid. cbv zeta.
  intros H. repeat grows_step; grows_chain.
Qed.

Lemma grows_slide_ray (b : Board) (enemy : ascii) (row col : Z)
  (pinned : bool) (pd : option (Z * Z)) (d : Z * Z) (dists : list Z) :
  forall moves moves',
    slide_ray b enemy row col pinned pd d dists moves = Some moves' ->
    grows b row col moves moves'.
Proof.
  induction dists as [|i rest IH]; intros moves moves' H; cbn [slide_ray] in H.
  - injection H as <-. apply grows_refl.
  - destruct (negb (on_board _ _)); [injection H as <-; apply grows_refl|].
    destruct (negb pinned || dir_is pd d || dir_is pd (- fst d, - snd d));
      [|eauto].
    unfold obind at 1 in H.
    destruct (board_get b _ _) as [p|]; [|discriminate].
    destruct (piece_eqb p EMPTY_SQUARE).
    + unfold obind in H.
      destruct (append_move b (row, col) _ false false moves)
        as [moves1|] eqn:E; [|discriminate].
      apply grows_append in E. apply IH in H. eapply grows_trans; eauto.
    + destruct (Ascii.eqb (fst p) enemy);
        [apply grows_append in H; exact H|].
      injection H as <-. apply grows_refl.
Qed.

Lemma grows_slide_body (dirs : list (Z * Z)) (s : GameState)
  (pinned : bool) (pd : option (Z * Z)) (row col : Z) :
  forall moves moves',
    slide_body dirs s pinned pd row col moves = Some moves' ->
    grows (board s) row col moves moves'.
Proof.
  unfold slide_body.
  induction dirs as [|d rest IH]; intros moves moves' H; cbn [slide_dirs] in H.
  - injection H as <-. apply grows_refl.
  - unfold obind in H.
    destruct (slide_ray _ _ _ _ _ _ _ _ _) as [moves1|] eqn:E; [|discriminate].
    apply grows_slide_ray in E. apply IH in H. eapply grows_trans; eauto.
Qed.

Lemma grows_knight_body (b : Board) (ally : ascii) (row col : Z)
  (pinned : bool) (offs : list (Z * Z)) :
  forall moves moves',
    knight_body b ally row col pinned offs moves = Some moves' ->
    grows b row col moves moves'.
Proof.
  induction offs as [|o rest IH]; intros moves moves' H; cbn [knight_body] in H.
  - injection H as <-. apply grows_refl.
  - destruct (on_board _ _); [|eauto].
    destruct (negb pinned); [|eauto].
    unfold obind at 1 in H.
    destruct (board_get b _ _) as [p|]; [|discriminate].
    destruct (negb (Ascii.eqb (fst p) ally)); [|eauto].
    unfold obind in H.
    destruct (append_move b (row, col) _ false false moves)
      as [moves1|] eqn:E; [|discriminate].
    apply grows_append in E. apply IH in H. eapply grows_trans; eauto.
Qed.

Lemma grows_king_loop (ally : ascii) (row col : Z) (offs : list (Z * Z)) :
  forall moves moves' s s',
    king_loop ally row col offs moves s = Some (moves', s') ->
    grows (board s) row col moves moves'.
Proof.
  induction offs as [|o rest IH]; intros moves moves' s s' H;
    cbn [king_loop] in H.
  - injection H as <- _. apply grows_refl.
  - destruct (on_board _ _); [|eauto].
    apply bind_inv in H. destruct H as (p & s1 & H1 & H).
    apply reads_inv in H1. destruct H1 as [E1 _]. subst s1.
    destruct (negb (Ascii.eqb (fst p) ally)); [|eauto].
    apply bind_inv in H. destruct H as ([] & s2 & H2 & H).
    apply bind_inv in H. destruct H as (d & s3 & H3 & H).
    apply bind_inv in H. destruct H as (moves1 & s4 & H4 & H).
    apply bind_inv in H. destruct H as ([] & s5 & H5 & H).
    assert (board s2 = board s) as B2.
    { unfold set_king_location in H2. injection H2 as <-.
      destruct (Ascii.eqb ally "w"); reflexivity. }
    assert (board s3 = board s2) as B3.
    { unfold checkForPinsAndChecks in H3.
      destruct (detect _ _ _ _); [|discriminate].
      injection H3 as _ <-. reflexivity. }
    assert (board s5 = board s4) as B5.
    { unfold set_king_location in H5. injection H5 as <-.
      destruct (Ascii.eqb ally "w"); reflexivity. }
    assert (s4 = s3 /\ grows (board s) row col moves moves1) as [E4 G].
    { destruct (negb (d_in_check d)).
      - apply reads_inv in H4. destruct H4 as [E4 H4].
        split; [exact E4|]. rewrite B3, B2 in H4.
        apply grows_append in H4. exact H4.
      - injection H4 as <- <-. split; [reflexivity|apply grows_refl]. }
    apply IH in H. rewrite B5, E4, B3, B2 in H.
    eapply grows_trans; eauto.
Qed.

Lemma grows_moveFunctions (piece : ascii) (row col : Z)
  (moves moves' : list Move) (s s' : GameState) :
  moveFunctions piece row col moves s = Some (moves', s') ->
  grows (board s) row col moves moves'.
Proof.
  assert (forall q (body : GameState -> bool -> option (Z * Z)
                           -> option (list Move)) mv mv' t t',
             (forall u pinned pd l,
                body u pinned pd = Some l -> grows (board u) row col mv l) ->
             bind (take_pin q row col)
               (fun pp => reads (fun u => body u (fst pp) (snd pp))) t
             = Some (mv', t') ->
             grows (board t) row col mv mv' /\ board t' = board t) as P.
  { intros q body mv mv' t t' Hb H.
    apply bind_inv in H. destruct H as (pp & t1 & H1 & H2).
    apply reads_inv in H2. destruct H2 as [E2 H2]. subst t'.
    pose proof (@untouched_take_pin _ board (fun _ _ => eq_refl) q row col
                  _ _ _ H1) as Eb.
    rewrite <- Eb. split; [eapply Hb; exact H2|reflexivity]. }
  unfold moveFunctions.
  destruct (Ascii.eqb piece PAWN).
  { intros H. unfold getPawnMoves in H.
    apply (P false (fun u pinned pd => pawn_body u pinned pd row col moves)
             moves) in H; [apply H|].
    intros u pinned pd l Hl. apply grows_pawn_body in Hl. exact Hl. }
  destruct (Ascii.eqb piece ROOK).
  { intros H. unfold getRookMoves in H.
    apply (P true (fun u pinned pd =>
                     slide_body rook_directions u pinned pd row col moves)
             moves) in H; [apply H|].
    intros u pinned pd l Hl. apply grows_slide_body in Hl. exact Hl. }
  destruct (Ascii.eqb piece KNIGHT).
  { intros H. unfold getKnightMoves in H.
    apply (P false (fun u pinned pd =>
                      knight_body (board u)
                        (if white_to_move u then "w" else "b") row col
                        pinned knight_moves moves) moves)
      in H; [apply H|].
    intros u pinned pd l Hl. apply grows_knight_body in Hl. exact Hl. }
  destruct (Ascii.eqb piece BISHOP).
  { intros H. unfold getBishopMoves in H.
    apply (P false (fun u pinned pd =>
                      slide_body bishop_directions u pinned pd row col moves)
             moves) in H; [apply H|].
    intros u pinned pd l Hl. apply grows_slide_body in Hl. exact Hl. }
  destruct (Ascii.eqb piece QUEEN).
  { intros H. unfold getQueenMoves in H.
    apply bind_inv in H. destruct H as (moves1 & s1 & H1 & H2).
    unfold getRookMoves in H1. unfold getBishopMoves in H2.
    apply (P true (fun u pinned pd =>
                     slide_body rook_directions u pinned pd row col moves)
             moves) in H1;
      [|intros u pinned pd l Hl; apply grows_slide_body in Hl; exact Hl].
    apply (P false (fun u pinned pd =>
                      slide_body bishop_directions u pinned pd row col
                        moves1) moves1)
      in H2;
      [|intros u pinned pd l Hl; apply grows_slide_body in Hl; exact Hl].
    destruct H1 as [G1 B1]. destruct H2 as [G2 _]. rewrite B1 in G2.
    eapply grows_trans; eauto. }
  destruct (Ascii.eqb piece KING).
  { intros H. unfold getKingMoves in H. apply grows_king_loop in H. exact H. }
  discriminate.
Qed.

Lemma knight_body_sound (b : Board) (ally : ascii) (row col : Z)
  (pinned : bool) (offs : list (Z * Z)) :
  forall moves moves',
    knight_body b ally row col pinned offs moves = Some moves' ->
    exists extra,
      moves' = moves ++ extra
      /\ (pinned = true -> extra = [])
      /\ forall m, In m extra ->
           start_row m = row /\ start_col m = col
           /\ (exists o, In o offs
                         /\ end_row m = row + fst o
                         /\ end_col m = col + snd o)
           /\ on_board (end_row m) (end_col m) = true
           /\ board_get b (end_row m) (end_col m) = Some (piece_captured m)
           /\ fst (piece_captured m) <> ally.
Proof.
  induction offs as [|o rest IH]; intros moves moves' H; cbn [knight_body] in H.
  - injection H as <-. exists []. rewrite app_nil_r.
    split; [reflexivity|]. split; [reflexivity|intros m []].
  - assert (forall l,
               knight_body b ally row col pinned rest moves = Some l ->
               exists extra,
                 l = moves ++ extra
                 /\ (pinned = true -> extra = [])
                 /\ forall m, In m extra ->
                      start_row m = row /\ start_col m = col
                      /\ (exists o', In o' (o :: rest)
                                     /\ end_row m = row + fst o'
                                     /\ end_col m = col + snd o')
                      /\ on_board (end_row m) (end_col m) = true
                      /\ board_get b (end_row m) (end_col m)
                         = Some (piece_captured m)
                      /\ fst (piece_captured m) <> ally) as Skip.
    { intros l Hl. destruct (IH _ _ Hl) as (extra & -> & Hp & Hex).
      exists extra. split; [reflexivity|]. split; [exact Hp|].
      intros m Hm. destruct (Hex m Hm) as (A1 & A2 & (o' & Ho' & A3) & A4).
      split; [exact A1|]. split; [exact A2|].
      split; [exists o'; split; [right; exact Ho'|exact A3]|exact A4]. }
    destruct (on_board (row + fst o) (col + snd o)) eqn:Hon; [|auto].
    destruct pinned; cbn [negb] in H; [auto|].
    unfold obind at 1 in H.
    destruct (board_get b (row + fst o) (col + snd o)) as [p|] eqn:Hp;
      [|discriminate].
    destruct (negb (Ascii.eqb (fst p) ally)) eqn:Hc; [|auto].
    apply negb_true_iff, Ascii.eqb_neq in Hc.
    unfold obind in H.
    destruct (append_move b (row, col) _ false false moves)
      as [moves1|] eqn:E; [|discriminate].
    apply append_move_inv in E. destruct E as (m0 & Hm0 & ->).
    destruct (IH _ _ H) as (extra & -> & _ & Hex).
    exists (m0 :: extra). rewrite <- app_assoc.
    split; [reflexivity|]. split; [discriminate|].
    intros m [<-|Hm].
    + pose proof (@Move_init_captured _ _ _ _ _ Hm0) as Hcap.
      apply Move_init_fields in Hm0.
      destruct Hm0 as (F1 & F2 & F3 & F4 & _).
      cbn [fst snd] in *. rewrite F3, F4.
      split; [exact F1|]. split; [exact F2|].
      split; [exists o; split; [left; reflexivity|auto]|].
      split; [exact Hon|]. split; [exact Hcap|].
      rewrite Hp in Hcap. injection Hcap as <-. exact Hc.
    + destruct (Hex m Hm) as (A1 & A2 & (o' & Ho' & A3) & A4).
      split; [exact A1|]. split; [exact A2|].
      split; [exists o'; split; [right; exact Ho'|exact A3]|exact A4].
Qed.

(** X19: [getKnightMoves] keeps the moves already in the list and appends
    nothing for a knight whose square is in the pin list; every move it
    appends starts on the given square and ends one knight's jump away,
    on a square of the board that does not hold a piece of the side to
    move, and records as captured what stands there. *)
Theorem knight_moves_are_jumps (row col : Z) (moves moves' : list Move)
  (s s' : GameState) :
  getKnightMoves row col moves s = Some (moves', s') ->
  exists extra,
    moves' = moves ++ extra
    /\ (find_pin (pins s) row col <> None -> extra = [])
    /\ forall m, In m extra ->
         start_row m = row /\ start_col m = col
         /\ (exists o, In o knight_moves
                       /\ end_row m = row + fst o
                       /\ end_col m = col + snd o)
         /\ on_board (end_row m) (end_col m) = true
         /\ board_get (board s) (end_row m) (end_col m)
            = Some (piece_captured m)
         /\ fst (piece_captured m)
            <> (if white_to_move s then "w" else "b").
Proof.
  intros H. unfold getKnightMoves in H.
  apply bind_inv in H. destruct H as (pp & s1 & H1 & H2).
  apply reads_inv in H2. destruct H2 as [E2 H2]. subst s'.
  pose proof (@untouched_take_pin _ board (fun _ _ => eq_refl) false row col
                _ _ _ H1) as Eb.
  pose proof (@untouched_take_pin _ white_to_move (fun _ _ => eq_refl)
                false row col _ _ _ H1) as Et.
  rewrite Eb, Et in H2. apply knight_body_sound in H2.
  destruct H2 as (extra & -> & Hp & Hex).
  exists extra. split; [reflexivity|]. split; [|exact Hex].
  intros Hpin. apply Hp. unfold take_pin in H1.
  destruct (find_pin (pins s) row col) as [q|]; [|congruence].
  destruct (Py.remove quad_eqb q (pins s)); [|discriminate].
  injection H1 as <- _. reflexivity.
Qed.

Lemma knight_moves_are_jumps_witness :
  exists moves' s' extra,
    getKnightMoves 7 6 [] GameState_init = Some (moves', s')
    /\ moves' = [] ++ extra.
Proof.
  assert (exists moves' s',
            getKnightMoves 7 6 [] GameState_init = Some (moves', s')) as H
    by (vm_compute; eexists _, _; reflexivity).
  destruct H as (moves' & s' & E).
  destruct (@knight_moves_are_jumps 7 6 [] moves' GameState_init s' E)
    as (extra & H1 & _).
  exists moves', s', extra. auto.
Defined.

Lemma Move_init_ep_captured (st en : Square) (b : Board) (ca : bool)
  (m : Move) :
  Move_init st en b true ca = Some m ->
  piece_captured m
  = (if piece_eqb (piece_moved m) ("b", "p") then ("w", "p") else ("b", "p")).
Proof.
  unfold Move_init.
  destruct (board_get b (fst st) (snd st)) as [pm|]; [|discriminate].
  destruct (board_get b (fst en) (snd en)) as [pc|]; [|discriminate].
  intros E. injection E as <-. reflexivity.
Qed.

Section PawnFacts.

Variable s : GameState.
Variables row col : Z.

Let step : Z := if white_to_move s then -1 else 1.
Let enemy : ascii := if white_to_move s then "b" else "w".
Let captures := pawn_captures s row col.
Let advances := pawn_advances s row col.

Lemma pawn_capture_sound (pinned : bool) (pd : option (Z * Z))
  (side king_row king_col : Z) (moves moves' : list Move) :
  pawn_capture s pinned pd row col step side king_row king_col enemy moves
  = Some moves' ->
  exists extra,
    moves' = moves ++ extra /\ forall m, In m extra -> captures side m.
Proof.
  unfold pawn_capture. intros H.
  destruct (negb pinned || dir_is pd (step, side));
    [|injection H as <-; exists []; rewrite app_nil_r;
      split; [reflexivity|intros m []]].
  unfold obind at 1 in H.
  destruct (board_get (board s) (row + step) (col + side)) as [target|] eqn:Ht;
    [|discriminate].
  unfold obind at 1 in H.
  match type of H with
  | match ?o with _ => _ end = _ =>
      destruct o as [moves1|] eqn:E1; [|discriminate]
  end.
  assert (exists e1, moves1 = moves ++ e1
                     /\ forall m, In m e1 -> captures side m)
    as (e1 & -> & H1).
  { destruct (Ascii.eqb (fst target) enemy) eqn:Hen;
      [|injection E1 as <-; exists []; rewrite app_nil_r;
        split; [reflexivity|intros m []]].
    apply Ascii.eqb_eq in Hen.
    apply append_move_inv in E1. destruct E1 as (m0 & Hm0 & ->).
    exists [m0]. split; [reflexivity|]. intros m [<-|[]].
    pose proof (@Move_init_captured _ _ _ _ _ Hm0) as Hcap.
    apply Move_init_fields in Hm0.
    destruct Hm0 as (F1 & F2 & F3 & F4 & F5 & _).
    cbn [fst snd] in *. unfold captures, pawn_captures. cbv zeta.
    fold step. fold enemy.
    split; [exact F1|]. split; [exact F2|]. split; [exact F3|].
    split; [exact F4|]. left.
    split; [exact F5|]. split; [rewrite F3, F4; exact Hcap|].
    rewrite Ht in Hcap. injection Hcap as <-. exact Hen. }
  destruct (ep_is (enpassant_possible s) (row + step, col + side)) eqn:Hep;
    [|injection H as <-; exists e1; auto].
  assert (enpassant_possible s = Some (row + step, col + side)) as Hsq.
  { unfold ep_is in Hep. destruct (enpassant_possible s) as [e|];
      [|discriminate]. apply square_eqb_eq in Hep. rewrite <- Hep.
    reflexivity. }
  unfold _addEnPassantIfValid in H. unfold obind at 1 in H.
  match type of H with
  | match ?o with _ => _ end = _ => destruct o as [ab|]; [|discriminate]
  end.
  destruct (negb (fst ab) || snd ab); [|injection H as <-; exists e1; auto].
  apply append_move_inv in H. destruct H as (m0 & Hm0 & ->).
  exists (e1 ++ [m0]). rewrite app_assoc. split; [reflexivity|].
  intros m Hm. apply in_app_or in Hm. destruct Hm as [Hm|[<-|[]]]; [auto|].
  pose proof (@Move_init_ep_captured _ _ _ _ _ Hm0) as Hcap.
  apply Move_init_fields in Hm0.
  destruct Hm0 as (F1 & F2 & F3 & F4 & F5 & _ & F7 & _).
  cbn [fst snd] in *. unfold captures, pawn_captures. cbv zeta.
  fold step. fold enemy.
  split; [exact F1|]. split; [exact F2|]. split; [exact F3|].
  split; [exact F4|]. right. split; [exact F5|].
  split; [rewrite F3, F4; exact Hsq|]. split; [exact F7|exact Hcap].
Qed.

Lemma pawn_body_sound (pinned : bool) (pd : option (Z * Z))
  (moves moves' : list Move) :
  pawn_body s pinned pd row col moves = Some moves' ->
  exists extra,
    moves' = moves ++ extra
    /\ forall m, In m extra ->
         advances m
         \/ (0 <= col - 1 /\ captures (-1) m)
         \/ (col + 1 <= 7 /\ captures 1 m).
Proof.
  unfold pawn_body. cbv zeta. fold step. fold enemy. intros H.
  unfold obind at 1 in H.
  destruct (board_get (board s) (row + step) col) as [ahead|] eqn:Ha;
    [|discriminate].
  unfold obind at 1 in H.
  match type of H with
  | match ?o with _ => _ end = _ =>
      destruct o as [moves1|] eqn:E1; [|discriminate]
  end.
  assert (exists e1, moves1 = moves ++ e1
                     /\ forall m, In m e1 -> advances m) as (e1 & -> & H1).
  { clear H.
    destruct (piece_eqb ahead EMPTY_SQUARE) eqn:Hempty;
      [|injection E1 as <-; exists []; rewrite app_nil_r;
        split; [reflexivity|intros m []]].
    apply piece_eqb_eq in Hempty. subst ahead.
    destruct (negb pinned || dir_is pd (step, 0));
      [|injection E1 as <-; exists []; rewrite app_nil_r;
        split; [reflexivity|intros m []]].
    unfold obind at 1 in E1.
    destruct (append_move (board s) (row, col) (row + step, col) false false
                moves) as [l1|] eqn:E; [|discriminate].
    apply append_move_inv in E. destruct E as (m0 & Hm0 & ->).
    assert (advances m0) as A0.
    { pose proof (@Move_init_captured _ _ _ _ _ Hm0) as Hcap.
      apply Move_init_fields in Hm0.
      destruct Hm0 as (F1 & F2 & F3 & F4 & F5 & _).
      cbn [fst snd] in *. unfold advances, pawn_advances. cbv zeta.
      fold step.
      split; [exact F1|]. split; [exact F2|]. split; [exact F4|].
      split; [exact F5|].
      split; [rewrite Ha in Hcap; congruence|].
      split; [exact Ha|left; exact F3]. }
    destruct (row =? (if white_to_move s then 6 else 1)) eqn:Hrow;
      [|injection E1 as <-; exists [m0]; split; [reflexivity|];
        intros m [<-|[]]; exact A0].
    apply Z.eqb_eq in Hrow. unfold obind at 1 in E1.
    destruct (board_get (board s) (row + 2 * step) col) as [ahead2|] eqn:Ha2;
      [|discriminate].
    destruct (piece_eqb ahead2 EMPTY_SQUARE) eqn:Hempty2;
      [|injection E1 as <-; exists [m0]; split; [reflexivity|];
        intros m [<-|[]]; exact A0].
    apply piece_eqb_eq in Hempty2. subst ahead2.
    apply append_move_inv in E1. destruct E1 as (m2 & Hm2 & ->).
    exists [m0; m2]. rewrite <- app_assoc. split; [reflexivity|].
    intros m [<-|[<-|[]]]; [exact A0|].
    pose proof (@Move_init_captured _ _ _ _ _ Hm2) as Hcap.
    apply Move_init_fields in Hm2.
    destruct Hm2 as (F1 & F2 & F3 & F4 & F5 & _).
    cbn [fst snd] in *. unfold advances, pawn_advances. cbv zeta.
      fold step.
    split; [exact F1|]. split; [exact F2|]. split; [exact F4|].
    split; [exact F5|].
    split; [rewrite Ha2 in Hcap; congruence|].
    split; [exact Ha|right; split; [exact F3|exact Hrow]]. }
  unfold obind at 1 in H.
  match type of H with
  | match ?o with _ => _ end = _ =>
      destruct o as [moves2|] eqn:E2; [|discriminate]
  end.
  assert (exists e2, moves2 = (moves ++ e1) ++ e2
                     /\ forall m, In m e2 ->
                          0 <= col - 1 /\ captures (-1) m)
    as (e2 & -> & H2).
  { destruct (col - 1 >=? 0) eqn:Hc;
      [|injection E2 as <-; exists []; rewrite app_nil_r;
        split; [reflexivity|intros m []]].
    apply pawn_capture_sound in E2. destruct E2 as (e2 & -> & X).
    exists e2. split; [reflexivity|]. intros m Hm.
    split; [apply Z.geb_le in Hc; lia|auto]. }
  assert (exists e3, moves' = ((moves ++ e1) ++ e2) ++ e3
                     /\ forall m, In m e3 ->
                          col + 1 <= 7 /\ captures 1 m)
    as (e3 & -> & H3).
  { destruct (col + 1 <=? 7) eqn:Hc;
      [|injection H as <-; exists []; rewrite app_nil_r;
        split; [reflexivity|intros m []]].
    apply pawn_capture_sound in H. destruct H as (e3 & -> & X).
    exists e3. split; [reflexivity|]. intros m Hm.
    split; [apply Z.leb_le in Hc; lia|auto]. }
  exists (e1 ++ e2 ++ e3). rewrite !app_assoc. split; [reflexivity|].
  intros m Hm. rewrite <- app_assoc in Hm.
  apply in_app_or in Hm. destruct Hm as [Hm|Hm]; [auto|].
  apply in_app_or in Hm. destruct Hm as [Hm|Hm]; auto.
Qed.

End PawnFacts.

(** X20: [getPawnMoves] keeps the moves already in the list, and every move
    it appends starts on the given square and is one of these: an
    advance straight ahead onto an empty square, by one row or, from the
    pawn's starting row only, by two; a capture one row ahead and one
    column aside, within the board's columns, of a piece of the other
    side standing there; or an en-passant capture one row ahead and one
    column aside onto the en-passant square of the state.  "Ahead" is
    towards row 0 for white and towards row 7 for black. *)
Theorem pawn_moves_shape (row col : Z) (moves moves' : list Move)
  (s s' : GameState) :
  getPawnMoves row col moves s = Some (moves', s') ->
  let step := if white_to_move s then -1 else 1 in
  exists extra,
    moves' = moves ++ extra
    /\ forall m, In m extra ->
         start_row m = row /\ start_col m = col
         /\ ((end_col m = col
              /\ is_enpassant_move m = false
              /\ piece_captured m = EMPTY_SQUARE
              /\ board_get (board s) (row + step) col = Some EMPTY_SQUARE
              /\ (end_row m = row + step
                  \/ (end_row m = row + 2 * step
                      /\ row = (if white_to_move s then 6 else 1))))
             \/ (end_row m = row + step
                 /\ ((end_col m = col - 1 /\ 0 <= end_col m)
                     \/ (end_col m = col + 1 /\ end_col m <= 7))
                 /\ ((is_enpassant_move m = false
                      /\ board_get (board s) (end_row m) (end_col m)
                         = Some (piece_captured m)
                      /\ fst (piece_captured m)
                         = (if white_to_move s then "b" else "w"))
                     \/ (is_enpassant_move m = true
                         /\ enpassant_possible s
                            = Some (end_row m, end_col m))))).
Proof.
  intros H step. unfold getPawnMoves in H.
  apply bind_inv in H. destruct H as (pp & s1 & H1 & H2).
  apply reads_inv in H2. destruct H2 as [E2 H2]. subst s'.
  pose proof (@untouched_take_pin _ board (fun _ _ => eq_refl) false row col
                _ _ _ H1) as Eb.
  pose proof (@untouched_take_pin _ white_to_move (fun _ _ => eq_refl)
                false row col _ _ _ H1) as Et.
  pose proof (@untouched_take_pin _ enpassant_possible (fun _ _ => eq_refl)
                false row col _ _ _ H1) as Ee.
  apply pawn_body_sound in H2.
  destruct H2 as (extra & -> & Hex).
  exists extra. split; [reflexivity|].
  intros m Hm.
  destruct (Hex m Hm) as [A|[[Hc C]|[Hc C]]].
  - unfold pawn_advances in A. cbv zeta in A. rewrite Eb, Et in A.
    fold step in A.
    destruct A as (A1 & A2 & A3 & A4 & A5 & A6 & A7).
    split; [exact A1|]. split; [exact A2|]. left. auto.
  - unfold pawn_captures in C. cbv zeta in C. rewrite Eb, Et, Ee in C.
    fold step in C.
    destruct C as (C1 & C2 & C3 & C4 & C5).
    split; [exact C1|]. split; [exact C2|]. right.
    split; [exact C3|]. split; [left; lia|].
    destruct C5 as [C5|(C5 & C6 & _)]; [left; exact C5|right; auto].
  - unfold pawn_captures in C. cbv zeta in C. rewrite Eb, Et, Ee in C.
    fold step in C.
    destruct C as (C1 & C2 & C3 & C4 & C5).
    split; [exact C1|]. split; [exact C2|]. right.
    split; [exact C3|]. split; [right; lia|].
    destruct C5 as [C5|(C5 & C6 & _)]; [left; exact C5|right; auto].
Qed.

Lemma pawn_moves_shape_witness :
  exists moves' s' extra,
    getPawnMoves 6 4 [] GameState_init = Some (moves', s')
    /\ moves' = [] ++ extra.
Proof.
  assert (exists moves' s',
            getPawnMoves 6 4 [] GameState_init = Some (moves', s')) as H
    by (vm_compute; eexists _, _; reflexivity).
  destruct H as (moves' & s' & E).
  destruct (@pawn_moves_shape 6 4 [] moves' GameState_init s' E)
    as (extra & H1 & _).
  exists moves', s', extra. auto.
Defined.

Lemma detect_own_king (b : Board) (wtm : bool) (wk bk sq : Square) :
  (if wtm then wk else bk) = sq ->
  detect b wtm wk bk = detect b wtm sq sq.
Proof.
  intros <-. destruct wtm; reflexivity.
Qed.

Lemma king_loop_sound (b : Board) (wtm : bool) (row col : Z)
  (offs : list (Z * Z)) :
  forall moves moves' s s',
    board s = b -> white_to_move s = wtm ->
    king_loop (if wtm then "w" else "b") row col offs moves s
    = Some (moves', s') ->
    exists extra,
      moves' = moves ++ extra
      /\ forall m, In m extra ->
           start_row m = row /\ start_col m = col
           /\ (exists o, In o offs
                         /\ end_row m = row + fst o
                         /\ end_col m = col + snd o)
           /\ on_board (end_row m) (end_col m) = true
           /\ board_get b (end_row m) (end_col m) = Some (piece_captured m)
           /\ fst (piece_captured m) <> (if wtm then "w" else "b")
           /\ exists d,
                detect b wtm (end_row m, end_col m) (end_row m, end_col m)
                = Some d
                /\ d_in_check d = false.
Proof.
  induction offs as [|o rest IH]; intros moves moves' s s' Eb Et H;
    cbn [king_loop] in H.
  - injection H as <- _. exists []. rewrite app_nil_r.
    split; [reflexivity|intros m []].
  - assert (forall l t t',
               board t = b -> white_to_move t = wtm ->
               king_loop (if wtm then "w" else "b") row col rest l t
               = Some (moves', t') ->
               exists extra,
                 moves' = l ++ extra
                 /\ forall m, In m extra ->
                      start_row m = row /\ start_col m = col
                      /\ (exists o', In o' (o :: rest)
                                     /\ end_row m = row + fst o'
                                     /\ end_col m = col + snd o')
                      /\ on_board (end_row m) (end_col m) = true
                      /\ board_get b (end_row m) (end_col m)
                         = Some (piece_captured m)
                      /\ fst (piece_captured m) <> (if wtm then "w" else "b")
                      /\ exists d,
                           detect b wtm (end_row m, end_col m)
                             (end_row m, end_col m) = Some d
                           /\ d_in_check d = false) as Next.
    { intros l t t' Bt Tt Hl.
      destruct (IH _ _ _ _ Bt Tt Hl) as (extra & -> & Hex).
      exists extra. split; [reflexivity|].
      intros m Hm.
      destruct (Hex m Hm) as (A1 & A2 & (o' & Ho' & A3) & A4).
      split; [exact A1|]. split; [exact A2|].
      split; [exists o'; split; [right; exact Ho'|exact A3]|exact A4]. }
    destruct (on_board (row + fst o) (col + snd o)) eqn:Hon; [|eauto].
    apply bind_inv in H. destruct H as (p & s1 & H1 & H).
    apply reads_inv in H1. destruct H1 as [E1 Hp]. subst s1.
    rewrite Eb in Hp.
    destruct (negb (Ascii.eqb (fst p) (if wtm then "w" else "b"))) eqn:Hc;
      [|eauto].
    apply negb_true_iff, Ascii.eqb_neq in Hc.
    apply bind_inv in H. destruct H as ([] & s2 & H2 & H).
    apply bind_inv in H. destruct H as (d & s3 & H3 & H).
    apply bind_inv in H. destruct H as (moves1 & s4 & H4 & H).
    apply bind_inv in H. destruct H as ([] & s5 & H5 & H).
    unfold set_king_location in H2, H5.
    injection H2 as <-. injection H5 as <-.
    unfold checkForPinsAndChecks in H3.
    match type of H3 with
    | match ?o with _ => _ end = _ => destruct o as [d'|] eqn:Hd;
                                      [|discriminate]
    end.
    injection H3 as <- <-.
    assert (detect b wtm (row + fst o, col + snd o) (row + fst o, col + snd o)
            = Some d') as Hd'.
    { rewrite <- Hd. symmetry.
      replace (board (if Ascii.eqb (if wtm then "w" else "b") "w"
                      then set_white_king_location s
                             (row + fst o, col + snd o)
                      else set_black_king_location s
                             (row + fst o, col + snd o))) with b
        by (destruct wtm; cbn; symmetry; exact Eb).
      replace (white_to_move
                 (if Ascii.eqb (if wtm then "w" else "b") "w"
                  then set_white_king_location s (row + fst o, col + snd o)
                  else set_black_king_location s (row + fst o, col + snd o)))
        with wtm by (destruct wtm; cbn; symmetry; exact Et).
      apply detect_own_king. destruct wtm; reflexivity. }
    assert (s4 = set_detect
                   (if Ascii.eqb (if wtm then "w" else "b") "w"
                    then set_white_king_location s (row + fst o, col + snd o)
                    else set_black_king_location s (row + fst o, col + snd o))
                   d'
            /\ exists e1,
                 moves1 = moves ++ e1
                 /\ forall m, In m e1 ->
                      Move_init (row, col) (row + fst o, col + snd o) b
                        false false = Some m
                      /\ d_in_check d' = false) as (E4 & e1 & -> & G).
    { destruct (negb (d_in_check d')) eqn:Hic.
      - apply negb_true_iff in Hic.
        apply reads_inv in H4. destruct H4 as [E4 H4].
        split; [exact E4|].
        replace (board (set_detect _ d')) with b in H4
          by (destruct wtm; cbn; symmetry; exact Eb).
        apply append_move_inv in H4. destruct H4 as (m0 & Hm0 & ->).
        exists [m0]. split; [reflexivity|].
        intros m [<-|[]]. auto.
      - injection H4 as <- <-. split; [reflexivity|].
        exists []. rewrite app_nil_r. split; [reflexivity|intros m []]. }
    subst s4.
    apply Next in H;
      [|destruct wtm; cbn; exact Eb|destruct wtm; cbn; exact Et].
    destruct H as (e2 & -> & Hex).
    exists (e1 ++ e2). rewrite app_assoc. split; [reflexivity|].
    intros m Hm. apply in_app_or in Hm. destruct Hm as [Hm|Hm]; [|auto].
    destruct (G m Hm) as [Hm0 Hic].
    pose proof (@Move_init_captured _ _ _ _ _ Hm0) as Hcap.
    apply Move_init_fields in Hm0.
    destruct Hm0 as (F1 & F2 & F3 & F4 & _).
    cbn [fst snd] in *. rewrite F3, F4.
    split; [exact F1|]. split; [exact F2|].
    split; [exists o; split; [left; reflexivity|auto]|].
    split; [exact Hon|]. split; [exact Hcap|].
    split; [rewrite Hp in Hcap; injection Hcap as <-; exact Hc|].
    exists d'. auto.
Qed.

(** X21: [getKingMoves] keeps the moves already in the list, and every move
    it appends starts on the given square and ends one step away in one
    of the eight directions, on a square of the board that does not hold
    a piece of the side to move; it records as captured what stands
    there; and the detector, run with the king of the side to move
    placed on that end square (the king's own square is not vacated on
    the board), reported no check. *)
Theorem king_moves_are_unchecked_steps (row col : Z)
  (moves moves' : list Move) (s s' : GameState) :
  getKingMoves row col moves s = Some (moves', s') ->
  exists extra,
    moves' = moves ++ extra
    /\ forall m, In m extra ->
         start_row m = row /\ start_col m = col
         /\ (exists o, In o king_offsets
                       /\ end_row m = row + fst o
                       /\ end_col m = col + snd o)
         /\ on_board (end_row m) (end_col m) = true
         /\ board_get (board s) (end_row m) (end_col m)
            = Some (piece_captured m)
         /\ fst (piece_captured m) <> (if white_to_move s then "w" else "b")
         /\ exists d,
              detect (board s) (white_to_move s) (end_row m, end_col m)
                (end_row m, end_col m) = Some d
              /\ d_in_check d = false.
Proof.
  intros H. unfold getKingMoves in H.
  eapply king_loop_sound; [reflexivity|reflexivity|exact H].
Qed.

Lemma king_moves_are_unchecked_steps_witness :
  exists moves' s' extra,
    getKingMoves 7 0 [] pos_lone_king = Some (moves', s')
    /\ moves' = [] ++ extra.
Proof.
  assert (exists moves' s',
            getKingMoves 7 0 [] pos_lone_king = Some (moves', s')) as H
    by (vm_compute; eexists _, _; reflexivity).
  destruct H as (moves' & s' & E).
  destruct (@king_moves_are_unchecked_steps 7 0 [] moves' pos_lone_king s' E)
    as (extra & H1 & _).
  exists moves', s', extra. auto.
Defined.

(** ** [getAllPossibleMoves]: whose pieces move, and what they take *)

Lemma slide_no_own_capture (dirs : list (Z * Z)) (q : bool) (row col : Z)
  (moves moves' : list Move) (s s' : GameState) :
  bind (take_pin q row col)
    (fun pp => reads (fun t =>
       slide_body dirs t (fst pp) (snd pp) row col moves)) s
  = Some (moves', s') ->
  board s' = board s /\ white_to_move s' = white_to_move s
  /\ exists extra,
       moves' = moves ++ extra
       /\ forall m, In m extra ->
            fst (piece_captured m) <> (if white_to_move s then "w" else "b").
Proof.
  intros H. apply slide_moves_sound in H.
  destruct H as (extra & -> & Eb & Et & Hex).
  split; [exact Eb|]. split; [exact Et|].
  exists extra. split; [reflexivity|].
  intros m Hm.
  destruct (Hex m Hm) as (d & _ & _ & _ & _ & _ & i & _ & _ & _ & _ & _ & _
                          & [Hc|Hc]);
    rewrite Hc; destruct (white_to_move s); discriminate.
Qed.

Lemma moveFunctions_no_own_capture (piece : ascii) (row col : Z)
  (moves moves' : list Move) (s s' : GameState) :
  board_get (board s) row col
  = Some (if white_to_move s then "w" else "b", piece) ->
  moveFunctions piece row col moves s = Some (moves', s') ->
  exists extra,
    moves' = moves ++ extra
    /\ forall m, In m extra ->
         fst (piece_captured m) <> (if white_to_move s then "w" else "b").
Proof.
  intros Hsq. unfold moveFunctions.
  destruct (Ascii.eqb piece PAWN) eqn:Hp.
  { apply Ascii.eqb_eq in Hp. subst piece. intros H.
    unfold getPawnMoves in H.
    apply bind_inv in H. destruct H as (pp & s1 & H1 & H2).
    apply reads_inv in H2. destruct H2 as [E2 H2]. subst s'.
    pose proof (@untouched_take_pin _ board (fun _ _ => eq_refl) false
                  row col _ _ _ H1) as Eb.
    pose proof (@untouched_take_pin _ white_to_move (fun _ _ => eq_refl)
                  false row col _ _ _ H1) as Et.
    apply pawn_body_sound in H2. destruct H2 as (extra & -> & Hex).
    exists extra. split; [reflexivity|].
    intros m Hm.
    assert (forall side, pawn_captures s1 row col side m ->
              fst (piece_captured m)
              <> (if white_to_move s then "w" else "b")) as Cap.
    { intros side C. unfold pawn_captures in C. cbv zeta in C.
      rewrite Eb, Et in C.
      destruct C as (_ & _ & _ & _ & [(_ & _ & C)|(_ & _ & C1 & C2)]).
      - rewrite C. destruct (white_to_move s); discriminate.
      - rewrite Hsq in C1. injection C1 as C1. rewrite C2, <- C1.
        destruct (white_to_move s); discriminate. }
    destruct (Hex m Hm) as [A|[[_ C]|[_ C]]]; [|eapply Cap; eauto ..].
    unfold pawn_advances in A. cbv zeta in A.
    destruct A as (_ & _ & _ & _ & A & _). rewrite A.
    destruct (white_to_move s); discriminate. }
  destruct (Ascii.eqb piece ROOK).
  { intros H. unfold getRookMoves in H.
    apply slide_no_own_capture in H. apply H. }
  destruct (Ascii.eqb piece KNIGHT).
  { intros H. unfold getKnightMoves in H.
    apply bind_inv in H. destruct H as (pp & s1 & H1 & H2).
    apply reads_inv in H2. destruct H2 as [E2 H2]. subst s'.
    pose proof (@untouched_take_pin _ white_to_move (fun _ _ => eq_refl)
                  false row col _ _ _ H1) as Et.
    rewrite Et in H2. apply knight_body_sound in H2.
    destruct H2 as (extra & -> & _ & Hex).
    exists extra. split; [reflexivity|].
    intros m Hm. apply (Hex m Hm). }
  destruct (Ascii.eqb piece BISHOP).
  { intros H. unfold getBishopMoves in H.
    apply slide_no_own_capture in H. apply H. }
  destruct (Ascii.eqb piece QUEEN).
  { intros H. unfold getQueenMoves in H.
    apply bind_inv in H. destruct H as (moves1 & s1 & H1 & H2).
    unfold getRookMoves in H1. unfold getBishopMoves in H2.
    apply slide_no_own_capture in H1. apply slide_no_own_capture in H2.
    destruct H1 as (_ & Et & e1 & -> & X1).
    destruct H2 as (_ & _ & e2 & -> & X2). rewrite Et in X2.
    exists (e1 ++ e2). rewrite app_assoc. split; [reflexivity|].
    intros m Hm. apply in_app_or in Hm. destruct Hm; auto. }
  destruct (Ascii.eqb piece KING).
  { intros H. unfold getKingMoves in H.
    apply (@king_loop_sound (board s) (white_to_move s)) in H;
      [|reflexivity|reflexivity].
    destruct H as (extra & -> & Hex).
    exists extra. split; [reflexivity|].
    intros m Hm. apply (Hex m Hm). }
  discriminate.
Qed.

Lemma all_moves_loop_own_pieces (s0 : GameState) (squares : list Square) :
  Forall (fun sq => on_board (fst sq) (snd sq) = true) squares ->
  forall moves moves' s s',
    board s = board s0 -> white_to_move s = white_to_move s0 ->
    all_moves_loop squares moves s = Some (moves', s') ->
    exists extra,
      moves' = moves ++ extra
      /\ forall m, In m extra ->
           on_board (start_row m) (start_col m) = true
           /\ board_get (board s0) (start_row m) (start_col m)
              = Some (piece_moved m)
           /\ fst (piece_moved m)
              = (if white_to_move s0 then WHITE_COLOR else BLACK_COLOR)
           /\ fst (piece_captured m)
              <> (if white_to_move s0 then WHITE_COLOR else BLACK_COLOR).
Proof.
  induction squares as [|[row col] rest IH];
    intros Hsq moves moves' s s' Eb Et H; cbn [all_moves_loop] in H.
  - injection H as <- _. exists []. rewrite app_nil_r.
    split; [reflexivity|intros m []].
  - inversion Hsq as [|x l Hon Hrest]. subst x l. cbn [fst snd] in Hon.
    apply bind_inv in H. destruct H as (sq & s1 & H1 & H).
    apply reads_inv in H1. destruct H1 as [E1 H1]. subst s1.
    apply bind_inv in H. destruct H as (wtm & s1 & H2 & H).
    apply reads_inv in H2. destruct H2 as [E2 H2]. subst s1.
    injection H2 as <-.
    destruct ((Ascii.eqb (fst sq) WHITE_COLOR && white_to_move s)
              || (Ascii.eqb (fst sq) BLACK_COLOR && negb (white_to_move s)))
      eqn:Hturn; [|eapply IH; eauto].
    apply bind_inv in H. destruct H as (moves1 & s1 & H3 & H).
    pose proof (grows_moveFunctions _ _ _ _ _ H3) as (e1 & -> & G1).
    pose proof (@untouched_moveFunctions _ board (fun _ _ => eq_refl)
                  (fun _ _ => eq_refl) (fun _ _ => eq_refl)
                  (fun _ _ => eq_refl) _ _ _ _ _ _ _ H3) as B1.
    pose proof (@untouched_moveFunctions _ white_to_move (fun _ _ => eq_refl)
                  (fun _ _ => eq_refl) (fun _ _ => eq_refl)
                  (fun _ _ => eq_refl) _ _ _ _ _ _ _ H3) as T1.
    destruct (IH Hrest _ _ _ _ (eq_trans B1 Eb) (eq_trans T1 Et) H)
      as (e2 & -> & G2).
    exists (e1 ++ e2). rewrite app_assoc. split; [reflexivity|].
    intros m Hm. apply in_app_or in Hm. destruct Hm as [Hm|Hm]; [|auto].
    assert (fst sq = (if white_to_move s then WHITE_COLOR else BLACK_COLOR))
      as Hcol.
    { destruct (white_to_move s); cbn in Hturn;
        rewrite ?andb_true_r, ?andb_false_r, ?orb_false_r in Hturn;
        cbn in Hturn; apply Ascii.eqb_eq in Hturn; exact Hturn. }
    assert (board_get (board s) row col
            = Some (if white_to_move s then "w" else "b", snd sq)) as Hsq'.
    { rewrite H1. destruct sq as [c k]. cbn in Hcol |- *. rewrite Hcol.
      destruct (white_to_move s); reflexivity. }
    destruct (moveFunctions_no_own_capture _ _ _ _ Hsq' H3)
      as (e1' & E1' & N1).
    apply app_inv_head in E1'. subst e1'.
    destruct (G1 m Hm) as (en & ep & ca & Hinit).
    apply Move_init_fields in Hinit.
    destruct Hinit as (F1 & F2 & _ & _ & _ & _ & Fpm & _).
    cbn [fst snd] in *. rewrite F1, F2.
    split; [exact Hon|]. rewrite <- Eb. split; [exact Fpm|].
    rewrite H1 in Fpm. injection Fpm as <-.
    rewrite <- Et. split; [exact Hcol|].
    pose proof (N1 m Hm) as N. destruct (white_to_move s); exact N.
Qed.

(** X18: every move [getAllPossibleMoves] returns starts on a square of
    the board; the piece it records as moved is the piece standing on
    that square, a piece of the side to move; and the piece it records
    as captured is never of the side to move. *)
Theorem generated_moves_move_own_pieces (s s' : GameState)
  (moves : list Move) (m : Move) :
  getAllPossibleMoves s = Some (moves, s') ->
  In m moves ->
  on_board (start_row m) (start_col m) = true
  /\ board_get (board s) (start_row m) (start_col m) = Some (piece_moved m)
  /\ fst (piece_moved m)
     = (if white_to_move s then WHITE_COLOR else BLACK_COLOR)
  /\ fst (piece_captured m)
     <> (if white_to_move s then WHITE_COLOR else BLACK_COLOR).
Proof.
  intros H Hm. unfold getAllPossibleMoves in H.
  destruct (@all_moves_loop_own_pieces s all_squares all_squares_on_board
              [] moves s s' eq_refl eq_refl H) as (extra & -> & G).
  apply G. exact Hm.
Qed.

Lemma generated_moves_move_own_pieces_witness :
  exists moves s' m,
    getAllPossibleMoves GameState_init = Some (moves, s')
    /\ In m moves
    /\ fst (piece_moved m) = WHITE_COLOR.
Proof.
  assert (exists moves s' m rest,
            getAllPossibleMoves GameState_init = Some (moves, s')
            /\ moves = m :: rest) as H
    by (vm_compute; eexists _, _, _, _; split; reflexivity).
  destruct H as (moves & s' & m & rest & E & El).
  assert (In m moves) as Hin by (rewrite El; left; reflexivity).
  destruct (@generated_moves_move_own_pieces GameState_init s' moves m E Hin)
    as (_ & _ & H3 & _).
  exists moves, s', m. auto.
Defined.

(** ** [ChessEngine.py]: castling moves and the check filter *)

Lemma board_is_empty_inv (r c : Z) (t t' : GameState) (e : bool) :
  board_is_empty r c t = Some (e, t') ->
  t' = t
  /\ (e = true -> board_get (board t) r c = Some EMPTY_SQUARE).
Proof.
  unfold board_is_empty. intros H.
  apply bind_inv in H. destruct H as (p & t1 & H1 & H2).
  apply reads_inv in H1. destruct H1 as [E1 Hp]. subst t1.
  injection H2 as <- <-. split; [reflexivity|].
  intros He. apply piece_eqb_eq in He. subst p. exact Hp.
Qed.

Lemma squareUnderAttack_board (r c : Z) (t t' : GameState) (a : bool) :
  squareUnderAttack r c t = Some (a, t') -> board t' = board t.
Proof.
  apply (@untouched_squareUnderAttack _ board); reflexivity.
Qed.

Lemma castle_append_inv (t : GameState) (b : Board) (row col ec : Z)
  (moves moves' : list Move) (t' : GameState) :
  board t = b ->
  reads (fun u => append_move (board u) (row, col) (row, ec) false true
                    moves) t = Some (moves', t') ->
  exists m,
    moves' = moves ++ [m]
    /\ is_castle_move m = true /\ start_row m = row /\ start_col m = col
    /\ end_row m = row /\ end_col m = ec.
Proof.
  intros Eb H. apply reads_inv in H. destruct H as [_ H].
  apply append_move_inv in H. destruct H as (m & Hm & ->).
  apply Move_init_fields in Hm.
  destruct Hm as (F1 & F2 & F3 & F4 & _ & F6 & _).
  exists m. cbn [fst snd] in *. auto 10.
Qed.

Lemma kingside_sound (row col : Z) (moves moves' : list Move)
  (t t' : GameState) :
  _getKingsideCastleMoves row col moves t = Some (moves', t') ->
  board t' = board t
  /\ exists extra,
       moves' = moves ++ extra
       /\ forall m, In m extra ->
            is_castle_move m = true
            /\ start_row m = row /\ start_col m = col
            /\ end_row m = row /\ end_col m = col + 2
            /\ board_get (board t) row (col + 1) = Some EMPTY_SQUARE
            /\ board_get (board t) row (col + 2) = Some EMPTY_SQUARE.
Proof.
  unfold _getKingsideCastleMoves. intros H.
  assert (board t = board t
          /\ exists extra,
               moves = moves ++ extra
               /\ forall m, In m extra ->
                    is_castle_move m = true
                    /\ start_row m = row /\ start_col m = col
                    /\ end_row m = row /\ end_col m = col + 2
                    /\ board_get (board t) row (col + 1) = Some EMPTY_SQUARE
                    /\ board_get (board t) row (col + 2)
                       = Some EMPTY_SQUARE) as Nothing.
  { split; [reflexivity|]. exists []. rewrite app_nil_r.
    split; [reflexivity|intros m []]. }
  apply bind_inv in H. destruct H as (e1 & t1 & H1 & H).
  apply board_is_empty_inv in H1. destruct H1 as [-> X1].
  destruct e1; [|injection H as <- <-; exact Nothing].
  apply bind_inv in H. destruct H as (e2 & t2 & H2 & H).
  apply board_is_empty_inv in H2. destruct H2 as [-> X2].
  destruct e2; [|injection H as <- <-; exact Nothing].
  apply bind_inv in H. destruct H as (a1 & t3 & H3 & H).
  apply squareUnderAttack_board in H3.
  destruct (negb a1);
    [|injection H as <- <-; exact (conj H3 (proj2 Nothing))].
  apply bind_inv in H. destruct H as (a2 & t4 & H4 & H).
  apply squareUnderAttack_board in H4.
  destruct (negb a2);
    [|injection H as <- <-; exact (conj (eq_trans H4 H3) (proj2 Nothing))].
  pose proof H as H'. apply reads_inv in H'. destruct H' as [-> _].
  apply (@castle_append_inv _ (board t4) _ _ _ _ _ _ eq_refl) in H.
  destruct H as (m & -> & F).
  split; [exact (eq_trans H4 H3)|].
  exists [m]. split; [reflexivity|].
  intros m' [<-|[]].
  destruct F as (F1 & F2 & F3 & F4 & F5). auto 10.
Qed.

Lemma queenside_sound (row col : Z) (moves moves' : list Move)
  (t t' : GameState) :
  _getQueensideCastleMoves row col moves t = Some (moves', t') ->
  board t' = board t
  /\ exists extra,
       moves' = moves ++ extra
       /\ forall m, In m extra ->
            is_castle_move m = true
            /\ start_row m = row /\ start_col m = col
            /\ end_row m = row /\ end_col m = col - 2
            /\ board_get (board t) row (col - 1) = Some EMPTY_SQUARE
            /\ board_get (board t) row (col - 2) = Some EMPTY_SQUARE
            /\ board_get (board t) row (col - 3) = Some EMPTY_SQUARE.
Proof.
  unfold _getQueensideCastleMoves. intros H.
  assert (exists extra,
            moves = moves ++ extra
            /\ forall m, In m extra ->
                 is_castle_move m = true
                 /\ start_row m = row /\ start_col m = col
                 /\ end_row m = row /\ end_col m = col - 2
                 /\ board_get (board t) row (col - 1) = Some EMPTY_SQUARE
                 /\ board_get (board t) row (col - 2) = Some EMPTY_SQUARE
                 /\ board_get (board t) row (col - 3) = Some EMPTY_SQUARE)
    as Nothing.
  { exists []. rewrite app_nil_r. split; [reflexivity|intros m []]. }
  apply bind_inv in H. destruct H as (e1 & t1 & H1 & H).
  apply board_is_empty_inv in H1. destruct H1 as [-> X1].
  destruct e1; [|injection H as <- <-; exact (conj eq_refl Nothing)].
  apply bind_inv in H. destruct H as (e2 & t2 & H2 & H).
  apply board_is_empty_inv in H2. destruct H2 as [-> X2].
  destruct e2; [|injection H as <- <-; exact (conj eq_refl Nothing)].
  apply bind_inv in H. destruct H as (e3 & t2 & H2 & H).
  apply board_is_empty_inv in H2. destruct H2 as [-> X3].
  destruct e3; [|injection H as <- <-; exact (conj eq_refl Nothing)].
  apply bind_inv in H. destruct H as (a1 & t3 & H3 & H).
  apply squareUnderAttack_board in H3.
  destruct (negb a1); [|injection H as <- <-; exact (conj H3 Nothing)].
  apply bind_inv in H. destruct H as (a2 & t4 & H4 & H).
  apply squareUnderAttack_board in H4.
  destruct (negb a2);
    [|injection H as <- <-; exact (conj (eq_trans H4 H3) Nothing)].
  pose proof H as H'. apply reads_inv in H'. destruct H' as [-> _].
  apply (@castle_append_inv _ (board t4) _ _ _ _ _ _ eq_refl) in H.
  destruct H as (m & -> & F).
  split; [exact (eq_trans H4 H3)|].
  exists [m]. split; [reflexivity|].
  intros m' [<-|[]].
  destruct F as (F1 & F2 & F3 & F4 & F5). auto 10.
Qed.

Lemma squareUnderAttack_turn (r c : Z) :
  keeps white_to_move (squareUnderAttack r c).
Proof.
  intros t a t' H. unfold squareUnderAttack, flip_turn in H.
  apply bind_inv in H. destruct H as ([] & t1 & H1 & H).
  apply bind_inv in H. destruct H as (l & t2 & H2 & H).
  apply bind_inv in H. destruct H as ([] & t3 & H3 & H).
  injection H as _ <-. injection H3 as <-. injection H1 as <-.
  unfold getAllPossibleMoves in H2.
  apply (@untouched_all_moves_loop _ white_to_move (fun _ _ => eq_refl)
           (fun _ _ => eq_refl) (fun _ _ => eq_refl) (fun _ _ => eq_refl))
    in H2.
  cbn in *. rewrite H2. apply negb_involutive.
Qed.

Lemma castle_sides_keep {X : Type} (f : GameState -> X) (row col : Z)
  (moves : list Move) :
  (forall r c, keeps f (squareUnderAttack r c)) ->
  keeps f (_getKingsideCastleMoves row col moves)
  /\ keeps f (_getQueensideCastleMoves row col moves).
Proof.
  intros Hf.
  unfold _getKingsideCastleMoves, _getQueensideCastleMoves, board_is_empty.
  split; repeat first [ apply Hf | keeps_step ].
Qed.

Lemma squareUnderAttack_rights (r c : Z) :
  keeps rights (squareUnderAttack r c).
Proof.
  apply (@untouched_squareUnderAttack _ rights); reflexivity.
Qed.



Lemma valid_squares_loop_segment (kr kc cr cc d0 d1 : Z) (n : nat) :
  forall (a : nat) (k : Z) (acc : list Square),
    d0 <> 0 \/ d1 <> 0 ->
    1 + Z.of_nat a <= k < 1 + Z.of_nat a + Z.of_nat n ->
    cr = kr + d0 * k -> cc = kc + d1 * k ->
    valid_squares_loop kr kc (cr, cc, d0, d1)
      (map (fun j => 1 + Z.of_nat j) (seq a n)) acc
    = acc ++ map (fun i => (kr + d0 * i, kc + d1 * i))
               (map (fun j => 1 + Z.of_nat j)
                  (seq a (Z.to_nat k - a))).
Proof.
  induction n as [|n IH]; intros a k acc Hd Hk Hr Hc; [lia|].
  cbn [seq map valid_squares_loop].
  destruct (square_eqb (kr + d0 * (1 + Z.of_nat a), kc + d1 * (1 + Z.of_nat a))
              (cr, cc)) eqn:E.
  - apply square_eqb_eq in E.
    pose proof (f_equal fst E) as E1. pose proof (f_equal snd E) as E2.
    cbn [fst snd] in E1, E2.
    assert (k = 1 + Z.of_nat a) as ->.
    { rewrite Hr in E1. rewrite Hc in E2.
      destruct Hd as [Hd|Hd];
        [apply (Z.mul_reg_l _ _ d0 Hd)|apply (Z.mul_reg_l _ _ d1 Hd)]; lia. }
    replace (Z.to_nat (1 + Z.of_nat a) - a)%nat with 1%nat by lia.
    reflexivity.
  - assert (k <> 1 + Z.of_nat a) as Hne.
    { intros ->. unfold square_eqb in E. cbn in E.
      rewrite Hr, Hc, !Z.eqb_refl in E. discriminate. }
    rewrite (IH (S a) k) by (auto; lia).
    replace (Z.to_nat k - a)%nat with (S (Z.to_nat k - S a)) by lia.
    cbn [seq map]. rewrite <- app_assoc. reflexivity.
Qed.

(** X23: when the checking piece stands [k] steps (1 to 7) from the king
    along a direction that is not (0, 0), the loop of [getValidMoves]
    that collects the squares where the check can be blocked or the
    checker captured yields exactly the [k] squares from the one next to
    the king up to and including the checker's square, in that order. *)
Theorem valid_squares_are_the_segment (kr kc cr cc d0 d1 k : Z) :
  d0 <> 0 \/ d1 <> 0 ->
  1 <= k <= 7 ->
  cr = kr + d0 * k -> cc = kc + d1 * k ->
  valid_squares_loop kr kc (cr, cc, d0, d1) (Py.range 1 8) []
  = map (fun i => (kr + d0 * i, kc + d1 * i)) (Py.range 1 (k + 1)).
Proof.
  intros Hd Hk Hr Hc.
  change (Py.range 1 8) with (map (fun j => 1 + Z.of_nat j) (seq 0 7)).
  rewrite (@valid_squares_loop_segment kr kc cr cc d0 d1 7 0 k [] Hd)
    by (auto; lia).
  unfold Py.range. rewrite Nat.sub_0_r.
  replace (k + 1 - 1) with k by lia. reflexivity.
Qed.

Lemma valid_squares_are_the_segment_witness :
  valid_squares_loop 7 4 (4, 4, -1, 0) (Py.range 1 8) []
  = map (fun i => (7 + -1 * i, 4 + 0 * i)) (Py.range 1 (3 + 1)).
Proof.
  apply (@valid_squares_are_the_segment 7 4 4 4 (-1) 0 3); lia.
Defined.

Lemma get_middle {A : Type} (pre post : list A) (x : A) :
  Py.get (pre ++ x :: post) (Z.of_nat (length pre)) = Some x.
Proof.
  rewrite get_nonneg by lia. rewrite Nat2Z.id.
  rewrite nth_error_app2 by lia. rewrite Nat.sub_diag. reflexivity.
Qed.

Lemma remove_middle {A : Type} (eqb : A -> A -> bool) (pre post : list A)
  (x : A) :
  eqb x x = true ->
  (forall y, In y pre -> eqb y x = false) ->
  Py.remove eqb x (pre ++ x :: post) = Some (pre ++ post).
Proof.
  intros Hx. induction pre as [|y pre IH]; intros H; cbn.
  - rewrite Hx. reflexivity.
  - rewrite (H y) by (left; reflexivity).
    rewrite IH by (intros z Hz; apply H; right; exact Hz). reflexivity.
Qed.

Lemma remove_loop_filter (valid_squares : list Square) (pre : list Move) :
  forall post,
    NoDup (map moveID (pre ++ post)) ->
    remove_loop valid_squares
      (map (fun j => Z.of_nat (length pre) - 1 - Z.of_nat j)
         (seq 0 (length pre)))
      (pre ++ post)
    = Some (filter (fun m => Ascii.eqb (snd (piece_moved m)) KING
                             || existsb (square_eqb (end_row m, end_col m))
                                  valid_squares) pre ++ post).
Proof.
  induction pre as [|x pre IH] using rev_ind; intros post Hnd.
  - reflexivity.
  - rewrite length_app. cbn [length]. rewrite Nat.add_1_r.
    cbn [seq map]. rewrite <- seq_shift, map_map.
    replace (Z.of_nat (S (length pre)) - 1 - Z.of_nat 0)
      with (Z.of_nat (length pre)) by lia.
    rewrite (map_ext _ (fun j => Z.of_nat (length pre) - 1 - Z.of_nat j))
      by (intros j; lia).
    rewrite <- app_assoc. cbn [app remove_loop].
    rewrite get_middle. rewrite filter_app. cbn [filter].
    rewrite <- app_assoc in Hnd. cbn [app] in Hnd.
    destruct (Ascii.eqb (snd (piece_moved x)) KING); cbn [negb orb].
    + rewrite IH by exact Hnd. rewrite <- app_assoc. reflexivity.
    + destruct (existsb (square_eqb (end_row x, end_col x)) valid_squares);
        cbn [negb].
      * rewrite IH by exact Hnd. rewrite <- app_assoc. reflexivity.
      * rewrite remove_middle.
        -- rewrite app_nil_r. apply IH.
           rewrite map_app in *. cbn [map] in Hnd.
           apply NoDup_remove_1 in Hnd. exact Hnd.
        -- unfold Move_eqb. apply Z.eqb_refl.
        -- intros y Hy. unfold Move_eqb. apply Z.eqb_neq. intros E.
           rewrite map_app in Hnd. cbn [map] in Hnd.
           apply NoDup_remove_2 in Hnd. apply Hnd.
           apply in_or_app. left. rewrite <- E. apply in_map. exact Hy.
Qed.

(** X24: on a list of moves with pairwise different [moveID]s, the loop of
    [getValidMoves] that runs down the indices and removes the moves
    that neither block the check nor capture the checker returns, in
    their order, exactly the moves that are king moves or end on one of
    the valid squares, and does not raise. *)
Theorem remove_loop_keeps_blocks_and_king_moves
  (valid_squares : list Square) (moves : list Move) :
  NoDup (map moveID moves) ->
  remove_loop valid_squares
    (Py.range_down (Z.of_nat (length moves) - 1) (-1)) moves
  = Some (filter (fun m => Ascii.eqb (snd (piece_moved m)) KING
                           || existsb (square_eqb (end_row m, end_col m))
                                valid_squares) moves).
Proof.
  intros Hnd. unfold Py.range_down.
  replace (Z.to_nat (Z.of_nat (length moves) - 1 - -1)) with (length moves)
    by lia.
  pose proof (@remove_loop_filter valid_squares moves []) as H.
  rewrite !app_nil_r in H. apply H. exact Hnd.
Qed.

Lemma remove_loop_keeps_blocks_and_king_moves_witness :
  remove_loop [(6, 4)]
    (Py.range_down (Z.of_nat (length knight_check_moves) - 1) (-1))
    knight_check_moves
  = Some (filter (fun m => Ascii.eqb (snd (piece_moved m)) KING
                           || existsb (square_eqb (end_row m, end_col m))
                                [(6, 4)]) knight_check_moves).
Proof.
  apply (@remove_loop_keeps_blocks_and_king_moves [(6, 4)]
           knight_check_moves).
  vm_compute. repeat constructor; cbn; intuition discriminate.
Defined.

(** ** [evaluation.py]: the board score as a sum over the pieces *)

Section EvaluateFacts.

Variable CHECKMATE_SCORE : Z.
Variable STALEMATE_SCORE : Z.
Variable PIECE_VALUES : ascii -> option Z.
Variable PIECE_POSITION_SCORES : Piece -> Z -> Z -> option Z.

Lemma score_row_signed (row : Z) (pieces : list Piece) :
  forall col score v,
    score_row PIECE_VALUES PIECE_POSITION_SCORES row pieces col score
    = Some v ->
    exists r,
      signed_row PIECE_VALUES PIECE_POSITION_SCORES row pieces col = Some r
      /\ v = score + r.
Proof.
  induction pieces as [|piece rest IH]; intros col score v H;
    cbn [score_row signed_row] in *.
  - injection H as <-. exists 0. split; [reflexivity|lia].
  - unfold evaluatePiece.
    destruct (piece_eqb piece EMPTY_SQUARE); cbn [negb] in *.
    + destruct (IH _ _ _ H) as (r & -> & ->).
      exists (- 0 + r).
      split; [destruct (Ascii.eqb (fst piece) "w"); reflexivity|lia].
    + unfold obind in H.
      destruct (PIECE_VALUES (snd piece)) as [pv|]; [|discriminate].
      destruct (if negb (Ascii.eqb (snd piece) "K")
                then PIECE_POSITION_SCORES piece row col else Some 0)
        as [pp|]; [|discriminate].
      cbv zeta in *.
      destruct (IH _ _ _ H) as (r & -> & ->).
      eexists. split; [reflexivity|].
      destruct (Ascii.eqb (fst piece) "w"); lia.
Qed.

Lemma score_rows_signed (rows : list (list Piece)) :
  forall row score v,
    score_rows PIECE_VALUES PIECE_POSITION_SCORES rows row score = Some v ->
    exists r,
      signed_rows PIECE_VALUES PIECE_POSITION_SCORES rows row = Some r
      /\ v = score + r.
Proof.
  induction rows as [|pieces rest IH]; intros row score v H;
    cbn [score_rows signed_rows] in *.
  - injection H as <-. exists 0. split; [reflexivity|lia].
  - unfold obind in H.
    destruct (score_row PIECE_VALUES PIECE_POSITION_SCORES row pieces 0
                score) as [score'|] eqn:E; [|discriminate].
    apply score_row_signed in E. destruct E as (r1 & -> & ->).
    destruct (IH _ _ _ H) as (r2 & -> & ->).
    eexists. split; [reflexivity|lia].
Qed.


End EvaluateFacts.


(** ** [ChessEngine.py]: what an attack query leaves unchanged *)

(** X26: run from a state in which every king on the board stands on the
    square recorded for its colour, [inCheck] (and with it the
    [squareUnderAttack] and [getAllPossibleMoves] it calls) leaves the
    board, the side to move, the move history, both king locations, both
    terminal flags, the en-passant square and its log, and the castling
    rights and their log as they were: only [in_check], [pins] and
    [checks] may differ afterwards. *)
Theorem inCheck_changes_detector_fields_only (s s' : GameState)
  (attacked : bool) :
  kings_recorded s ->
  inCheck s = Some (attacked, s') ->
  board s' = board s /\ white_to_move s' = white_to_move s
  /\ move_log s' = move_log s
  /\ white_king_location s' = white_king_location s
  /\ black_king_location s' = black_king_location s
  /\ checkmate s' = checkmate s /\ stalemate s' = stalemate s
  /\ enpassant_possible s' = enpassant_possible s
  /\ enpassant_possible_log s' = enpassant_possible_log s
  /\ current_castling_rights s' = current_castling_rights s
  /\ castle_rights_log s' = castle_rights_log s.
Proof.
  intros K H. apply core_fields. exact (frames_inCheck K H).
Qed.

Lemma inCheck_changes_detector_fields_only_witness :
  exists attacked s',
    inCheck GameState_init = Some (attacked, s')
    /\ board s' = board GameState_init
    /\ white_to_move s' = white_to_move GameState_init.
Proof.
  assert (exists attacked s',
            inCheck GameState_init = Some (attacked, s')) as H
    by (vm_compute; eexists _, _; reflexivity).
  destruct H as (attacked & s' & E).
  assert (kings_recorded GameState_init) as K
      by (apply kings_recorded_b_sound; vm_compute; reflexivity).
  destruct (@inCheck_changes_detector_fields_only GameState_init s' attacked
              K E) as (H1 & H2 & _).
  exists attacked, s'. auto.
Defined.

(** ** [ChessEngine.py]: the board after an ordinary move *)

Lemma makeMove_needs_rights (m : Move) (s s1 : GameState) :
  makeMove m s = Some (tt, s1) -> exists cr, rights s = Some cr.
Proof.
  intros H. apply makeMove_inv in H.
  destruct H as (s7 & s8 & s9 & cr & _ & _ & C7 & L7 & H8 & -> & R9 & _).
  exists cr.
  pose proof (@keeps_castle_hop _ rights m (fun _ _ => eq_refl) _ _ _ H8)
    as K.
  unfold rights in *. cbn in R9, K. rewrite K, C7, L7 in R9. exact R9.
Qed.

(** The state [makeMove] leaves for a move that is neither a castle nor
    an en-passant capture, in terms of board cells. *)
Lemma makeMove_ordinary_cells (s s1 : GameState) (st en : Square)
  (m : Move) :
  on_board (fst st) (snd st) = true ->
  on_board (fst en) (snd en) = true ->
  Move_init st en (board s) false false = Some m ->
  makeMove m s = Some (tt, s1) ->
  cell (board s) (Z.to_nat (fst st)) (Z.to_nat (snd st))
  = Some (piece_moved m)
  /\ cell (board s) (Z.to_nat (fst en)) (Z.to_nat (snd en)) <> None
  /\ board s1
     = put (put (board s) (Z.to_nat (fst st)) (Z.to_nat (snd st))
              EMPTY_SQUARE)
         (Z.to_nat (fst en)) (Z.to_nat (snd en))
         (if is_pawn_promotion m then (fst (piece_moved m), QUEEN)
          else piece_moved m)
  /\ white_king_location s1
     = (if piece_eqb (piece_moved m) (WHITE_COLOR, KING)
        then en else white_king_location s)
  /\ black_king_location s1
     = (if piece_eqb (piece_moved m) (WHITE_COLOR, KING)
        then black_king_location s
        else if piece_eqb (piece_moved m) (BLACK_COLOR, KING)
             then en else black_king_location s).
Proof.
  intros Hs He Hm M.
  destruct (makeMove_needs_rights _ _ M) as (cr & R).
  pose proof (@Move_init_captured _ _ _ _ _ Hm) as Hpc.
  apply Move_init_fields in Hm.
  destruct Hm as (E1 & E2 & E3 & E4 & E5 & E6 & Hpm & _ & _).
  apply on_board_bounds in Hs, He.
  rewrite board_get_cell in Hpm, Hpc by lia.
  set (b := board s) in *.
  set (S0 := Z.to_nat (fst st)) in *. set (S1 := Z.to_nat (snd st)) in *.
  set (E0 := Z.to_nat (fst en)) in *. set (E1' := Z.to_nat (snd en)) in *.
  set (pm := piece_moved m) in *.
  assert (cell b S0 S1 <> None /\ cell b E0 E1' <> None) as (V1 & V2)
      by (split; congruence).
  set (v := if is_pawn_promotion m then (fst pm, QUEEN) else pm).
  set (b1 := put b S0 S1 EMPTY_SQUARE).
  assert (board_set b (start_row m) (start_col m) EMPTY_SQUARE = Some b1)
    as B1 by (rewrite E1, E2; apply board_set_valid; [lia|lia|exact V1]).
  assert (board_set b1 (end_row m) (end_col m) pm
          = Some (put b1 E0 E1' pm)) as B2.
  { rewrite E3, E4. apply board_set_valid; [lia|lia|].
    apply valid_put. exact V2. }
  assert ((if is_pawn_promotion m
           then board_set (put b1 E0 E1' pm) (end_row m) (end_col m)
                  (fst pm, QUEEN)
           else Some (put b1 E0 E1' pm)) = Some (put b1 E0 E1' v)) as B3.
  { unfold v. destruct (is_pawn_promotion m); [|reflexivity].
    rewrite E3, E4.
    etransitivity;
      [apply board_set_valid;
       [lia|lia|repeat apply valid_put; exact V2]|].
    fold E0 E1'. rewrite put_put. reflexivity. }
  assert ((if is_enpassant_move m
           then board_set (put b1 E0 E1' v) (start_row m) (end_col m)
                  EMPTY_SQUARE
           else Some (put b1 E0 E1' v)) = Some (put b1 E0 E1' v)) as B4
      by (rewrite E5; reflexivity).
  assert ((if is_castle_move m then
             if end_col m - start_col m =? 2
             then board_hop (put b1 E0 E1' v) (end_row m) (end_col m + 1)
                    (end_col m - 1)
             else board_hop (put b1 E0 E1' v) (end_row m) (end_col m - 2)
                    (end_col m + 1)
           else Some (put b1 E0 E1' v)) = Some (put b1 E0 E1' v)) as B5
      by (rewrite E6; reflexivity).
  destruct (@makeMove_forward m s _ _ _ _ _ cr B1 B2 B3 B4 B5 R)
    as (s1' & M' & F1 & _ & _ & F4 & F5 & _).
  rewrite M in M'. injection M' as <-.
  split; [exact Hpm|]. split; [exact V2|]. split; [exact F1|].
  rewrite F4, F5, E3, E4. fold pm. rewrite <- surjective_pairing.
  split; reflexivity.
Qed.

(** X29: after [makeMove] of a move built by [Move.__init__] between two
    squares of the board that is neither a castle nor an en-passant
    capture, the end square holds the moved piece (a queen of its
    colour if the move is a promotion), the start square, if it is
    another square, is empty, and every other square of the board holds
    what it held before. *)
Theorem makeMove_board_effect (s s1 : GameState) (st en : Square) (m : Move)
  (r c : Z) :
  on_board (fst st) (snd st) = true ->
  on_board (fst en) (snd en) = true ->
  Move_init st en (board s) false false = Some m ->
  makeMove m s = Some (tt, s1) ->
  on_board r c = true ->
  board_get (board s1) r c
  = if square_eqb (r, c) en
    then Some (if is_pawn_promotion m then (fst (piece_moved m), QUEEN)
               else piece_moved m)
    else if square_eqb (r, c) st then Some EMPTY_SQUARE
    else board_get (board s) r c.
Proof.
  intros Hs He Hm M Hrc.
  destruct (@makeMove_ordinary_cells _ _ _ _ _ Hs He Hm M)
    as (Hpm & V2 & -> & _ & _).
  assert (cell (board s) (Z.to_nat (fst st)) (Z.to_nat (snd st)) <> None)
    as V1 by congruence.
  apply on_board_bounds in Hs, He, Hrc.
  rewrite !board_get_cell by lia.
  rewrite !cell_put_if by (repeat apply valid_put; assumption).
  assert (forall a b, 0 <= a -> 0 <= b ->
                      (Z.to_nat a =? Z.to_nat b)%nat = (b =? a)) as Q.
  { intros a b Ha Hb. destruct (Z.eqb_spec b a) as [->|N].
    - apply Nat.eqb_refl.
    - apply Nat.eqb_neq. lia. }
  rewrite !Q by lia. reflexivity.
Qed.

Lemma makeMove_board_effect_witness :
  exists m s1,
    move_of GameState_init (6, 4) (4, 4) = Some m
    /\ makeMove m GameState_init = Some (tt, s1)
    /\ board_get (board s1) 4 4 = Some ("w", "p")
    /\ board_get (board s1) 6 4 = Some EMPTY_SQUARE.
Proof.
  assert (exists m s1,
            Move_init (6, 4) (4, 4) (board GameState_init) false false
            = Some m
            /\ makeMove m GameState_init = Some (tt, s1)) as H
    by (vm_compute; eexists _, _; split; reflexivity).
  destruct H as (m & s1 & Em & E).
  pose proof (@makeMove_board_effect GameState_init s1 (6, 4) (4, 4) m 4 4
                eq_refl eq_refl Em E eq_refl) as H1.
  pose proof (@makeMove_board_effect GameState_init s1 (6, 4) (4, 4) m 6 4
                eq_refl eq_refl Em E eq_refl) as H2.
  exists m, s1. split; [exact Em|]. split; [exact E|].
  injection Em as <-. split; [exact H1|exact H2].
Defined.

(** X30: [makeMove] of such a move keeps every king on the board on the
    square recorded for its colour: if [kings_recorded] holds before the
    move, it holds after it. *)
Theorem makeMove_keeps_kings_recorded (s s1 : GameState) (st en : Square)
  (m : Move) :
  on_board (fst st) (snd st) = true ->
  on_board (fst en) (snd en) = true ->
  Move_init st en (board s) false false = Some m ->
  kings_recorded s ->
  makeMove m s = Some (tt, s1) ->
  kings_recorded s1.
Proof.
  intros Hs He Hm K M.
  destruct (@makeMove_ordinary_cells _ _ _ _ _ Hs He Hm M)
    as (Hpm & V2 & Eb & Ew & Ebk).
  assert (cell (board s) (Z.to_nat (fst st)) (Z.to_nat (snd st)) <> None)
    as V1 by congruence.
  pose proof Hs as Hs'. pose proof He as He'.
  apply on_board_bounds in Hs', He'.
  assert (forall colour r c,
            colour = WHITE_COLOR \/ colour = BLACK_COLOR ->
            on_board r c = true ->
            board_get (board s1) r c = Some (colour, KING) ->
            ((r, c) = en /\ piece_moved m = (colour, KING))
            \/ ((r, c) <> st
                /\ board_get (board s) r c = Some (colour, KING))) as Where.
  { intros colour r c Hcol Hrc Hk. pose proof Hrc as Hrc'.
    apply on_board_bounds in Hrc'.
    rewrite Eb in Hk. rewrite board_get_cell in Hk by lia.
    rewrite !board_get_cell by lia.
    rewrite !cell_put_if in Hk by (repeat apply valid_put; congruence).
    destruct ((Z.to_nat (fst en) =? Z.to_nat r)%nat
              && (Z.to_nat (snd en) =? Z.to_nat c)%nat) eqn:Ee.
    - left. apply andb_true_iff in Ee. rewrite !Nat.eqb_eq in Ee.
      split.
      + destruct en as [er ec]. cbn [fst snd] in *. f_equal; lia.
      + destruct (is_pawn_promotion m); [discriminate|].
        injection Hk as Hk. exact Hk.
    - destruct ((Z.to_nat (fst st) =? Z.to_nat r)%nat
                && (Z.to_nat (snd st) =? Z.to_nat c)%nat) eqn:Es;
        [discriminate|].
      right. split; [|exact Hk].
      intros E. rewrite <- E in Es. cbn [fst snd] in Es.
      rewrite !Nat.eqb_refl in Es. discriminate. }
  assert (forall colour,
            piece_eqb (piece_moved m) (colour, KING) = true ->
            piece_moved m = (colour, KING)) as Peq
      by (intros colour H; apply piece_eqb_eq; exact H).
  assert (board_get (board s) (fst st) (snd st) = Some (piece_moved m))
    as Hpm' by (rewrite board_get_cell by lia; exact Hpm).
  intros r c. split; intros Hk Hrc.
  - destruct (Where WHITE_COLOR r c (or_introl eq_refl) Hrc Hk)
      as [[E P]|[N B]].
    + rewrite Ew, P. cbn. symmetry. exact E.
    + rewrite Ew. pose proof (proj1 (K r c) B Hrc) as Kw.
      destruct (piece_eqb (piece_moved m) (WHITE_COLOR, KING)) eqn:P;
        [|exact Kw].
      exfalso. apply N. rewrite <- Kw.
      apply Peq in P. rewrite P in Hpm'.
      etransitivity; [exact (proj1 (K (fst st) (snd st)) Hpm' Hs)|].
      symmetry. apply surjective_pairing.
  - destruct (Where BLACK_COLOR r c (or_intror eq_refl) Hrc Hk)
      as [[E P]|[N B]].
    + rewrite Ebk, P. cbn. symmetry. exact E.
    + rewrite Ebk. pose proof (proj2 (K r c) B Hrc) as Kb.
      destruct (piece_eqb (piece_moved m) (WHITE_COLOR, KING)); [exact Kb|].
      destruct (piece_eqb (piece_moved m) (BLACK_COLOR, KING)) eqn:P;
        [|exact Kb].
      exfalso. apply N. rewrite <- Kb.
      apply Peq in P. rewrite P in Hpm'.
      etransitivity; [exact (proj2 (K (fst st) (snd st)) Hpm' Hs)|].
      symmetry. apply surjective_pairing.
Qed.

Lemma makeMove_keeps_kings_recorded_witness :
  exists m s1,
    move_of GameState_init (6, 4) (4, 4) = Some m
    /\ makeMove m GameState_init = Some (tt, s1)
    /\ kings_recorded s1.
Proof.
  assert (exists m s1,
            Move_init (6, 4) (4, 4) (board GameState_init) false false
            = Some m
            /\ makeMove m GameState_init = Some (tt, s1)) as H
    by (vm_compute; eexists _, _; split; reflexivity).
  destruct H as (m & s1 & Em & E).
  assert (kings_recorded GameState_init) as K
      by (apply kings_recorded_b_sound; vm_compute; reflexivity).
  exists m, s1. split; [exact Em|]. split; [exact E|].
  exact (@makeMove_keeps_kings_recorded GameState_init s1 (6, 4) (4, 4) m
           eq_refl eq_refl Em K E).
Defined.
